(** * Boulder service-fleet orchestrator (test/startservers.py, test/helpers.py,
    test/integration-test.py)

    A shallow embedding of the dependency scheduler, of the readiness
    gates, of the process supervisor and of the fleet controller, with
    the properties of the design document stated over it. *)

From stdpp Require Import base gmap sets list strings pretty relations.
From Stdlib Require Import ZArith Lia.
From Stdlib Require HexString.

#[local] Set Warnings "-clear-no-such-hyp".

Open Scope string_scope.
Open Scope Z_scope.

(** ** Service descriptors

    [Service = namedtuple('Service', ('name', 'debug_port', 'grpc_addr',
    'cmd', 'deps'))].  [grpc_addr] and [deps] are [None] in many rows of
    the table, hence the [option]s. *)

Record Service := mkService {
  name : string;
  debug_port : Z;
  grpc_addr : option string;
  cmd : list string;
  deps : option (list string);
}.

#[global] Instance Service_eq_dec : EqDecision Service.
Proof. solve_decision. Defined.

Definition Service_to_tuple (s : Service) :
  string * Z * option string * list string * option (list string) :=
  (name s, debug_port s, grpc_addr s, cmd s, deps s).

Definition Service_of_tuple
  (t : string * Z * option string * list string * option (list string)) : Service :=
  let '(n, p, g, c, d) := t in mkService n p g c d.

#[global] Instance Service_countable : Countable Service.
Proof.
  apply (inj_countable' Service_to_tuple Service_of_tuple).
  by intros [].
Defined.

(** [s.deps] as the sequence a [for d in s.deps] walks over; the
    scheduler only iterates the deps of services for which [not s.deps]
    is false, so [None] never reaches the iteration. *)
Definition deps_list (s : Service) : list string :=
  match deps s with
  | None => []
  | Some ds => ds
  end.

(** Python truthiness of [s.deps]: [None] and the empty tuple are falsy. *)
Definition deps_truthy (s : Service) : bool :=
  match deps s with
  | None => false
  | Some [] => false
  | Some (_ :: _) => true
  end.

(** ** The scheduler: [_service_toposort]

    The generator yields services one at a time and raises after the
    loop when [blocked] is not empty.  Its run is the sequence of yields
    together with how it ended. *)

Inductive toposort_end :=
| Exhausted                                   (* generator returns *)
| Unsatisfied (blocked : gset Service).       (* raise(Exception("Unable to satisfy ...")) *)

Section Scheduler.
(** [set.pop()] removes and returns an arbitrary element. Which one
    is the interpreter's business: the model takes the choice as a
    parameter. *)
Variable pop : gset Service → Service.

(** [all([d in done for d in s.deps])] *)
Definition all_deps_done (done : gset string) (s : Service) : bool :=
  forallb (λ d, bool_decide (d ∈ done)) (deps_list s).

(** The [while ready:] loop.  Every iteration moves one service out
    of [ready ∪ blocked], so [fuel] bounds the iterations; [None] is
    "fuel ran out". *)
Fixpoint toposort_loop (fuel : nat) (ready blocked : gset Service)
    (done : gset string) : option (list Service * toposort_end) :=
  if decide (ready = ∅) then
    Some ([], if decide (blocked = ∅) then Exhausted else Unsatisfied blocked)
  else
    match fuel with
    | O => None
    | S fuel' =>
        let service := pop ready in
        let ready := ready ∖ {[service]} in
        let done := done ∪ {[name service]} in
        let new := filter (λ s, all_deps_done done s = true) blocked in
        let ready := ready ∪ new in
        let blocked := blocked ∖ new in
        match toposort_loop fuel' ready blocked done with
        | None => None
        | Some (out, e) => Some (service :: out, e)
        end
    end.

Definition toposort_init_ready (services : list Service) : gset Service :=
  list_to_set (filter (λ s, deps_truthy s = false) services).

Definition _service_toposort (services : list Service) :
    option (list Service * toposort_end) :=
  let ready := toposort_init_ready services in
  let blocked := list_to_set services ∖ ready in
  toposort_loop (length services) ready blocked ∅.
End Scheduler.


(** ** Exceptions, results and the supervisor's state

    Only [Exception] subclasses are modelled: [socket.error] is
    [OSError]; [subprocess.check_call] raises [CalledProcessError];
    [Popen] raises [TypeError] on an argv holding [None]. *)

Inductive exn :=
| Exception (msg : string)
| OSError (errno : Z)
| CalledProcessError (returncode : Z)
| TypeError.

#[global] Instance exn_eq_dec : EqDecision exn.
Proof. solve_decision. Defined.

Inductive result (A : Type) :=
| Ret (a : A)
| Raise (e : exn).
Arguments Ret {A} a.
Arguments Raise {A} e.

Definition ECONNREFUSED : Z := 111.
Definition SIGTERM : Z := 15.
Definition SIGINT : Z := 2.

(** A [subprocess.Popen] object as the supervisor uses it: [args] is
    set by [Popen], [p_cmd] is the attribute [run] adds ([p.cmd = cmd]). *)
Record Popen := mkPopen {
  pid : Z;
  args : list string;
  p_cmd : list string;
}.

#[global] Instance Popen_eq_dec : EqDecision Popen.
Proof. solve_decision. Defined.

(** Calls to the operating system, in the order made, each with what
    it answered. *)
Inductive event :=
| EvSignalHandler (sig : Z)                        (* signal.signal(sig, lambda: stop()) *)
| EvPopen (argv : list string) (env : gmap string string) (r : result Z)
| EvPoll (p : Popen) (r : option Z)                (* p.poll() *)
| EvSendSignal (p : Popen) (sig : Z) (r : result unit)
| EvWait (p : Popen) (r : result Z)
| EvSleep (ms : Z)                                 (* time.sleep(0.1) *)
| EvPerTickCheck (ok : bool)                       (* perTickCheck() and its answer *)
| EvConnect (port : Z) (r : result unit)           (* socket(); connect(('localhost', port)) *)
| EvClose (port : Z)                               (* s.close() *)
| EvCheckCall (argv : list string) (r : result unit).

(** What the code prints, line by line. *)
Inductive log_line :=
| LogUnsatisfiedHeader                             (* "WARNING: services with unsatisfied dependencies:" *)
| LogUnsatisfied (n : string) (ds : option (list string))   (* print(s.name, ":", s.deps) *)
| LogStarting (n : string)                         (* "Starting service", name *)
| LogErrorStarting (n : string) (e : exn)          (* "Error starting service %s: %s" *)
| LogAllRunning                                    (* "All servers running. Hit ^C to kill." *)
| LogExitedHeader                                  (* "These processes exited early ..." *)
| LogExited (c : list string) (p : Z) (code : Z)   (* "'%s' with pid %d exited %d" *)
| LogWaiting (port : Z) (prog : string).           (* "Waiting for debug port %d (%s)" *)

(** The operating system as the orchestrator sees it. *)
Class OS (World : Type) := {
  os_environ : World → gmap string string;
  os_popen : list string → gmap string string → World → result Z * World;
  os_poll : Popen → World → option Z * World;
  os_send_signal : Popen → Z → World → result unit * World;
  os_wait : Popen → World → result Z * World;
  os_sleep : World → World;
  os_connect : Z → World → result unit * World;
  os_check_call : list string → World → result unit * World;
}.

(** The module's globals ([processes], [challSrvProcess]) with the
    world, the output and the trace of calls. *)
Record Sys (World : Type) := mkSys {
  world : World;
  processes : list Popen;
  challSrvProcess : option Popen;
  stdout : list log_line;
  trace : list event;
}.
Arguments mkSys {World}.
Arguments world {World}.
Arguments processes {World}.
Arguments challSrvProcess {World}.
Arguments stdout {World}.
Arguments trace {World}.

(** Two states with the same globals. *)
Definition same_fleet {World} (σ σ' : Sys World) : Prop :=
  processes σ' = processes σ ∧ challSrvProcess σ' = challSrvProcess σ.

(** ** [run]'s environment: [os.environ.copy()] and two [setdefault]s *)

(** [dict.setdefault(k, v)]: insert only when [k] is absent. *)
Definition setdefault (k v : string) (e : gmap string string) : gmap string string :=
  match e !! k with
  | Some _ => e
  | None => <[k := v]> e
  end.

(** Python truthiness of [fakeclock] ([None] and [''] are falsy). *)
Definition fakeclock_truthy (fakeclock : option string) : bool :=
  match fakeclock with
  | None => false
  | Some s => negb (String.eqb s EmptyString)
  end.

Definition child_env (ambient : gmap string string) (fakeclock : option string) :
    gmap string string :=
  let e := ambient in
  let e := setdefault "GORACE" "halt_on_error=1" e in
  match fakeclock with
  | Some fc => if fakeclock_truthy fakeclock then setdefault "FAKECLOCK" fc e else e
  | None => e
  end.

(** [os.path.join(a, b)] for a relative [b]. *)
Definition path_join (a b : string) : string :=
  if String.eqb a EmptyString then b
  else if String.eqb (String.substring (String.length a - 1) 1 a) "/" then a +:+ b
  else a +:+ "/" +:+ b.

(** What a key reads in the child's environment, said outright: the
    ambient value when the key has one, otherwise the default of the
    two configurable keys. *)
Definition child_env_lookup (ambient : gmap string string) (fakeclock : option string)
    (k : string) : option string :=
  match ambient !! k with
  | Some v => Some v
  | None =>
      if decide (k = "GORACE") then Some "halt_on_error=1"
      else if decide (k = "FAKECLOCK")
           then (if fakeclock_truthy fakeclock then fakeclock else None)
           else None
  end.

(** ** The table of services

    [SERVICES], row for row; [config_dir] is [helpers.config_dir]. *)
Definition SERVICES (config_dir : string) : list Service := [
  mkService "boulder-remoteva-a" 8011 (Some "rva1.service.consul:9097")
    ["./bin/boulder"; "boulder-remoteva"; "--config"; path_join config_dir "va-remote-a.json"]
    None;
  mkService "boulder-remoteva-b" 8012 (Some "rva1.service.consul:9098")
    ["./bin/boulder"; "boulder-remoteva"; "--config"; path_join config_dir "va-remote-b.json"]
    None;
  mkService "boulder-sa-1" 8003 (Some "sa1.service.consul:9095")
    ["./bin/boulder"; "boulder-sa"; "--config"; path_join config_dir "sa.json";
     "--addr"; "sa1.service.consul:9095"; "--debug-addr"; ":8003"]
    None;
  mkService "boulder-sa-2" 8103 (Some "sa2.service.consul:9095")
    ["./bin/boulder"; "boulder-sa"; "--config"; path_join config_dir "sa.json";
     "--addr"; "sa2.service.consul:9095"; "--debug-addr"; ":8103"]
    None;
  mkService "ct-test-srv" 4500 None
    ["./bin/ct-test-srv"; "--config"; "test/ct-test-srv/ct-test-srv.json"]
    None;
  mkService "boulder-publisher-1" 8009 (Some "publisher1.service.consul:9091")
    ["./bin/boulder"; "boulder-publisher"; "--config"; path_join config_dir "publisher.json";
     "--addr"; "publisher1.service.consul:9091"; "--debug-addr"; ":8009"]
    None;
  mkService "boulder-publisher-2" 8109 (Some "publisher2.service.consul:9091")
    ["./bin/boulder"; "boulder-publisher"; "--config"; path_join config_dir "publisher.json";
     "--addr"; "publisher2.service.consul:9091"; "--debug-addr"; ":8109"]
    None;
  mkService "mail-test-srv" 9380 None
    ["./bin/mail-test-srv"; "--closeFirst"; "5";
     "--cert"; "test/mail-test-srv/localhost/cert.pem";
     "--key"; "test/mail-test-srv/localhost/key.pem"]
    None;
  mkService "ocsp-responder" 8005 None
    ["./bin/boulder"; "ocsp-responder"; "--config"; path_join config_dir "ocsp-responder.json"]
    (Some ["boulder-ra-1"; "boulder-ra-2"]);
  mkService "boulder-va-1" 8004 (Some "va1.service.consul:9092")
    ["./bin/boulder"; "boulder-va"; "--config"; path_join config_dir "va.json";
     "--addr"; "va1.service.consul:9092"; "--debug-addr"; ":8004"]
    (Some ["boulder-remoteva-a"; "boulder-remoteva-b"]);
  mkService "boulder-va-2" 8104 (Some "va2.service.consul:9092")
    ["./bin/boulder"; "boulder-va"; "--config"; path_join config_dir "va.json";
     "--addr"; "va2.service.consul:9092"; "--debug-addr"; ":8104"]
    (Some ["boulder-remoteva-a"; "boulder-remoteva-b"]);
  mkService "boulder-ca-a" 8001 (Some "ca1.service.consul:9093")
    ["./bin/boulder"; "boulder-ca"; "--config"; path_join config_dir "ca-a.json";
     "--ca-addr"; "ca1.service.consul:9093"; "--ocsp-addr"; "ca1.service.consul:9096";
     "--crl-addr"; "ca1.service.consul:9106"; "--debug-addr"; ":8001"]
    (Some ["boulder-sa-1"; "boulder-sa-2"]);
  mkService "boulder-ca-b" 8101 (Some "ca2.service.consul:9093")
    ["./bin/boulder"; "boulder-ca"; "--config"; path_join config_dir "ca-b.json";
     "--ca-addr"; "ca2.service.consul:9093"; "--ocsp-addr"; "ca2.service.consul:9096";
     "--crl-addr"; "ca2.service.consul:9106"; "--debug-addr"; ":8101"]
    (Some ["boulder-sa-1"; "boulder-sa-2"]);
  mkService "akamai-test-srv" 6789 None
    ["./bin/akamai-test-srv"; "--listen"; "localhost:6789"; "--secret"; "its-a-secret"]
    None;
  mkService "akamai-purger" 9666 None
    ["./bin/boulder"; "akamai-purger"; "--config"; path_join config_dir "akamai-purger.json"]
    (Some ["akamai-test-srv"]);
  mkService "s3-test-srv" 7890 None
    ["./bin/s3-test-srv"; "--listen"; "localhost:7890"]
    None;
  mkService "crl-storer" 9667 None
    ["./bin/boulder"; "crl-storer"; "--config"; path_join config_dir "crl-storer.json"]
    (Some ["s3-test-srv"]);
  mkService "ocsp-updater" 8006 None
    ["./bin/boulder"; "ocsp-updater"; "--config"; path_join config_dir "ocsp-updater.json"]
    (Some ["boulder-ca-a"; "boulder-ca-b"]);
  mkService "crl-updater" 8021 None
    ["./bin/boulder"; "crl-updater"; "--config"; path_join config_dir "crl-updater.json"]
    (Some ["boulder-ca-a"; "boulder-ca-b"; "boulder-sa-1"; "boulder-sa-2"; "crl-storer"]);
  mkService "boulder-ra-1" 8002 (Some "ra1.service.consul:9094")
    ["./bin/boulder"; "boulder-ra"; "--config"; path_join config_dir "ra.json";
     "--addr"; "ra1.service.consul:9094"; "--debug-addr"; ":8002"]
    (Some ["boulder-sa-1"; "boulder-sa-2"; "boulder-ca-a"; "boulder-ca-b";
           "boulder-va-1"; "boulder-va-2"; "akamai-purger";
           "boulder-publisher-1"; "boulder-publisher-2"]);
  mkService "boulder-ra-2" 8102 (Some "ra2.service.consul:9094")
    ["./bin/boulder"; "boulder-ra"; "--config"; path_join config_dir "ra.json";
     "--addr"; "ra2.service.consul:9094"; "--debug-addr"; ":8102"]
    (Some ["boulder-sa-1"; "boulder-sa-2"; "boulder-ca-a"; "boulder-ca-b";
           "boulder-va-1"; "boulder-va-2"; "akamai-purger";
           "boulder-publisher-1"; "boulder-publisher-2"]);
  mkService "bad-key-revoker" 8020 None
    ["./bin/boulder"; "bad-key-revoker"; "--config"; path_join config_dir "bad-key-revoker.json"]
    (Some ["boulder-ra-1"; "boulder-ra-2"; "mail-test-srv"]);
  mkService "nonce-service-taro" 8111 (Some "nonce1.service.consul:9101")
    ["./bin/boulder"; "nonce-service"; "--config"; path_join config_dir "nonce-a.json";
     "--addr"; "10.77.77.77:9101"; "--debug-addr"; ":8111"]
    None;
  mkService "nonce-service-zinc" 8112 (Some "nonce2.service.consul:9101")
    ["./bin/boulder"; "nonce-service"; "--config"; path_join config_dir "nonce-b.json";
     "--addr"; "10.88.88.88:9101"; "--debug-addr"; ":8112"]
    None;
  mkService "boulder-wfe2" 4001 None
    ["./bin/boulder"; "boulder-wfe2"; "--config"; path_join config_dir "wfe2.json"]
    (Some ["boulder-ra-1"; "boulder-ra-2"; "boulder-sa-1"; "boulder-sa-2";
           "nonce-service-taro"; "nonce-service-zinc"]);
  mkService "log-validator" 8016 None
    ["./bin/boulder"; "log-validator"; "--config"; path_join config_dir "log-validator.json"]
    None
].

(** ** The orchestrator *)

Section Orchestrator.
Context {World : Type} {os : OS World}.

(** [helpers.config_dir], read from [BOULDER_CONFIG_DIR] at import. *)
Variable config_dir : string.
(** The arbitrary choice of [set.pop()] in the scheduler. *)
Variable pop : gset Service → Service.
(** The order in which [for s in blocked] walks a set: as arbitrary
    as [set.pop()]. *)
Variable walk : gset Service → list Service.

Definition M (A : Type) : Type := Sys World → result A * Sys World.

Definition ret {A} (a : A) : M A := λ σ, (Ret a, σ).
Definition raise {A} (e : exn) : M A := λ σ, (Raise e, σ).
Definition bind {A B} (m : M A) (k : A → M B) : M B :=
  λ σ, match m σ with
       | (Ret a, σ') => k a σ'
       | (Raise e, σ') => (Raise e, σ')
       end.
(** [try: m except Exception as e: h e] *)
Definition try_except {A} (m : M A) (h : exn → M A) : M A :=
  λ σ, match m σ with
       | (Ret a, σ') => (Ret a, σ')
       | (Raise e, σ') => h e σ'
       end.

Notation "'let*' x ':=' m 'in' k" := (bind m (λ x, k))
  (at level 10, x name, m at level 100, k at level 200, only parsing).
Notation "m >> k" := (bind m (λ _, k))
  (at level 100, k at level 200, right associativity, only parsing).

Definition emit (ev : event) : M unit :=
  λ σ, (Ret tt, mkSys (world σ) (processes σ) (challSrvProcess σ) (stdout σ) (trace σ ++ [ev])).
Definition print (l : log_line) : M unit :=
  λ σ, (Ret tt, mkSys (world σ) (processes σ) (challSrvProcess σ) (stdout σ ++ [l]) (trace σ)).
Definition set_processes (ps : list Popen) : M unit :=
  λ σ, (Ret tt, mkSys (world σ) ps (challSrvProcess σ) (stdout σ) (trace σ)).
Definition set_challSrvProcess (c : option Popen) : M unit :=
  λ σ, (Ret tt, mkSys (world σ) (processes σ) c (stdout σ) (trace σ)).
Definition get_processes : M (list Popen) := λ σ, (Ret (processes σ), σ).
Definition get_challSrvProcess : M (option Popen) := λ σ, (Ret (challSrvProcess σ), σ).

(** One call to the operating system: the world moves on and the
    call is recorded with its answer. *)
Definition syscall {A} (f : World → A * World) (ev : A → event) : M A :=
  λ σ, let '(a, w) := f (world σ) in
       (Ret a, mkSys w (processes σ) (challSrvProcess σ) (stdout σ) (trace σ ++ [ev a])).
(** The same for a call that may raise. *)
Definition syscall_r {A} (f : World → result A * World) (ev : result A → event) : M A :=
  λ σ, let '(r, w) := f (world σ) in
       (r, mkSys w (processes σ) (challSrvProcess σ) (stdout σ) (trace σ ++ [ev r])).

Definition poll (p : Popen) : M (option Z) := syscall (os_poll p) (EvPoll p).
Definition send_signal (p : Popen) (sig : Z) : M unit :=
  syscall_r (os_send_signal p sig) (EvSendSignal p sig).
Definition wait (p : Popen) : M Z := syscall_r (os_wait p) (EvWait p).
Definition sleep : M unit := syscall (λ w, (tt, os_sleep w)) (λ _, EvSleep 100).
Definition connect (port : Z) : M unit := syscall_r (os_connect port) (EvConnect port).
Definition close (port : Z) : M unit := emit (EvClose port).
Definition check_call (argv : list string) : M unit :=
  syscall_r (os_check_call argv) (EvCheckCall argv).
Definition environ : M (gmap string string) := λ σ, (Ret (os_environ (world σ)), σ).

(** *** helpers.py: [waitport], [waithealth] *)

Definition timed_out_msg (port : Z) (prog : string) : string :=
  "timed out waiting for debug port " +:+ pretty port +:+ " (" +:+ prog +:+ ")".

(** The [try] body of one iteration; [Ret b] is [return b]. *)
Definition waitport_attempt (port : Z) (perTickCheck : option (M bool)) : M bool :=
  sleep >>
  let* ok := match perTickCheck with
             | None => ret true
             | Some chk => let* ok := chk in emit (EvPerTickCheck ok) >> ret ok
             end in
  if negb ok then ret false
  else connect port >> close port >> ret true.

(** [except socket.error as e]: refused is printed and the loop goes
    on ([None]), anything else is raised again. *)
Definition waitport_except (port : Z) (prog : string) (e : exn) : M (option bool) :=
  match e with
  | OSError errno =>
      if Z.eqb errno ECONNREFUSED
      then print (LogWaiting port prog) >> ret None
      else raise e
  | _ => raise e
  end.

(** [for _ in range(n)] around the [try], then the final [raise]. *)
Fixpoint waitport_loop (n : nat) (port : Z) (prog : string)
    (perTickCheck : option (M bool)) : M bool :=
  match n with
  | O => raise (Exception (timed_out_msg port prog))
  | S n' =>
      let* r := try_except
                  (let* b := waitport_attempt port perTickCheck in ret (Some b))
                  (waitport_except port prog) in
      match r with
      | Some b => ret b
      | None => waitport_loop n' port prog perTickCheck
      end
  end.

Definition waitport (port : Z) (prog : string) (perTickCheck : option (M bool)) : M bool :=
  waitport_loop 1000 port prog perTickCheck.

Definition waithealth (prog addr : string) : M unit :=
  check_call ["./bin/health-checker"; "-addr"; addr;
              "-config"; path_join config_dir "health-checker.json"].

(** *** startservers.py: [run] *)

Definition run (cmd : list string) (fakeclock : option string) : M Popen :=
  let* e := environ in
  let e := child_env e fakeclock in
  let* child := syscall_r (os_popen cmd e) (EvPopen cmd e) in
  ret (mkPopen child cmd cmd).

(** *** [check] *)

(** The [for p in processes] loop filling [busted] and [stillok];
    a busted entry carries the [returncode] its poll set. *)
Fixpoint check_loop (ps : list Popen) (busted : list (Popen * Z))
    (stillok : list Popen) : M (list (Popen * Z) * list Popen) :=
  match ps with
  | [] => ret (busted, stillok)
  | p :: ps' =>
      let* r := poll p in
      match r with
      | None => check_loop ps' busted (stillok ++ [p])
      | Some returncode => check_loop ps' (busted ++ [(p, returncode)]) stillok
      end
  end.

Fixpoint print_all (ls : list log_line) : M unit :=
  match ls with
  | [] => ret tt
  | l :: ls' => print l >> print_all ls'
  end.

Definition exited_line (b : Popen * Z) : log_line :=
  LogExited (p_cmd (fst b)) (pid (fst b)) (snd b).

Definition check : M bool :=
  let* ps := get_processes in
  let* bs := check_loop ps [] [] in
  let busted := fst bs in
  let stillok := snd bs in
  (match busted with
   | [] => ret tt
   | _ :: _ => print LogExitedHeader >> print_all (exited_line <$> busted)
   end) >>
  set_processes stillok >>
  ret (match busted with [] => true | _ :: _ => false end).

(** *** [startChallSrv], [stopChallSrv] *)

Definition join_args (p : Popen) : string := String.concat " " (args p).

Definition challSrv_argv (fake_dns : string) : list string :=
  ["pebble-challtestsrv";
   "--defaultIPv4"; fake_dns;
   "-defaultIPv6"; EmptyString;
   "--dns01"; ":8053,:8054";
   "--management"; ":8055";
   "--http01"; "10.77.77.77:80";
   "-https01"; "10.77.77.77:443";
   "--tlsalpn01"; "10.88.88.88:443"].

(** The function ends without a [return] on success ([None]) and has
    a [return False] after the port wait ([Some false]). *)
Definition startChallSrv : M (option bool) :=
  let* c := get_challSrvProcess in
  match c with
  | Some _ => raise (Exception "startChallSrv called more than once")
  | None =>
      let* env := environ in
      match env !! "FAKE_DNS" with
      | None => raise TypeError
      | Some fake_dns =>
          let* p := run (challSrv_argv fake_dns) None in
          set_challSrvProcess (Some p) >>
          let* ok := waitport 8055 (join_args p) None in
          if negb ok then ret (Some false) else ret None
      end
  end.

(** [if p.poll() is None: p.send_signal(signal.SIGTERM); p.wait()],
    the three lines [stopChallSrv] and [stop] share. *)
Definition terminate_if_alive (p : Popen) : M unit :=
  let* r := poll p in
  match r with
  | None => send_signal p SIGTERM >> wait p >> ret tt
  | Some _ => ret tt
  end.

Definition stopChallSrv : M unit :=
  let* c := get_challSrvProcess in
  match c with
  | None => ret tt
  | Some p => terminate_if_alive p >> set_challSrvProcess None
  end.

(** *** [stop] *)

(** The body of [for p in reversed(processes)], over the reversed list. *)
Fixpoint stop_loop (ps : list Popen) : M unit :=
  match ps with
  | [] => ret tt
  | p :: ps' => terminate_if_alive p >> stop_loop ps'
  end.

Definition stop : M unit :=
  let* ps := get_processes in
  stop_loop (rev ps) >>
  set_processes [] >>
  stopChallSrv.

(** *** [start] *)

(** The readiness gate of one service; [Ret false] is the
    [return False] after [waitport]. *)
Definition gate (service : Service) (p : Popen) : M bool :=
  match grpc_addr service with
  | Some addr => waithealth (join_args p) addr >> ret true
  | None => waitport (debug_port service) (join_args p) (Some check)
  end.

Definition append_process (p : Popen) : M unit :=
  let* ps := get_processes in
  set_processes (ps ++ [p]).

(** The [try] body of the loop: spawn, append, gate. *)
Definition spawn_and_gate (fakeclock : option string) (service : Service) : M bool :=
  let* p := run (cmd service) fakeclock in
  append_process p >>
  gate service p.

(** One iteration of the [for service in ...] loop: [Ret true] goes
    on to the next service, [Ret false] is [return False]. *)
Definition start_service (fakeclock : option string) (service : Service) : M bool :=
  print (LogStarting (name service)) >>
  try_except
    (spawn_and_gate fakeclock service)
    (λ e, print (LogErrorStarting (name service) e) >> ret false).

Fixpoint start_loop (fakeclock : option string) (order : list Service) : M bool :=
  match order with
  | [] => ret true
  | service :: rest =>
      let* ok := start_service fakeclock service in
      if negb ok then ret false else start_loop fakeclock rest
  end.

(** The state in which the [try] body of [service] starts: the
    ["Starting service"] line has been printed. *)
Definition announced (service : Service) (σ : Sys World) : Sys World :=
  mkSys (world σ) (processes σ) (challSrvProcess σ)
    (stdout σ ++ [LogStarting (name service)]) (trace σ).

(** [all_up fc order σ σ']: from [σ], every service of [order], in
    order, was spawned and passed its gate, leaving [σ']. *)
Inductive all_up (fakeclock : option string) : list Service → Sys World → Sys World → Prop :=
| all_up_nil σ : all_up fakeclock [] σ σ
| all_up_cons service rest σ σ1 σ2 :
    spawn_and_gate fakeclock service (announced service σ) = (Ret true, σ1) →
    all_up fakeclock rest σ1 σ2 →
    all_up fakeclock (service :: rest) σ σ2.

(** The state in which [startChallSrv] is called: both handlers are
    installed. *)
Definition handlers_installed (σ : Sys World) : Sys World :=
  mkSys (world σ) (processes σ) (challSrvProcess σ) (stdout σ)
    ((trace σ ++ [EvSignalHandler SIGTERM]) ++ [EvSignalHandler SIGINT]).

Definition unsatisfied_report (blocked : gset Service) : list (string * option (list string)) :=
  (λ s, (name s, deps s)) <$> elements blocked.

(** [print(s.name, ":", s.deps)] for each [s], in the order given. *)
Definition unsatisfied_lines (ss : list Service) : list log_line :=
  (λ s, LogUnsatisfied (name s) (deps s)) <$> ss.

(** [start] over one run of the generator: the loop draws the yields
    one by one, and the generator's closing [raise] reaches [start]
    outside the [try]. *)
Definition start_gen (gen : list Service * toposort_end) (fakeclock : option string) : M bool :=
  emit (EvSignalHandler SIGTERM) >>
  emit (EvSignalHandler SIGINT) >>
  startChallSrv >>
  let* ok := start_loop fakeclock (fst gen) in
  if negb ok then ret false
  else match snd gen with
       | Exhausted => print LogAllRunning >> ret true
       | Unsatisfied blocked =>
           print LogUnsatisfiedHeader >>
           print_all (unsatisfied_lines (walk blocked)) >>
           raise (Exception "Unable to satisfy service dependencies")
       end.

(** [start] over any table; [None] only if the scheduler ran out of
    fuel. *)
Definition start_on (services : list Service) (fakeclock : option string)
    (σ : Sys World) : option (result bool * Sys World) :=
  gen ← _service_toposort pop services;
  Some (start_gen gen fakeclock σ).

(** [start], which walks [_service_toposort(SERVICES)]. *)
Definition start (fakeclock : option string) (σ : Sys World) :
    option (result bool * Sys World) :=
  start_on (SERVICES config_dir) fakeclock σ.
End Orchestrator.

(** ** What the design document says of the scheduler *)

(** [s] names [t] in its [deps]. *)
Definition depends_on (services : list Service) (s t : Service) : Prop :=
  s ∈ services ∧ t ∈ services ∧ name t ∈ deps_list s.

(** The invariant of the data model: names identify descriptors, every
    dependency name is declared, the dependency relation has no cycle. *)
Definition names_unique (services : list Service) : Prop :=
  ∀ s t, s ∈ services → t ∈ services → name s = name t → s = t.

Definition deps_declared (services : list Service) : Prop :=
  ∀ s d, s ∈ services → d ∈ deps_list s → ∃ t, t ∈ services ∧ name t = d.

Definition acyclic (services : list Service) : Prop :=
  ∀ s, ¬ tc (depends_on services) s s.

Definition has_cycle (services : list Service) : Prop :=
  ∃ s, tc (depends_on services) s s.

Definition has_undeclared_dep (services : list Service) : Prop :=
  ∃ s d, s ∈ services ∧ d ∈ deps_list s ∧ ∀ t, t ∈ services → name t ≠ d.

(** [t] is yielded strictly before [s]. *)
Definition yielded_before (out : list Service) (t s : Service) : Prop :=
  ∃ i j, out !! i = Some t ∧ out !! j = Some s ∧ (i < j)%nat.

(** Resolving by repeated removal: a name is resolved once a descriptor
    carrying it has been removed, and a descriptor can be removed once
    all its dependency names are resolved. *)
Inductive resolved_name (services : list Service) : string → Prop :=
| resolved_by (s : Service) :
    s ∈ services →
    (∀ d, d ∈ deps_list s → resolved_name services d) →
    resolved_name services (name s).

Definition resolvable (services : list Service) (s : Service) : Prop :=
  s ∈ services ∧ ∀ d, d ∈ deps_list s → resolved_name services d.

(** The dependency names of [s] that no resolvable descriptor carries. *)
Definition unmet_deps (services : list Service) (s : Service) (d : string) : Prop :=
  d ∈ deps_list s ∧ ¬ resolved_name services d.

(** Decision procedures for the invariant on a concrete table. *)
Definition names_unique_b (services : list Service) : bool :=
  bool_decide (Forall (λ s, Forall (λ t, name s = name t → s = t) services) services).

Definition deps_declared_b (services : list Service) : bool :=
  bool_decide (Forall (λ s, Forall (λ d, Exists (λ t, name t = d) services) (deps_list s))
                 services).

(** No cycle, checked against a rank that every dependency must lower. *)
Definition ranked_b (rank : Service → nat) (services : list Service) : bool :=
  bool_decide (Forall (λ s, Forall (λ t, name t ∈ deps_list s → (rank t < rank s)%nat)
                              services) services).

(** A failure report that pairs each stuck name with unmet dependency
    names only. *)
Definition reports_only_unmet (services : list Service) (blocked : gset Service) : Prop :=
  ∀ n ds d, (n, Some ds) ∈ unsatisfied_report blocked → d ∈ ds →
            ¬ resolved_name services d.

(** ** Reading a sweep of polls

    A sweep pairs each process with what its poll answered. *)
Definition alive_of (prs : list (Popen * option Z)) : list Popen :=
  omap (λ pr, match pr.2 with None => Some pr.1 | Some _ => None end) prs.

Definition dead_of (prs : list (Popen * option Z)) : list (Popen * Z) :=
  omap (λ pr, match pr.2 with Some c => Some (pr.1, c) | None => None end) prs.

Definition poll_events (prs : list (Popen * option Z)) : list event :=
  (λ pr, EvPoll pr.1 pr.2) <$> prs.

(** ** Reading a shutdown

    What happened to one process while it was being stopped: the answer
    of its poll and, when it was found alive, of the signal and of the
    wait. *)
Record handling := mkHandling {
  h_poll : option Z;
  h_signal : result unit;
  h_wait : result Z;
}.

(** The calls made for [p], as [h] tells them: an exited process is
    polled and left alone; a live one is signalled and, unless the
    signal raised, waited for. *)
Definition events_of (p : Popen) (h : handling) : list event :=
  match h_poll h with
  | Some c => [EvPoll p (Some c)]
  | None =>
      EvPoll p None :: EvSendSignal p SIGTERM (h_signal h) ::
      match h_signal h with
      | Ret _ => [EvWait p (h_wait h)]
      | Raise _ => []
      end
  end.

(** The exception the handling ended with, if any. *)
Definition handling_exn (h : handling) : option exn :=
  match h_poll h with
  | Some _ => None
  | None =>
      match h_signal h with
      | Raise e => Some e
      | Ret _ => match h_wait h with
                 | Raise e => Some e
                 | Ret _ => None
                 end
      end
  end.

Definition fleet_events (ps : list Popen) (hs : list handling) : list event :=
  concat (zip_with events_of ps hs).

(** ** Reading a readiness wait

    The calls that belong to [waitport] itself; an abort predicate adds
    calls of its own in between (the polls of [check]). *)
Definition gate_event (ev : event) : bool :=
  match ev with
  | EvSleep _ | EvPerTickCheck _ | EvConnect _ _ | EvClose _ => true
  | _ => false
  end.

Definition gate_trace (evs : list event) : list event := List.filter gate_event evs.

(** How a wait ends, in the design document's words. *)
Inductive gate_outcome :=
| Ready                        (* return True *)
| AbortedWait                  (* return False *)
| ReadinessTimeout             (* raise(Exception("timed out waiting ...")) *)
| ConnectError (e : exn).      (* raise *)

Definition tick_events {X} (perTickCheck : option X) (ok : bool) : list event :=
  match perTickCheck with
  | None => []
  | Some _ => [EvPerTickCheck ok]
  end.

(** An attempt whose connect was refused. *)
Definition refused_attempt {X} (port : Z) (perTickCheck : option X) : list event :=
  EvSleep 100 :: tick_events perTickCheck true
    ++ [EvConnect port (Raise (OSError ECONNREFUSED))].

(** The attempt that ends the wait; a timeout has none. *)
Definition last_attempt {X} (port : Z) (perTickCheck : option X) (o : gate_outcome) :
    list event :=
  match o with
  | Ready => EvSleep 100 :: tick_events perTickCheck true
               ++ [EvConnect port (Ret tt); EvClose port]
  | AbortedWait => [EvSleep 100; EvPerTickCheck false]
  | ReadinessTimeout => []
  | ConnectError e => EvSleep 100 :: tick_events perTickCheck true
                        ++ [EvConnect port (Raise e)]
  end.

Definition outcome_result (port : Z) (prog : string) (o : gate_outcome) : result bool :=
  match o with
  | Ready => Ret true
  | AbortedWait => Ret false
  | ReadinessTimeout =>
      Raise (Exception ("timed out waiting for debug port " +:+ pretty port
                          +:+ " (" +:+ prog +:+ ")"))
  | ConnectError e => Raise e
  end.

(** ** Reading a failed start

    What the step of [service] that failed with [r] did: [evs] are the
    calls it made, [before] and [after] the running list when it began
    and when it ended, [env] the environment of the spawn.  A spawn that
    raised is the only call and the list is as before; when the gate
    raised, the new process is appended and nothing is dropped; when the
    gate ended on [False], the step ends with a sweep of polls over the
    old entries and the new one, which found some entry dead, and the
    list is what that sweep found alive. *)
Definition remains_after_failure (before : list Popen) (service : Service)
    (env : gmap string string) (r : result bool) (evs : list event)
    (after : list Popen) : Prop :=
  match r with
  | Raise e =>
      (evs = [EvPopen (cmd service) env (Raise e)] ∧ after = before)
      ∨ ∃ child tr,
          evs = EvPopen (cmd service) env (Ret child) :: tr
          ∧ after = (before ++ [mkPopen child (cmd service) (cmd service)])%list
  | Ret _ =>
      ∃ child tr0 rs,
        let started := (before ++ [mkPopen child (cmd service) (cmd service)])%list in
        length rs = length started
        ∧ evs = EvPopen (cmd service) env (Ret child)
                  :: (tr0 ++ poll_events (zip started rs) ++ [EvPerTickCheck false])%list
        ∧ dead_of (zip started rs) ≠ []
        ∧ after = alive_of (zip started rs)
  end.

(** ** Reading a trace *)

(** The processes spawned, those a poll found dead with the code it
    returned, and those signalled, each in the order of the calls. *)
Definition spawned (tr : list event) : list Popen :=
  omap (λ ev, match ev with
              | EvPopen argv _ (Ret child) => Some (mkPopen child argv argv)
              | _ => None
              end) tr.

Definition found_dead (tr : list event) : list (Popen * Z) :=
  omap (λ ev, match ev with
              | EvPoll p (Some c) => Some (p, c)
              | _ => None
              end) tr.

Definition signalled (tr : list event) : list Popen :=
  omap (λ ev, match ev with
              | EvSendSignal p _ _ => Some p
              | _ => None
              end) tr.

(** ** A scripted operating system, to run the orchestrator on examples *)

Record Scenario := mkScenario {
  sc_env : gmap string string;
  sc_exit_at : Z → option (nat * Z);      (* pid ↦ (tick at which it exits, exit code) *)
  sc_port_open_at : Z → option nat;       (* port ↦ tick from which it accepts *)
  sc_port_errno : Z → option Z;           (* port ↦ errno of every connect *)
  sc_signal_exn : Z → option exn;         (* pid ↦ what send_signal raises *)
  sc_health_ok : list string → bool;      (* health-checker argv ↦ exit code 0 *)
  sc_spawn_exn : list string → option exn (* argv ↦ what Popen raises *)
}.

Record TestWorld := mkTestWorld {
  tw_ticks : nat;                          (* sleeps so far *)
  tw_next_pid : Z;
  tw_terminated : list Z                   (* pids that received a signal *)
}.

Definition test_poll (sc : Scenario) (p : Popen) (w : TestWorld) : option Z :=
  if bool_decide (pid p ∈ tw_terminated w) then Some (- SIGTERM)
  else match sc_exit_at sc (pid p) with
       | Some (t, code) => if (t <=? tw_ticks w)%nat then Some code else None
       | None => None
       end.

Definition test_os (sc : Scenario) : OS TestWorld := {|
  os_environ _ := sc_env sc;
  os_popen argv _ w :=
    match sc_spawn_exn sc argv with
    | Some e => (Raise e, w)
    | None => (Ret (tw_next_pid w),
               mkTestWorld (tw_ticks w) (tw_next_pid w + 1) (tw_terminated w))
    end;
  os_poll p w := (test_poll sc p w, w);
  os_send_signal p _ w :=
    match sc_signal_exn sc (pid p) with
    | Some e => (Raise e, w)
    | None => (Ret tt, mkTestWorld (tw_ticks w) (tw_next_pid w) (pid p :: tw_terminated w))
    end;
  os_wait p w := (Ret (default 0 (test_poll sc p w)), w);
  os_sleep w := mkTestWorld (S (tw_ticks w)) (tw_next_pid w) (tw_terminated w);
  os_connect port w :=
    match sc_port_errno sc port with
    | Some errno => (Raise (OSError errno), w)
    | None =>
        match sc_port_open_at sc port with
        | Some t => if (t <=? tw_ticks w)%nat then (Ret tt, w)
                    else (Raise (OSError ECONNREFUSED), w)
        | None => (Raise (OSError ECONNREFUSED), w)
        end
    end;
  os_check_call argv w :=
    if sc_health_ok sc argv then (Ret tt, w) else (Raise (CalledProcessError 1), w)
|}.

(** Everything comes up at once and nothing fails. *)
Definition calm : Scenario := {|
  sc_env := {[ "FAKE_DNS" := "10.77.77.77" ]};
  sc_exit_at _ := None;
  sc_port_open_at _ := Some O;
  sc_port_errno _ := None;
  sc_signal_exn _ := None;
  sc_health_ok _ := true;
  sc_spawn_exn _ := None
|}.

(** The operator's shell already exports a simulated clock. *)
Definition stale_clock : Scenario := {|
  sc_env := {[ "FAKE_DNS" := "10.77.77.77"; "FAKECLOCK" := "Mon Jan 01 00:00:00 UTC 2001" ]};
  sc_exit_at _ := None;
  sc_port_open_at _ := Some O;
  sc_port_errno _ := None;
  sc_signal_exn _ := None;
  sc_health_ok _ := true;
  sc_spawn_exn _ := None
|}.

(** The process with pid 101 has exited with code 1. *)
Definition one_crashed : Scenario := {|
  sc_env := {[ "FAKE_DNS" := "10.77.77.77" ]};
  sc_exit_at child := if (child =? 101)%Z then Some (O, 1%Z) else None;
  sc_port_open_at _ := Some O;
  sc_port_errno _ := None;
  sc_signal_exn _ := None;
  sc_health_ok _ := true;
  sc_spawn_exn _ := None
|}.

(** The process with pid 101 cannot be signalled ([EPERM]). *)
Definition stubborn : Scenario := {|
  sc_env := {[ "FAKE_DNS" := "10.77.77.77" ]};
  sc_exit_at _ := None;
  sc_port_open_at _ := Some O;
  sc_port_errno _ := None;
  sc_signal_exn child := if (child =? 101)%Z then Some (OSError 1) else None;
  sc_health_ok _ := true;
  sc_spawn_exn _ := None
|}.

(** Port 8001 starts accepting at the third tick. *)
Definition slow_port : Scenario := {|
  sc_env := {[ "FAKE_DNS" := "10.77.77.77" ]};
  sc_exit_at _ := None;
  sc_port_open_at p := if (p =? 8001)%Z then Some 3%nat else Some O;
  sc_port_errno _ := None;
  sc_signal_exn _ := None;
  sc_health_ok _ := true;
  sc_spawn_exn _ := None
|}.

(** Port 8002 never opens. *)
Definition closed_port : Scenario := {|
  sc_env := {[ "FAKE_DNS" := "10.77.77.77" ]};
  sc_exit_at _ := None;
  sc_port_open_at p := if (p =? 8002)%Z then None else Some O;
  sc_port_errno _ := None;
  sc_signal_exn _ := None;
  sc_health_ok _ := true;
  sc_spawn_exn _ := None
|}.

(** The process with pid 101 exits with code 1 at the third tick. *)
Definition dies_later : Scenario := {|
  sc_env := {[ "FAKE_DNS" := "10.77.77.77" ]};
  sc_exit_at child := if (child =? 101)%Z then Some (3%nat, 1%Z) else None;
  sc_port_open_at _ := Some O;
  sc_port_errno _ := None;
  sc_signal_exn _ := None;
  sc_health_ok _ := true;
  sc_spawn_exn _ := None
|}.

Definition proc (child : Z) (argv : list string) : Popen := mkPopen child argv argv.

Definition boot : TestWorld := mkTestWorld 0 100 [].

Definition idle (w : TestWorld) : Sys TestWorld := mkSys w [] None [] [].

(** Two services and the sidecar, up. *)
Definition running_fleet : Sys TestWorld :=
  mkSys boot [proc 101 ["./bin/a"]; proc 102 ["./bin/b"]]
    (Some (proc 100 ["pebble-challtestsrv"])) [] [].

(** The state a run of [start] ended in. *)
Definition final_state (run : option (result bool * Sys TestWorld)) : Sys TestWorld :=
  match run with
  | Some (_, σ) => σ
  | None => idle boot
  end.

(** [set.pop()] taking the first element of the set's enumeration. *)
Definition pop_first (X : gset Service) : Service :=
  default (mkService EmptyString 0 None [] None) (head (elements X)).

Definition svcA : Service := mkService "A" 8001 None ["./bin/a"] None.
Definition svcB : Service := mkService "B" 8002 None ["./bin/b"] (Some ["A"]).
Definition svcC : Service := mkService "C" 8003 (Some "c.service:9000") ["./bin/c"] (Some ["A"; "B"]).

(** Small tables: a chain, one with a misspelt dependency, and the
    two-service cycle. *)
Definition svcD : Service := mkService "D" 8004 None ["./bin/d"] (Some ["A"; "ghost"]).
Definition cycA : Service := mkService "A" 8001 None ["./bin/a"] (Some ["B"]).
Definition cycB : Service := mkService "B" 8002 None ["./bin/b"] (Some ["A"]).

Definition chain_table : list Service := [svcC; svcB; svcA].
Definition ghost_table : list Service := [svcA; svcD].
Definition cycle_table : list Service := [cycA; cycB].

(** The position of a service's name in a sequence of names, used as
    a rank. *)
Definition rank_in (names : list string) (s : Service) : nat :=
  default 0%nat (fst <$> list_find (λ n, n = name s) names).

(** The table as run from [test/config], and its names in an order
    that puts dependencies first. *)
Definition boulder_table : list Service := SERVICES "test/config".

Definition boulder_order : list string :=
  ["ct-test-srv"; "akamai-test-srv"; "akamai-purger"; "mail-test-srv";
   "s3-test-srv"; "crl-storer"; "boulder-remoteva-a"; "boulder-remoteva-b";
   "boulder-va-1"; "boulder-va-2"; "log-validator"; "nonce-service-taro";
   "nonce-service-zinc"; "boulder-publisher-2"; "boulder-publisher-1";
   "boulder-sa-2"; "boulder-sa-1"; "boulder-ca-b"; "boulder-ca-a";
   "crl-updater"; "ocsp-updater"; "boulder-ra-2"; "boulder-ra-1";
   "ocsp-responder"; "bad-key-revoker"; "boulder-wfe2"].

(** The names carried by a sequence of services. *)
Definition names_of (l : list Service) : gset string := list_to_set (name <$> l).

(** ** helpers.py: [random_domain] *)

(** ["%x" % n] for a non-negative [n]: lower-case hexadecimal digits,
    no prefix, no leading zero. *)
Definition format_x (n : N) : string :=
  match n with
  | N0 => "0"
  | Npos p => HexString.Raw.of_pos p EmptyString
  end.

(** ["rand.%x.xyz" % random.randrange(2**32)], [r] being the draw. *)
Definition random_domain (r : N) : string := "rand." +:+ format_x r +:+ ".xyz".

Definition lower_hex (c : Ascii.ascii) : bool :=
  existsb (Ascii.eqb c) (String.list_ascii_of_string "0123456789abcdef").

(** ** integration-test.py: [check_balance] *)

(** The web as [check_balance] sees it: [requests.get(url)] answers
    with a page, of which only [.text] is read, or raises. *)
Class Web (World : Type) := {
  requests_get : string → World → result string * World;
}.

(** [needle in haystack], on strings. *)
Fixpoint contains (needle haystack : string) : bool :=
  String.prefix needle haystack
  || match haystack with
     | EmptyString => false
     | String _ rest => contains needle rest
     end.

Definition metrics_url (address : string) : string :=
  "http://" +:+ address +:+ "/metrics".

Definition balance_addresses : list string :=
  ["sa1.service.consul:8003";
   "sa2.service.consul:8103";
   "publisher1.service.consul:8009";
   "publisher2.service.consul:8109";
   "va1.service.consul:8004";
   "va2.service.consul:8104";
   "ca1.service.consul:8001";
   "ca2.service.consul:8104";
   "ra1.service.consul:8002";
   "ra2.service.consul:8102"].

(** The world together with the requests made so far, each with its
    answer. *)
Definition Browsing (World : Type) : Type := (World * list (string * result string))%type.

Definition get `{web : Web World} (url : string) (st : Browsing World) :
    result string * Browsing World :=
  let '(r, w) := requests_get url (fst st) in
  (r, (w, (snd st ++ [(url, r)])%list)).

(** The [for address in addresses] loop.  Its [raise] applies [%] to
    the [Exception] object, not to the message: that expression raises
    [TypeError] before any [Exception] is raised. *)
Fixpoint check_balance_loop `{web : Web World} (addresses : list string)
    (st : Browsing World) : result unit * Browsing World :=
  match addresses with
  | [] => (Ret tt, st)
  | address :: rest =>
      match get (metrics_url address) st with
      | (Raise e, st') => (Raise e, st')
      | (Ret text, st') =>
          if negb (contains "grpc_server_handled_total" text)
          then (Raise TypeError, st')
          else check_balance_loop rest st'
      end
  end.

Definition check_balance `{web : Web World} (st : Browsing World) :
    result unit * Browsing World :=
  check_balance_loop balance_addresses st.

(** A page that shows gRPC traffic. *)
Definition balanced (r : result string) : Prop :=
  ∃ text, r = Ret text ∧ contains "grpc_server_handled_total" text = true.

(** A scripted web: every backend but [silent] reports traffic. *)
Definition one_silent (silent : string) : Web unit := {|
  requests_get url w :=
    (Ret (if String.eqb url (metrics_url silent) then "go_goroutines 12"
          else "grpc_server_handled_total{grpc_code=OK} 7"), w)
|}.

(** ** Keeping account of the children

    A process is [reaped] in a trace when a poll found it exited, or a
    [SIGTERM] to it went through and the wait for it returned. *)
Definition reaped (tr : list event) (p : Popen) : Prop :=
  (∃ c, EvPoll p (Some c) ∈ tr)
  ∨ (EvSendSignal p SIGTERM (Ret tt) ∈ tr ∧ ∃ c, EvWait p (Ret c) ∈ tr).

(** The supervisor holds on to [p]: it is in the running list or in
    the sidecar slot. *)
Definition tracked {World} (σ : Sys World) (p : Popen) : Prop :=
  p ∈ processes σ ∨ challSrvProcess σ = Some p.

(** Every process spawned so far is still held or was reaped. *)
Definition accounted {World} (σ : Sys World) : Prop :=
  ∀ p, p ∈ spawned (trace σ) → tracked σ p ∨ reaped (trace σ) p.

(** A step from [σ] to [σ'] that loses no child: the trace grows by
    [evs]; what was held is still held or was reaped on the way, and so
    is what was spawned on the way. *)
Definition keeps_account {World} (σ σ' : Sys World) : Prop :=
  ∃ evs, trace σ' = (trace σ ++ evs)%list
         ∧ (∀ p, tracked σ p → tracked σ' p ∨ reaped evs p)
         ∧ (∀ p, p ∈ spawned evs → tracked σ' p ∨ reaped evs p).

Definition keeps `{os : OS World} {A} (m : @M World A) : Prop :=
  ∀ σ, keeps_account σ (m σ).2.

(** ** The calls a piece of code makes *)

(** [m] adds to the trace only events that satisfy [P]. *)
Definition appends `{os : OS World} {A} (P : event → Prop) (m : @M World A) : Prop :=
  ∀ σ, ∃ evs, trace (m σ).2 = (trace σ ++ evs)%list ∧ Forall P evs.

(** Neither a signal nor a wait for a process to end. *)
Definition no_signal (ev : event) : Prop :=
  match ev with
  | EvSendSignal _ _ _ | EvWait _ _ => False
  | _ => True
  end.

(** ** Reading the output of a wait *)

(** A connect that was refused. *)
Definition refused (ev : event) : bool :=
  match ev with
  | EvConnect _ (Raise (OSError errno)) => Z.eqb errno ECONNREFUSED
  | _ => false
  end.

Definition refusals (evs : list event) : nat := length (List.filter refused evs).

(** What [check] prints of the processes it found dead. *)
Definition exit_report (dead : list (Popen * Z)) : list log_line :=
  match dead with
  | [] => []
  | _ :: _ => LogExitedHeader :: (exited_line <$> dead)
  end.

(** ** Reading the output of [start] *)

(** [m] adds to the output only lines that satisfy [P]. *)
Definition prints `{os : OS World} {A} (P : log_line → Prop) (m : @M World A) : Prop :=
  ∀ σ, ∃ ls, stdout (m σ).2 = (stdout σ ++ ls)%list ∧ Forall P ls.

(** The lines [start] itself prints, as against those of [waitport],
    of [check] and of the scheduler. *)
Definition start_line (l : log_line) : bool :=
  match l with
  | LogStarting _ | LogErrorStarting _ _ | LogAllRunning => true
  | _ => false
  end.

Definition start_lines (ls : list log_line) : list log_line := List.filter start_line ls.

Definition other_line (l : log_line) : Prop := start_line l = false.

(** ** More scripted runs *)

(** A table with two stuck services: [D] waits for [E] and for a
    name nobody carries, [E] waits for [D]. *)
Definition cycD : Service := mkService "D" 8004 None ["./bin/d"] (Some ["E"; "ghost"]).
Definition cycE : Service := mkService "E" 8005 None ["./bin/e"] (Some ["D"]).
Definition cycle_pair_table : list Service := [svcA; cycD; cycE].

(** An interpreter that walks a set in the reverse of [elements]. *)
Definition walk_backwards (X : gset Service) : list Service := reverse (elements X).

(** * Properties *)

Open Scope nat_scope.
Open Scope list_scope.

(** ** The scheduler *)

Lemma all_deps_done_true (D : gset string) (s : Service) :
  all_deps_done D s = true ↔ ∀ d, d ∈ deps_list s → d ∈ D.
Proof.
  unfold all_deps_done. rewrite forallb_forall. split.
  - intros H d Hd. apply list_elem_of_In in Hd.
    specialize (H d Hd). by apply bool_decide_eq_true in H.
  - intros H d Hd. apply bool_decide_eq_true, H. by apply list_elem_of_In.
Qed.

Lemma all_deps_done_false (D : gset string) (s : Service) :
  all_deps_done D s = false → ∃ d, d ∈ deps_list s ∧ d ∉ D.
Proof.
  unfold all_deps_done. induction (deps_list s) as [|d ds IH]; simpl; [done|].
  intros H. apply andb_false_iff in H as [H|H].
  - apply bool_decide_eq_false in H. exists d. split; [left | done].
  - destruct (IH H) as (d' & Hd' & Hn). exists d'. split; [by right | done].
Qed.

Lemma all_deps_done_mono (D D' : gset string) (s : Service) :
  D ⊆ D' → all_deps_done D s = true → all_deps_done D' s = true.
Proof. rewrite !all_deps_done_true. set_solver. Qed.

Lemma names_of_cons (s : Service) (l : list Service) :
  names_of (s :: l) = {[name s]} ∪ names_of l.
Proof. reflexivity. Qed.

Lemma elem_of_names_of (d : string) (l : list Service) :
  d ∈ names_of l ↔ ∃ s, s ∈ l ∧ name s = d.
Proof.
  unfold names_of. rewrite elem_of_list_to_set, list_elem_of_fmap. naive_solver.
Qed.

(** In a finite non-empty set where every element has a successor in
    the set, a transitive relation relates some element to itself. *)
Lemma finite_successor_cycle `{Countable A} (Q : relation A) `{!Transitive Q}
    (X : gset A) :
  X ≠ ∅ → (∀ x, x ∈ X → ∃ y, y ∈ X ∧ Q x y) → ∃ x, Q x x.
Proof.
  induction X as [|x X Hx IH] using set_ind_L; [done|].
  intros _ Hsucc.
  destruct (Hsucc x) as (y & Hy & Hxy); [set_solver|].
  destruct (decide (y = x)) as [->|Hne]; [eauto|].
  assert (HyX : y ∈ X) by set_solver.
  apply IH; [set_solver|].
  intros z Hz. destruct (Hsucc z) as (w & Hw & Hzw); [set_solver|].
  destruct (decide (w = x)) as [->|Hwx].
  - exists y. split; [done | by etrans].
  - exists w. split; [set_solver | done].
Qed.

Lemma size_list_to_set_le (l : list Service) :
  size (list_to_set l : gset Service) ≤ length l.
Proof.
  induction l as [|x l IH]; simpl.
  - change (size (∅ : gset Service) ≤ 0). by rewrite size_empty.
  - rewrite size_union_alt, size_singleton.
    assert (size (list_to_set l ∖ {[x]} : gset Service) ≤ size (list_to_set l : gset Service))
      by (apply subseteq_size; set_solver).
    lia.
Qed.

Lemma deps_truthy_false (s : Service) : deps_truthy s = false ↔ deps_list s = [].
Proof. unfold deps_truthy, deps_list. destruct (deps s) as [[|??]|]; naive_solver. Qed.

Lemma yielded_before_trans (out : list Service) (a b c : Service) :
  NoDup out → yielded_before out a b → yielded_before out b c → yielded_before out a c.
Proof.
  intros Hnd (i & j & Hi & Hj & Hij) (j' & k & Hj' & Hk & Hjk).
  assert (j = j') as <- by (eapply NoDup_lookup; eauto).
  exists i, k. split_and!; [done | done | lia].
Qed.

Lemma depends_on_in (services : list Service) (s t : Service) :
  tc (depends_on services) s t → s ∈ services ∧ t ∈ services.
Proof.
  induction 1 as [s t (? & ? & ?)|s u t (? & ? & ?) _ [_ ?]]; auto.
Qed.

(** A descriptor naming an undeclared dependency cannot be resolved. *)
Lemma undeclared_unresolvable (services : list Service) (s : Service) (d : string) :
  d ∈ deps_list s → (∀ t, t ∈ services → name t ≠ d) → ¬ resolvable services s.
Proof.
  intros Hd Hnone [_ Hres]. specialize (Hres d Hd).
  inversion Hres as [t Ht _ Hname]. by apply (Hnone t).
Qed.

(** Nor can a descriptor on a dependency cycle, names being unique. *)
Lemma resolved_not_on_cycle (services : list Service) (d : string) :
  names_unique services →
  resolved_name services d →
  ∀ s, s ∈ services → name s = d → ¬ tc (depends_on services) s s.
Proof.
  intros Huniq. induction 1 as [s0 Hs0 _ IH]. intros s Hs Hname Hcyc.
  assert (s = s0) as -> by (by apply Huniq).
  assert (∃ t, depends_on services s0 t ∧ rtc (depends_on services) t s0)
    as (t & Hstep & Hback).
  { inversion Hcyc as [? ? Hst|? t ? Hst Hrest]; subst.
    - exists s0. split; [done | apply rtc_refl].
    - exists t. split; [done | by apply tc_rtc]. }
  destruct Hstep as (? & Ht & Hdep).
  apply (IH (name t) Hdep t Ht eq_refl).
  eapply tc_rtc_l; [exact Hback|]. by apply tc_once.
Qed.

Lemma cycle_unresolvable (services : list Service) (s : Service) :
  names_unique services → tc (depends_on services) s s → ¬ resolvable services s.
Proof.
  intros Huniq Hcyc [Hs Hres].
  apply (resolved_not_on_cycle services (name s) Huniq) with (s := s); try done.
Qed.

(** A rank that every dependency lowers rules out cycles. *)
Lemma acyclic_by_rank (services : list Service) (rank : Service → nat) :
  (∀ s t, depends_on services s t → rank t < rank s) → acyclic services.
Proof.
  intros Hrank s Hcyc.
  assert (Hlt : ∀ a b, tc (depends_on services) a b → rank b < rank a).
  { induction 1 as [a b Hab|a b c Hab _ IH]; [by apply Hrank|].
    apply Hrank in Hab. lia. }
  apply Hlt in Hcyc. lia.
Qed.

Lemma pop_first_elem (X : gset Service) : X ≠ ∅ → pop_first X ∈ X.
Proof.
  intros Hne. unfold pop_first.
  destruct (elements X) as [|x l] eqn:Hel.
  - by apply elements_empty_inv, leibniz_equiv in Hel.
  - simpl. apply elem_of_elements. rewrite Hel. left.
Qed.

Lemma names_unique_b_sound (services : list Service) :
  names_unique_b services = true → names_unique services.
Proof.
  intros H%bool_decide_eq_true s t Hs Ht.
  rewrite Forall_forall in H. specialize (H s Hs).
  rewrite Forall_forall in H. by apply H.
Qed.

Lemma deps_declared_b_sound (services : list Service) :
  deps_declared_b services = true → deps_declared services.
Proof.
  intros H%bool_decide_eq_true s d Hs Hd.
  rewrite Forall_forall in H. specialize (H s Hs).
  rewrite Forall_forall in H. specialize (H d Hd).
  apply Exists_exists in H. done.
Qed.

Lemma ranked_b_sound (rank : Service → nat) (services : list Service) :
  ranked_b rank services = true → acyclic services.
Proof.
  intros H%bool_decide_eq_true. apply (acyclic_by_rank services rank).
  intros s t (Hs & Ht & Hdep).
  rewrite Forall_forall in H. specialize (H s Hs).
  rewrite Forall_forall in H. by apply H.
Qed.

Section SchedulerFacts.
Variable pop : gset Service → Service.
Hypothesis pop_elem : ∀ X : gset Service, X ≠ ∅ → pop X ∈ X.

(** The loop ends before its fuel does. *)
Lemma toposort_loop_total (fuel : nat) (R B : gset Service) (D : gset string) :
  R ## B → size (R ∪ B) ≤ fuel → is_Some (toposort_loop pop fuel R B D).
Proof.
  revert R B D. induction fuel as [|fuel IH]; intros R B D Hdisj Hsz; simpl.
  - destruct (decide (R = ∅)) as [->|Hne]; [eauto|].
    exfalso. apply Hne.
    assert (size R ≤ size (R ∪ B)) by (apply subseteq_size; set_solver).
    apply leibniz_equiv, size_empty_iff. lia.
  - destruct (decide (R = ∅)) as [->|Hne]; [eauto|].
    pose proof (pop_elem R Hne) as Hin.
    set (x := pop R) in *.
    set (D1 := D ∪ {[name x]}).
    set (new := filter (λ s, all_deps_done D1 s = true) B).
    destruct (IH (R ∖ {[x]} ∪ new) (B ∖ new) D1) as [[out e] Heq].
    + set_solver.
    + assert (Hsub : R ∖ {[x]} ∪ new ∪ B ∖ new ⊆ (R ∪ B) ∖ {[x]}).
      { intros y. rewrite !elem_of_union, !elem_of_difference, elem_of_union.
        unfold new. rewrite elem_of_filter. set_solver. }
      apply subseteq_size in Hsub.
      assert (size (R ∪ B) = 1 + size ((R ∪ B) ∖ {[x]})).
      { rewrite (union_difference_L {[x]} (R ∪ B)) at 1 by set_solver.
        rewrite size_union by set_solver. by rewrite size_singleton. }
      lia.
    + rewrite Heq. eauto.
Qed.

(** What one run of the loop establishes, from any state in which
    [ready] holds exactly services whose deps are done and [blocked]
    only services with a dep not yet done. *)
Lemma toposort_loop_spec (fuel : nat) (R B : gset Service) (D : gset string)
    (out : list Service) (e : toposort_end) :
  R ## B →
  (∀ s, s ∈ B → all_deps_done D s = false) →
  (∀ s, s ∈ R → all_deps_done D s = true) →
  toposort_loop pop fuel R B D = Some (out, e) →
  ∃ Bf : gset Service,
    e = (if decide (Bf = ∅) then Exhausted else Unsatisfied Bf)
    ∧ NoDup out ∧ Bf ⊆ B
    ∧ (∀ s, s ∈ out ↔ s ∈ R ∨ (s ∈ B ∧ s ∉ Bf))
    ∧ (∀ s, s ∈ Bf → all_deps_done (D ∪ names_of out) s = false)
    ∧ (∀ pre s post, out = pre ++ s :: post →
         all_deps_done (D ∪ names_of pre) s = true).
Proof.
  revert R B D out e.
  induction fuel as [|fuel IH]; intros R B D out e Hdisj HB HR Heq; simpl in Heq.
  - destruct (decide (R = ∅)) as [->|Hne]; [|done].
    injection Heq as <- <-. exists B. split_and!; try done.
    + constructor.
    + set_solver.
    + intros s Hs. replace (D ∪ names_of []) with D by set_solver. auto.
    + intros [|??] ???; done.
  - destruct (decide (R = ∅)) as [->|Hne].
    { injection Heq as <- <-. exists B. split_and!; try done.
      + constructor.
      + set_solver.
      + intros s Hs. replace (D ∪ names_of []) with D by set_solver. auto.
      + intros [|??] ???; done. }
    pose proof (pop_elem R Hne) as Hin.
    set (x := pop R) in *.
    set (D1 := D ∪ {[name x]}) in *.
    set (new := filter (λ s, all_deps_done D1 s = true) B) in *.
    destruct (toposort_loop pop fuel (R ∖ {[x]} ∪ new) (B ∖ new) D1)
      as [[out' e']|] eqn:Hrec; [|done].
    injection Heq as <- <-.
    assert (Hnew : ∀ s, s ∈ new ↔ all_deps_done D1 s = true ∧ s ∈ B).
    { intros s. unfold new. by rewrite elem_of_filter. }
    apply IH in Hrec as (Bf & He & Hnd & Hsub & Hmem & Hstuck & Hord).
    + exists Bf. split_and!.
      * done.
      * constructor; [|done]. rewrite Hmem. set_solver.
      * set_solver.
      * intros s. rewrite elem_of_cons, Hmem.
        destruct (decide (s = x)) as [->|Hsx]; [set_solver|].
        destruct (decide (s ∈ new)); set_solver.
      * intros s Hs. rewrite names_of_cons.
        replace (D ∪ ({[name x]} ∪ names_of out')) with (D1 ∪ names_of out')
          by (unfold D1; set_solver).
        auto.
      * intros [|y pre] s post Hout; simpl in Hout.
        -- injection Hout as Hx _. subst s.
           replace (D ∪ names_of []) with D by set_solver. auto.
        -- injection Hout as Hx Hout. subst y. rewrite names_of_cons.
           replace (D ∪ ({[name x]} ∪ names_of pre)) with (D1 ∪ names_of pre)
             by (unfold D1; set_solver).
           eauto.
    + set_solver.
    + intros s Hs. apply elem_of_difference in Hs as [Hs Hn].
      rewrite Hnew in Hn. destruct (all_deps_done D1 s); [|done]. tauto.
    + intros s Hs. apply elem_of_union in Hs as [Hs|Hs].
      * apply (all_deps_done_mono D); [unfold D1; set_solver|].
        apply HR. set_solver.
      * by apply Hnew.
Qed.

(** The generator always finishes; its run is a duplicate-free
    sequence [out] and a stuck set [Bf] that split the table, each
    yielded service having all its deps among the names yielded
    before it, each stuck one a dep that was never yielded. *)
Lemma toposort_run (services : list Service) :
  ∃ (out : list Service) (Bf : gset Service),
    _service_toposort pop services
      = Some (out, if decide (Bf = ∅) then Exhausted else Unsatisfied Bf)
    ∧ NoDup out
    ∧ (∀ s, s ∈ out ↔ s ∈ services ∧ s ∉ Bf)
    ∧ (∀ s, s ∈ Bf → s ∈ services)
    ∧ (∀ s, s ∈ Bf → ∃ d, d ∈ deps_list s ∧ d ∉ names_of out)
    ∧ (∀ pre s post, out = pre ++ s :: post →
         ∀ d, d ∈ deps_list s → d ∈ names_of pre).
Proof.
  unfold _service_toposort.
  set (R := toposort_init_ready services).
  set (B := list_to_set services ∖ R).
  assert (HRin : ∀ s, s ∈ R ↔ s ∈ services ∧ deps_truthy s = false).
  { intros s. unfold R, toposort_init_ready.
    rewrite elem_of_list_to_set, list_elem_of_filter. tauto. }
  assert (HBin : ∀ s, s ∈ B ↔ s ∈ services ∧ deps_truthy s = true).
  { intros s. unfold B. rewrite elem_of_difference, elem_of_list_to_set, HRin.
    destruct (deps_truthy s); intuition congruence. }
  assert (Hdisj : R ## B) by (unfold B; set_solver).
  destruct (toposort_loop_total (length services) R B ∅ Hdisj) as [[out e] Heq].
  { etrans; [|apply size_list_to_set_le]. apply subseteq_size.
    intros s. rewrite elem_of_union, HRin, HBin, elem_of_list_to_set. tauto. }
  rewrite Heq.
  apply toposort_loop_spec in Heq as (Bf & -> & Hnd & Hsub & Hmem & Hstuck & Hord);
    [|done| |].
  - exists out, Bf. split_and!; [done | done | | | |].
    + intros s. rewrite Hmem, HRin, HBin.
      split.
      * intros [[? ?]|[[? ?] ?]]; [|done]. split; [done|].
        intros HBf. apply Hsub, HBin in HBf. destruct HBf. congruence.
      * intros [? ?]. destruct (deps_truthy s); auto.
    + intros s Hs. apply Hsub, HBin in Hs. tauto.
    + intros s Hs. apply Hstuck, all_deps_done_false in Hs as (d & ? & ?).
      exists d. split; [done | set_solver].
    + intros pre s post Hout d Hd.
      pose proof (Hord _ _ _ Hout) as Hdone.
      rewrite all_deps_done_true in Hdone. specialize (Hdone d Hd). set_solver.
  - intros s Hs. apply HBin in Hs as [_ Hs].
    unfold all_deps_done, deps_truthy, deps_list in *.
    by destruct (deps s) as [[|??]|].
  - intros s Hs. apply HRin in Hs as [_ Hs]. apply deps_truthy_false in Hs.
    unfold all_deps_done. by rewrite Hs.
Qed.

(** Without stuck services the yield order respects direct dependencies. *)
Lemma toposort_direct_order (services out : list Service) :
  names_unique services →
  NoDup out →
  (∀ s, s ∈ out → s ∈ services) →
  (∀ pre s post, out = pre ++ s :: post → ∀ d, d ∈ deps_list s → d ∈ names_of pre) →
  ∀ s t, s ∈ out → depends_on services s t → yielded_before out t s.
Proof.
  intros Huniq Hnd Hin Hord s t Hs (_ & Ht & Hdep).
  apply list_elem_of_split in Hs as (pre & post & ->).
  specialize (Hord pre s post eq_refl _ Hdep).
  apply elem_of_names_of in Hord as (t' & Ht' & Hname).
  assert (t' = t) as ->.
  { apply Huniq; [|done|done]. apply Hin. set_solver. }
  apply list_elem_of_lookup in Ht' as [i Hi].
  exists i, (length pre). split_and!.
  - by apply lookup_app_l_Some.
  - by rewrite list_lookup_middle.
  - by apply lookup_lt_Some in Hi.
Qed.

(** Every name yielded is a resolved name. *)
Lemma yielded_prefix_resolved (services out : list Service) (Bf : gset Service) :
  (∀ s, s ∈ out ↔ s ∈ services ∧ s ∉ Bf) →
  (∀ pre s post, out = pre ++ s :: post → ∀ d, d ∈ deps_list s → d ∈ names_of pre) →
  ∀ pre post, out = pre ++ post → ∀ d, d ∈ names_of pre → resolved_name services d.
Proof.
  intros Hmem Hord pre.
  induction pre as [|s pre IH] using rev_ind; intros post Hout d Hd.
  - set_solver.
  - rewrite <- app_assoc in Hout. simpl in Hout.
    apply elem_of_names_of in Hd as (s' & Hs' & <-).
    apply elem_of_app in Hs' as [Hs'|Hs'].
    + apply (IH _ Hout). apply elem_of_names_of. eauto.
    + apply list_elem_of_singleton in Hs' as ->.
      constructor.
      * apply Hmem. rewrite Hout. set_solver.
      * intros d Hd. apply (IH _ Hout). by apply (Hord _ _ _ Hout).
Qed.

(** Every resolved name was yielded, when each stuck service still
    waits for a name that never was. *)
Lemma resolved_yielded (services out : list Service) (Bf : gset Service) :
  (∀ s, s ∈ out ↔ s ∈ services ∧ s ∉ Bf) →
  (∀ s, s ∈ Bf → ∃ d, d ∈ deps_list s ∧ d ∉ names_of out) →
  ∀ d, resolved_name services d → d ∈ names_of out.
Proof.
  intros Hmem Hstuck d. induction 1 as [s Hs _ IH].
  destruct (decide (s ∈ Bf)) as [HBf|HBf].
  - destruct (Hstuck s HBf) as (d & Hd & Hn). by apply IH in Hd.
  - apply elem_of_names_of. exists s. split; [|done]. by apply Hmem.
Qed.

(** The stuck set is the set of unresolvable descriptors. *)
Lemma stuck_iff_unresolvable (services out : list Service) (Bf : gset Service) :
  (∀ s, s ∈ out ↔ s ∈ services ∧ s ∉ Bf) →
  (∀ s, s ∈ Bf → s ∈ services) →
  (∀ s, s ∈ Bf → ∃ d, d ∈ deps_list s ∧ d ∉ names_of out) →
  (∀ pre s post, out = pre ++ s :: post → ∀ d, d ∈ deps_list s → d ∈ names_of pre) →
  ∀ s, s ∈ Bf ↔ s ∈ services ∧ ¬ resolvable services s.
Proof.
  intros Hmem HBfin Hstuck Hord s. split.
  - intros HBf. split; [by apply HBfin|].
    intros [_ Hres]. destruct (Hstuck s HBf) as (d & Hd & Hn).
    apply Hn. eapply resolved_yielded; eauto.
  - intros [Hs Hres]. destruct (decide (s ∈ Bf)) as [|HBf]; [done|].
    exfalso. apply Hres. split; [done|]. intros d Hd.
    assert (Hout : s ∈ out) by (by apply Hmem).
    apply list_elem_of_split in Hout as (pre & post & Hout).
    apply (yielded_prefix_resolved services out Bf Hmem Hord pre (s :: post) Hout).
    by apply (Hord _ _ _ Hout).
Qed.

(** A table that keeps the data model's invariant leaves nothing stuck. *)
Lemma well_formed_nothing_stuck (services out : list Service) (Bf : gset Service) :
  deps_declared services → acyclic services →
  (∀ s, s ∈ out ↔ s ∈ services ∧ s ∉ Bf) →
  (∀ s, s ∈ Bf → s ∈ services) →
  (∀ s, s ∈ Bf → ∃ d, d ∈ deps_list s ∧ d ∉ names_of out) →
  Bf = ∅.
Proof.
  intros Hdecl Hacyc Hmem HBfin Hstuck.
  destruct (decide (Bf = ∅)) as [|Hne]; [done|]. exfalso.
  destruct (finite_successor_cycle (tc (depends_on services)) Bf Hne) as [x Hx].
  - intros s Hs. destruct (Hstuck s Hs) as (d & Hd & Hn).
    destruct (Hdecl s d (HBfin s Hs) Hd) as (t & Ht & Hname).
    exists t. split.
    + destruct (decide (t ∈ Bf)) as [|HtB]; [done|]. exfalso. apply Hn.
      apply elem_of_names_of. exists t. split; [|done]. by apply Hmem.
    + apply tc_once. split_and!; [by apply HBfin | done | by rewrite Hname].
  - by apply (Hacyc x).
Qed.

(** C3. For every table that keeps the data model's invariant (names
    identify descriptors, every name in a [deps] is declared, no
    dependency cycle), [_service_toposort] finishes without raising,
    its output holds each descriptor of the table exactly once, and
    every descriptor comes after all the descriptors it depends on,
    directly or through others. *)
Theorem toposort_dependencies_first (services : list Service) :
  names_unique services → deps_declared services → acyclic services →
  ∃ out : list Service,
    _service_toposort pop services = Some (out, Exhausted)
    ∧ NoDup out
    ∧ (∀ s, s ∈ out ↔ s ∈ services)
    ∧ (∀ s t, tc (depends_on services) s t → yielded_before out t s).
Proof.
  intros Huniq Hdecl Hacyc.
  destruct (toposort_run services)
    as (out & Bf & Hrun & Hnd & Hmem & HBfin & Hstuck & Hord).
  assert (Bf = ∅) as -> by eauto using well_formed_nothing_stuck.
  exists out. split_and!; [done | done | set_solver |].
  assert (Hin : ∀ s, s ∈ out → s ∈ services) by set_solver.
  induction 1 as [s t Hst|s u t Hsu Htc IH].
  - eapply toposort_direct_order; eauto.
    apply Hmem. destruct Hst as (? & _). set_solver.
  - eapply yielded_before_trans; [done | exact IH |].
    eapply toposort_direct_order; eauto.
    apply Hmem. destruct Hsu as (? & _). set_solver.
Qed.

(** The scheduler on any table whatever: it raises exactly when some
    descriptor is unresolvable, the stuck set is the set of
    unresolvable descriptors, and the report lists each of them once
    with its whole [deps]. *)
Lemma toposort_stuck_set (services : list Service) :
  ∃ (out : list Service) (Bf : gset Service),
    _service_toposort pop services
      = Some (out, if decide (Bf = ∅) then Exhausted else Unsatisfied Bf)
    ∧ (∀ s, s ∈ Bf ↔ s ∈ services ∧ ¬ resolvable services s)
    ∧ (∀ s, s ∈ out ↔ s ∈ services ∧ resolvable services s)
    ∧ (∀ n ds, (n, ds) ∈ unsatisfied_report Bf ↔
         ∃ s, s ∈ services ∧ ¬ resolvable services s ∧ n = name s ∧ ds = deps s)
    ∧ (∀ s, s ∈ Bf → ∃ d, unmet_deps services s d).
Proof.
  destruct (toposort_run services)
    as (out & Bf & Hrun & Hnd & Hmem & HBfin & Hstuck & Hord).
  pose proof (stuck_iff_unresolvable services out Bf Hmem HBfin Hstuck Hord) as Hiff.
  exists out, Bf. split_and!; [done | done | | |].
  - intros s. rewrite Hmem, Hiff. split.
    + intros [Hs Hn]. split; [done|].
      destruct (decide (s ∈ Bf)) as [HB|HB].
      * apply Hiff in HB. tauto.
      * assert (Hs' : s ∈ out) by (by apply Hmem).
        apply list_elem_of_split in Hs' as (pre & post & Hout).
        split; [done|]. intros d Hd.
        apply (yielded_prefix_resolved services out Bf Hmem Hord pre (s :: post) Hout).
        by apply (Hord _ _ _ Hout).
    + tauto.
  - intros n ds. unfold unsatisfied_report.
    rewrite list_elem_of_fmap. split.
    + intros (s & Heq & Hs). injection Heq as -> ->.
      apply elem_of_elements, Hiff in Hs. naive_solver.
    + intros (s & Hs & Hres & -> & ->). exists s. split; [done|].
      apply elem_of_elements, Hiff. done.
  - intros s Hs. destruct (Hstuck s Hs) as (d & Hd & Hn).
    exists d. split; [done|]. intros Hr. apply Hn.
    eapply resolved_yielded; eauto.
Qed.

(** C4, as the code has it. For every table whose names identify
    descriptors and that holds a dependency cycle or a dependency name
    no descriptor carries, [_service_toposort] ends by raising; the
    stuck set is exactly the set of descriptors that repeated removal
    of descriptors with all dependencies resolved never reaches; the
    report pairs the name of each stuck descriptor with its whole
    [deps], among which at least one name is unmet. *)
Theorem toposort_unsatisfiable_report (services : list Service) :
  names_unique services →
  has_cycle services ∨ has_undeclared_dep services →
  ∃ (out : list Service) (Bf : gset Service),
    _service_toposort pop services = Some (out, Unsatisfied Bf)
    ∧ (∀ s, s ∈ Bf ↔ s ∈ services ∧ ¬ resolvable services s)
    ∧ (∀ n ds, (n, ds) ∈ unsatisfied_report Bf ↔
         ∃ s, s ∈ services ∧ ¬ resolvable services s ∧ n = name s ∧ ds = deps s)
    ∧ (∀ s, s ∈ Bf → ∃ d, unmet_deps services s d).
Proof.
  intros Huniq Hbad.
  destruct (toposort_stuck_set services)
    as (out & Bf & Hrun & Hiff & Hout & Hrep & Hunmet).
  assert (Hne : Bf ≠ ∅).
  { destruct Hbad as [[s Hcyc]|(s & d & Hs & Hd & Hnone)].
    - assert (s ∈ Bf); [|set_solver].
      apply Hiff. split; [by destruct (depends_on_in _ _ _ Hcyc)|].
      by apply cycle_unresolvable.
    - assert (s ∈ Bf); [|set_solver].
      apply Hiff. split; [done|]. by eapply undeclared_unresolvable. }
  rewrite decide_False in Hrun by done.
  by exists out, Bf.
Qed.
End SchedulerFacts.

(** The first two scenarios of the design document. *)
Example toposort_scenario_1 :
  _service_toposort pop_first [svcA; svcB] = Some ([svcA; svcB], Exhausted).
Proof. vm_compute. reflexivity. Qed.

Example toposort_scenario_2 :
  ∃ Bf, _service_toposort pop_first cycle_table = Some ([], Unsatisfied Bf)
        ∧ ∀ s, s ∈ Bf ↔ s = cycA ∨ s = cycB.
Proof.
  exists {[cycA; cycB]}. split; [vm_compute; reflexivity | set_solver].
Qed.

(** The table of the source keeps the invariant of the data model. *)
Lemma boulder_table_well_formed :
  names_unique boulder_table ∧ deps_declared boulder_table ∧ acyclic boulder_table.
Proof.
  split_and!.
  - apply names_unique_b_sound. vm_compute. reflexivity.
  - apply deps_declared_b_sound. vm_compute. reflexivity.
  - apply (ranked_b_sound (rank_in boulder_order)). vm_compute. reflexivity.
Qed.

Lemma toposort_dependencies_first_witness :
  ∃ out : list Service,
    _service_toposort pop_first boulder_table = Some (out, Exhausted)
    ∧ NoDup out
    ∧ (∀ s, s ∈ out ↔ s ∈ boulder_table)
    ∧ (∀ s t, tc (depends_on boulder_table) s t → yielded_before out t s).
Proof.
  apply (toposort_dependencies_first pop_first pop_first_elem boulder_table).
  - apply names_unique_b_sound. vm_compute. reflexivity.
  - apply deps_declared_b_sound. vm_compute. reflexivity.
  - apply (ranked_b_sound (rank_in boulder_order)). vm_compute. reflexivity.
Defined.

Lemma cycle_table_has_cycle : has_cycle cycle_table.
Proof.
  exists cycA. apply (tc_l _ cycA cycB cycA).
  - unfold depends_on, cycle_table. split_and!; set_solver.
  - apply tc_once. unfold depends_on, cycle_table. split_and!; set_solver.
Qed.

Lemma toposort_unsatisfiable_report_witness :
  ∃ (out : list Service) (Bf : gset Service),
    _service_toposort pop_first cycle_table = Some (out, Unsatisfied Bf)
    ∧ (∀ s, s ∈ Bf ↔ s ∈ cycle_table ∧ ¬ resolvable cycle_table s)
    ∧ (∀ n ds, (n, ds) ∈ unsatisfied_report Bf ↔
         ∃ s, s ∈ cycle_table ∧ ¬ resolvable cycle_table s ∧ n = name s ∧ ds = deps s)
    ∧ (∀ s, s ∈ Bf → ∃ d, unmet_deps cycle_table s d).
Proof.
  apply (toposort_unsatisfiable_report pop_first pop_first_elem cycle_table).
  - apply names_unique_b_sound. vm_compute. reflexivity.
  - left. exact cycle_table_has_cycle.
Defined.

(** C4 as worded fails: with ["A"] declared and ["ghost"] not, the
    report on ["D"] carries ["A"], a dependency that is met. *)
Lemma toposort_report_counterexample :
  ∃ (out : list Service) (Bf : gset Service),
    _service_toposort pop_first ghost_table = Some (out, Unsatisfied Bf)
    ∧ ¬ reports_only_unmet ghost_table Bf.
Proof.
  exists [svcA], {[svcD]}. split; [vm_compute; reflexivity|].
  intros H. apply (H "D" ["A"; "ghost"] "A").
  - unfold unsatisfied_report. rewrite elements_singleton. set_solver.
  - set_solver.
  - apply (resolved_by ghost_table svcA); [set_solver|]. intros d Hd. inversion Hd.
Qed.

(** ** The supervisor: [run] *)

Lemma setdefault_lookup (k v k' : string) (e : gmap string string) :
  setdefault k v e !! k' =
    match e !! k' with
    | Some x => Some x
    | None => if decide (k' = k) then Some v else None
    end.
Proof.
  unfold setdefault. destruct (e !! k) as [x|] eqn:Hk.
  - destruct (e !! k') eqn:Hk'; [done|]. case_decide; [congruence | done].
  - rewrite lookup_insert. destruct (decide (k = k')) as [->|Hne].
    + rewrite Hk, decide_True by done. done.
    + rewrite decide_False by done. by destruct (e !! k').
Qed.

Lemma child_env_spec (ambient : gmap string string) (fakeclock : option string)
    (k : string) :
  child_env ambient fakeclock !! k = child_env_lookup ambient fakeclock k.
Proof.
  unfold child_env, child_env_lookup.
  destruct fakeclock as [fc|]; simpl.
  - destruct (negb (String.eqb fc EmptyString)) eqn:Hfc.
    + rewrite !setdefault_lookup.
      destruct (ambient !! k); [done|].
      destruct (decide (k = "GORACE")) as [->|]; [done|].
      by destruct (decide (k = "FAKECLOCK")).
    + rewrite setdefault_lookup.
      destruct (ambient !! k); [done|].
      destruct (decide (k = "GORACE")); [done|]. by case_decide.
  - rewrite setdefault_lookup.
    destruct (ambient !! k); [done|].
    destruct (decide (k = "GORACE")); [done|]. by case_decide.
Qed.

(** C9, as the code has it. [run] hands [Popen] the ambient environment
    completed by defaults: a key the ambient environment sets keeps its
    ambient value; [GORACE] reads ["halt_on_error=1"] only when the
    ambient environment has none; [FAKECLOCK] reads the override only
    when one is supplied, it is not empty, and the ambient environment
    has none.  The process returned carries the argv as [args] and [cmd]. *)
Theorem run_child_environment `{OS World} (cmd : list string)
    (fakeclock : option string) (σ : Sys World) :
  ∃ (env : gmap string string) (r : result Z),
    trace (run cmd fakeclock σ).2 = trace σ ++ [EvPopen cmd env r]
    ∧ (∀ k, env !! k = child_env_lookup (os_environ (world σ)) fakeclock k)
    ∧ (run cmd fakeclock σ).1 =
        match r with
        | Ret child => Ret (mkPopen child cmd cmd)
        | Raise e => Raise e
        end.
Proof.
  unfold run, bind, environ, syscall_r, ret. simpl.
  destruct (os_popen cmd _ (world σ)) as [r w] eqn:Hp.
  exists (child_env (os_environ (world σ)) fakeclock), r.
  split_and!.
  - by destruct r.
  - intros k. apply child_env_spec.
  - by destruct r.
Qed.

(** C9 as worded fails: an ambient [FAKECLOCK] hides the override
    supplied to [run]. *)
Lemma run_clock_override_counterexample :
  ∃ (env : gmap string string) (p : Popen) (σ' : Sys TestWorld),
    run (os := test_os stale_clock) ["./bin/boulder"]
        (Some "Tue Feb 02 00:00:00 UTC 2021") (idle boot) = (Ret p, σ')
    ∧ trace σ' = [EvPopen ["./bin/boulder"] env (Ret 100%Z)]
    ∧ env !! "FAKECLOCK" ≠ Some "Tue Feb 02 00:00:00 UTC 2021".
Proof.
  eexists _, _, _. split_and!; [vm_compute; reflexivity | reflexivity |].
  vm_compute. discriminate.
Qed.

(** ** The fleet controller: [check] *)

Section ControllerFacts.
Context `{os : OS World}.

Lemma print_all_spec (ls : list log_line) (σ : Sys World) :
  print_all ls σ =
    (Ret tt, mkSys (world σ) (processes σ) (challSrvProcess σ) (stdout σ ++ ls) (trace σ)).
Proof.
  revert σ. induction ls as [|l ls IH]; intros σ; simpl.
  - unfold ret. rewrite app_nil_r. by destruct σ.
  - unfold bind, print. rewrite IH. simpl. by rewrite <- app_assoc.
Qed.

(** The sweep of [check]: every entry of the list is polled once, in
    order, and sorted by the answer; nothing else changes. *)
Lemma check_loop_spec (ps : list Popen) (busted : list (Popen * Z))
    (stillok : list Popen) (σ : Sys World) :
  ∃ (rs : list (option Z)) (σ' : Sys World),
    check_loop ps busted stillok σ
      = (Ret (busted ++ dead_of (zip ps rs), stillok ++ alive_of (zip ps rs)), σ')
    ∧ length rs = length ps
    ∧ processes σ' = processes σ
    ∧ challSrvProcess σ' = challSrvProcess σ
    ∧ stdout σ' = stdout σ
    ∧ trace σ' = trace σ ++ poll_events (zip ps rs).
Proof.
  revert busted stillok σ.
  induction ps as [|p ps IH]; intros busted stillok σ; simpl.
  - exists [], σ. unfold ret. simpl. rewrite !app_nil_r. done.
  - unfold bind, poll, syscall.
    destruct (os_poll p (world σ)) as [r w] eqn:Hpoll.
    destruct r as [code|].
    + destruct (IH (busted ++ [(p, code)]) stillok
                  (mkSys w (processes σ) (challSrvProcess σ) (stdout σ)
                     (trace σ ++ [EvPoll p (Some code)])))
        as (rs & σ' & Heq & Hlen & ? & ? & ? & Htr).
      exists (Some code :: rs), σ'. rewrite Heq. simpl in *.
      rewrite <- !app_assoc in *. split_and!; auto with lia.
    + destruct (IH busted (stillok ++ [p])
                  (mkSys w (processes σ) (challSrvProcess σ) (stdout σ)
                     (trace σ ++ [EvPoll p None])))
        as (rs & σ' & Heq & Hlen & ? & ? & ? & Htr).
      exists (None :: rs), σ'. rewrite Heq. simpl in *.
      rewrite <- !app_assoc in *. split_and!; auto with lia.
Qed.

Lemma alive_of_sublist (ps : list Popen) (rs : list (option Z)) :
  alive_of (zip ps rs) `sublist_of` ps.
Proof.
  revert rs. induction ps as [|p ps IH]; intros [|[c|] rs]; simpl;
    try apply sublist_nil_l.
  - apply sublist_cons, IH.
  - apply sublist_skip, IH.
Qed.

Lemma alive_of_all (ps : list Popen) (rs : list (option Z)) :
  length rs = length ps → dead_of (zip ps rs) = [] → alive_of (zip ps rs) = ps.
Proof.
  revert rs. induction ps as [|p ps IH]; intros [|[c|] rs] Hlen Hd; simpl in *;
    try done.
  f_equal. apply IH; [lia | done].
Qed.

(** [check], in full. *)
(** What a sweep says of each process it polled: found alive, or
    found dead by a poll of the sweep. *)
Lemma sweep_cases (ps : list Popen) (rs : list (option Z)) (p : Popen) :
  length rs = length ps → p ∈ ps →
  p ∈ alive_of (zip ps rs) ∨ ∃ c, EvPoll p (Some c) ∈ poll_events (zip ps rs).
Proof.
  revert rs. induction ps as [|q ps IH]; intros [|r rs] Hlen Hin; simplify_eq/=.
  - by apply elem_of_nil in Hin.
  - apply elem_of_cons in Hin as [->|Hin].
    + destruct r as [c|]; [right; exists c|left]; simpl; apply elem_of_cons; by left.
    + destruct (IH rs Hlen Hin) as [H|[c H]].
      * left. unfold alive_of in *. simpl. destruct r; simpl; [done|].
        apply elem_of_cons. by right.
      * right. exists c. apply elem_of_cons. by right.
Qed.

Lemma check_spec (σ : Sys World) :
  ∃ (rs : list (option Z)) (σ' : Sys World),
    let prs := zip (processes σ) rs in
    check σ = (Ret (match dead_of prs with [] => true | _ :: _ => false end), σ')
    ∧ length rs = length (processes σ)
    ∧ trace σ' = trace σ ++ poll_events prs
    ∧ processes σ' = alive_of prs
    ∧ stdout σ' = stdout σ ++
        match dead_of prs with
        | [] => []
        | _ :: _ => LogExitedHeader :: (exited_line <$> dead_of prs)
        end
    ∧ challSrvProcess σ' = challSrvProcess σ.
Proof.
  destruct (check_loop_spec (processes σ) [] [] σ)
    as (rs & σ1 & Heq & Hlen & Hps & Hc & Hout & Htr).
  unfold check, bind, get_processes. rewrite Heq. simpl.
  destruct (dead_of (zip (processes σ) rs)) as [|b bs] eqn:Hdead.
  - eexists rs, _. simpl. rewrite Hdead. split_and!; try done; simpl; try done.
    by rewrite app_nil_r.
  - eexists rs, _. simpl. rewrite Hdead.
    unfold bind, print. simpl. rewrite print_all_spec. simpl.
    split_and!; try done; simpl; try done.
    rewrite Hout, <- !app_assoc. done.
Qed.
End ControllerFacts.

(** C1, as the code has it. [check] polls every entry of [processes]
    once, in order, and nothing else (the sidecar is neither polled nor
    touched); it returns [True] exactly when no entry was found dead;
    [processes] becomes the entries found alive, in their order; when
    some entry was found dead the output gains a header and one line
    per dead entry with its command, pid and exit code. *)
Theorem check_reports_and_prunes `{os : OS World} (σ : Sys World) :
  ∃ (rs : list (option Z)) (b : bool) (σ' : Sys World),
    let prs := zip (processes σ) rs in
    check σ = (Ret b, σ')
    ∧ length rs = length (processes σ)
    ∧ trace σ' = trace σ ++ poll_events prs
    ∧ (b = true ↔ dead_of prs = [])
    ∧ processes σ' = alive_of prs
    ∧ processes σ' `sublist_of` processes σ
    ∧ stdout σ' = stdout σ ++
        match dead_of prs with
        | [] => []
        | _ :: _ =>
            LogExitedHeader :: ((λ d, LogExited (p_cmd d.1) (pid d.1) d.2) <$> dead_of prs)
        end
    ∧ challSrvProcess σ' = challSrvProcess σ.
Proof.
  destruct (check_spec σ) as (rs & σ' & Heq & Hlen & Htr & Hps & Hout & Hc).
  eexists rs, _, σ'. simpl. split_and!; try done.
  - by destruct (dead_of _).
  - rewrite Hps. apply alive_of_sublist.
Qed.

(** C1 as worded fails: with one entry dead, [check] answers [False]. *)
Lemma check_polarity_counterexample :
  ∃ σ' : Sys TestWorld,
    check (os := test_os one_crashed)
      (mkSys boot [proc 100 ["./bin/a"]; proc 101 ["./bin/b"]] None [] [])
      = (Ret false, σ')
    ∧ trace σ' = [EvPoll (proc 100 ["./bin/a"]) None;
                  EvPoll (proc 101 ["./bin/b"]) (Some 1%Z)]
    ∧ processes σ' = [proc 100 ["./bin/a"]]
    ∧ stdout σ' = [LogExitedHeader; LogExited ["./bin/b"] 101%Z 1%Z].
Proof. eexists. split_and!; [vm_compute; reflexivity | reflexivity..]. Qed.

(** ** The fleet controller: [stop] and the sidecar *)

Section ShutdownFacts.
Context `{os : OS World}.

Lemma terminate_if_alive_spec (p : Popen) (σ : Sys World) :
  ∃ (h : handling) (w : World),
    terminate_if_alive p σ =
      (match handling_exn h with None => Ret tt | Some e => Raise e end,
       mkSys w (processes σ) (challSrvProcess σ) (stdout σ) (trace σ ++ events_of p h)).
Proof.
  unfold terminate_if_alive, bind, poll, send_signal, wait, syscall, syscall_r, ret.
  destruct (os_poll p (world σ)) as [[c|] w] eqn:Hpoll; simpl.
  - exists (mkHandling (Some c) (Ret tt) (Ret 0%Z)), w. reflexivity.
  - destruct (os_send_signal p SIGTERM w) as [[[]|e] w1] eqn:Hsig; simpl.
    + destruct (os_wait p w1) as [[c|e] w2] eqn:Hwait; simpl.
      * exists (mkHandling None (Ret tt) (Ret c)), w2.
        unfold events_of, handling_exn. simpl. by rewrite <- !app_assoc.
      * exists (mkHandling None (Ret tt) (Raise e)), w2.
        unfold events_of, handling_exn. simpl. by rewrite <- !app_assoc.
    + exists (mkHandling None (Raise e) (Ret 0%Z)), w1.
      unfold events_of, handling_exn. simpl. by rewrite <- !app_assoc.
Qed.

(** The loop of [stop] over a list: the processes are handled in
    the order of the list, each to the end before the next; the loop
    stops at the first handling that raises. *)
Lemma stop_loop_spec (ps : list Popen) (σ : Sys World) :
  ∃ (hs : list handling) (w : World) (r : result unit),
    stop_loop ps σ =
      (r, mkSys w (processes σ) (challSrvProcess σ) (stdout σ)
            (trace σ ++ fleet_events ps hs))
    ∧ ((r = Ret tt ∧ length hs = length ps ∧ Forall (λ h, handling_exn h = None) hs)
       ∨ (∃ hs0 h e, hs = hs0 ++ [h] ∧ length hs0 < length ps
            ∧ Forall (λ h, handling_exn h = None) hs0
            ∧ handling_exn h = Some e ∧ r = Raise e)).
Proof.
  revert σ. induction ps as [|p ps IH]; intros σ; simpl.
  - exists [], (world σ), (Ret tt). split.
    + unfold ret, fleet_events. simpl. rewrite app_nil_r. by destruct σ.
    + left. split_and!; [done | done | constructor].
  - unfold bind. destruct (terminate_if_alive_spec p σ) as (h & w & Heq).
    rewrite Heq. destruct (handling_exn h) as [e|] eqn:Hh.
    + exists [h], w, (Raise e). split.
      * unfold fleet_events. simpl. destruct ps; simpl; by rewrite app_nil_r.
      * right. exists [], h, e. split_and!; [done | simpl; lia | constructor | done | done].
    + destruct (IH (mkSys w (processes σ) (challSrvProcess σ) (stdout σ)
                      (trace σ ++ events_of p h)))
        as (hs & w' & r & Heq' & Hcase).
      rewrite Heq'. simpl. exists (h :: hs), w', r. split.
      * unfold fleet_events. simpl. by rewrite <- app_assoc.
      * destruct Hcase as [(-> & Hlen & Hok)|(hs0 & h' & e & -> & Hlen & Hok & Hh' & ->)].
        -- left. split_and!; [done | simpl; lia | by constructor].
        -- right. exists (h :: hs0), h', e.
           split_and!; [done | simpl; lia | by constructor | done | done].
Qed.

Lemma stopChallSrv_spec (σ : Sys World) :
  match challSrvProcess σ with
  | None => stopChallSrv σ = (Ret tt, σ)
  | Some c =>
      ∃ (h : handling) (w : World),
        stopChallSrv σ =
          match handling_exn h with
          | None => (Ret tt, mkSys w (processes σ) None (stdout σ)
                               (trace σ ++ events_of c h))
          | Some e => (Raise e, mkSys w (processes σ) (Some c) (stdout σ)
                                  (trace σ ++ events_of c h))
          end
  end.
Proof.
  unfold stopChallSrv, bind, get_challSrvProcess.
  destruct (challSrvProcess σ) as [c|] eqn:Hc; [|done].
  destruct (terminate_if_alive_spec c σ) as (h & w & Heq).
  exists h, w. rewrite Heq, Hc. by destruct (handling_exn h).
Qed.

(** [stop], in full: either it completes, every handling having
    gone through, with the list emptied and the sidecar cleared; or a
    handling of the main fleet raised, and list and sidecar are as
    they were; or the sidecar's handling raised, the list being
    already emptied. *)
Lemma stop_spec (σ : Sys World) :
  ∃ (hs : list handling) (w : World),
    let main := fleet_events (rev (processes σ)) hs in
    (length hs = length (processes σ)
     ∧ Forall (λ h, handling_exn h = None) hs
     ∧ ((challSrvProcess σ = None
         ∧ stop σ = (Ret tt, mkSys w [] None (stdout σ) (trace σ ++ main)))
        ∨ (∃ c h, challSrvProcess σ = Some c ∧ handling_exn h = None
             ∧ stop σ = (Ret tt, mkSys w [] None (stdout σ)
                                   (trace σ ++ main ++ events_of c h)))
        ∨ (∃ c h e, challSrvProcess σ = Some c ∧ handling_exn h = Some e
             ∧ stop σ = (Raise e, mkSys w [] (Some c) (stdout σ)
                                    (trace σ ++ main ++ events_of c h)))))
    ∨ (∃ hs0 h e, hs = hs0 ++ [h] ∧ length hs0 < length (processes σ)
         ∧ Forall (λ h, handling_exn h = None) hs0
         ∧ handling_exn h = Some e
         ∧ stop σ = (Raise e, mkSys w (processes σ) (challSrvProcess σ) (stdout σ)
                                (trace σ ++ main))).
Proof.
  unfold stop, bind at 1. unfold get_processes.
  destruct (stop_loop_spec (rev (processes σ)) σ) as (hs & w & r & Heq & Hcase).
  rewrite length_rev in Hcase.
  destruct Hcase as [(-> & Hlen & Hok)|(hs0 & h & e & -> & Hlen & Hok & Hh & ->)].
  - unfold bind. rewrite Heq. unfold set_processes. simpl.
    set (σ1 := mkSys w [] (challSrvProcess σ) (stdout σ)
                 (trace σ ++ fleet_events (rev (processes σ)) hs)).
    pose proof (stopChallSrv_spec σ1) as Hside. simpl in Hside.
    destruct (challSrvProcess σ) as [c|] eqn:Hc.
    + destruct Hside as (h & w' & Hside). exists hs, w'. left.
      split_and!; [done | done |]. right.
      rewrite Hside. rewrite <- app_assoc.
      destruct (handling_exn h) as [e|] eqn:Hh.
      * right. by exists c, h, e.
      * left. by exists c, h.
    + exists hs, w. left. split_and!; [done | done |]. left.
      split; [done|]. rewrite Hside. done.
  - unfold bind. rewrite Heq. exists (hs0 ++ [h]), w. right.
    by exists hs0, h, e.
Qed.
End ShutdownFacts.

(** ** The readiness gate: [waitport] *)

Section GateFacts.
Context `{os : OS World}.

Lemma gate_trace_app (l k : list event) :
  gate_trace (l ++ k) = gate_trace l ++ gate_trace k.
Proof. apply List.filter_app. Qed.

Lemma gate_trace_poll_events (prs : list (Popen * option Z)) :
  gate_trace (poll_events prs) = [].
Proof. by induction prs. Qed.

(** [check] as an abort predicate: it returns, and its calls are polls. *)
Lemma check_returns (σ : Sys World) : ∃ b, (check σ).1 = Ret b.
Proof. destruct (check_spec σ) as (rs & σ' & Heq & _). rewrite Heq. eauto. Qed.

Lemma check_gate_trace (σ : Sys World) :
  gate_trace (trace (check σ).2) = gate_trace (trace σ).
Proof.
  destruct (check_spec σ) as (rs & σ' & Heq & _ & Htr & _). rewrite Heq. simpl.
  rewrite Htr, gate_trace_app, gate_trace_poll_events. apply app_nil_r.
Qed.

Variables (port : Z) (prog : string) (perTickCheck : option (@M World bool)).
Hypothesis chk_returns :
  ∀ chk, perTickCheck = Some chk → ∀ σ, ∃ b, (chk σ).1 = Ret b.
Hypothesis chk_quiet :
  ∀ chk, perTickCheck = Some chk → ∀ σ, gate_trace (trace (chk σ).2) = gate_trace (trace σ).

(** One attempt: a sleep, the predicate when there is one, and,
    unless it said no, the connect, closed when it went through. *)
Lemma waitport_attempt_spec (σ : Sys World) :
  ∃ σ' : Sys World,
    (waitport_attempt port perTickCheck σ = (Ret false, σ')
     ∧ is_Some perTickCheck
     ∧ gate_trace (trace σ') = gate_trace (trace σ) ++ [EvSleep 100; EvPerTickCheck false])
    ∨ (waitport_attempt port perTickCheck σ = (Ret true, σ')
       ∧ (∀ chk, perTickCheck = Some chk → ∃ σa σb, chk σa = (Ret true, σb))
       ∧ gate_trace (trace σ') = gate_trace (trace σ) ++ EvSleep 100 ::
           tick_events perTickCheck true ++ [EvConnect port (Ret tt); EvClose port])
    ∨ (∃ e, waitport_attempt port perTickCheck σ = (Raise e, σ')
       ∧ (∀ chk, perTickCheck = Some chk → ∃ σa σb, chk σa = (Raise e, σb) ∨ chk σa = (Ret true, σb))
       ∧ gate_trace (trace σ') = gate_trace (trace σ) ++ EvSleep 100 ::
           tick_events perTickCheck true ++ [EvConnect port (Raise e)]).
Proof.
  destruct (waitport_attempt port perTickCheck σ) as [r σ'] eqn:Hatt.
  exists σ'.
  unfold waitport_attempt, bind, sleep, connect, close, emit, ret,
    syscall, syscall_r in Hatt.
  simpl in Hatt.
  destruct perTickCheck as [chk|] eqn:Hchk.
  - match type of Hatt with context [chk ?s] => set (σ1 := s) in * end.
    destruct (chk_returns chk eq_refl σ1) as [b Hb].
    pose proof (chk_quiet chk eq_refl σ1) as Hq.
    destruct (chk σ1) as [rc σ2] eqn:Hrun. simpl in Hb, Hq. subst rc.
    assert (Hq' : gate_trace (trace σ2) = gate_trace (trace σ) ++ [EvSleep 100]).
    { rewrite Hq. unfold σ1. simpl. by rewrite gate_trace_app. }
    destruct b; simpl in Hatt.
    + destruct (os_connect port (world σ2)) as [[[]|e] w] eqn:Hc;
        simpl in Hatt; injection Hatt as <- <-; simpl.
      * right. left. split_and!; [done | |].
        { intros ? [= <-]. eauto. }
        rewrite !gate_trace_app, Hq'. simpl. by rewrite <- !app_assoc.
      * right. right. exists e. split_and!; [done | |].
        { intros ? [= <-]. eauto. }
        rewrite !gate_trace_app, Hq'. simpl. by rewrite <- !app_assoc.
    + injection Hatt as <- <-. left. split_and!; [done | eauto |]. simpl.
      rewrite !gate_trace_app, Hq'. simpl. by rewrite <- !app_assoc.
  - simpl in Hatt.
    destruct (os_connect port (os_sleep (world σ))) as [[[]|e] w] eqn:Hc;
      simpl in Hatt; injection Hatt as <- <-; simpl.
    + right. left. split_and!; [done | done |].
      rewrite !gate_trace_app. simpl. by rewrite <- !app_assoc.
    + right. right. exists e. split_and!; [done | done |].
      rewrite !gate_trace_app. simpl. by rewrite <- !app_assoc.
Qed.

(** The whole wait over [n] attempts: [k] refused attempts, then the
    attempt that decides, if any. *)
Lemma waitport_loop_spec (n : nat) (σ : Sys World) :
  ∃ (k : nat) (o : gate_outcome) (σ' : Sys World),
    waitport_loop n port prog perTickCheck σ = (outcome_result port prog o, σ')
    ∧ gate_trace (trace σ') =
        gate_trace (trace σ)
          ++ concat (replicate k (refused_attempt port perTickCheck))
          ++ last_attempt port perTickCheck o
    ∧ match o with
      | ReadinessTimeout => k = n
      | AbortedWait => k < n ∧ is_Some perTickCheck
      | Ready => k < n
      | ConnectError e => k < n ∧ e ≠ OSError ECONNREFUSED
      end
    ∧ (0 < n → ∀ chk, perTickCheck = Some chk → (∀ σ0, (chk σ0).1 = Ret false) →
       k = 0 ∧ o = AbortedWait).
Proof.
  revert σ. induction n as [|n IH]; intros σ.
  - exists 0, ReadinessTimeout, σ. split_and!; [done | | done | lia].
    simpl. by rewrite app_nil_r.
  - cbn [waitport_loop]. unfold bind at 1. unfold try_except, bind at 1.
    destruct (waitport_attempt_spec σ)
      as [σ1 [(Heq & Hsome & Htr)|[(Heq & Hsaid & Htr)|(e & Heq & Hsaid & Htr)]]];
      rewrite Heq.
    + exists 0, AbortedWait, σ1. simpl. split_and!; [done | done | lia | done | done].
    + exists 0, Ready, σ1. simpl. split_and!; [done | done | lia |].
      intros _ chk Hchk Hfalse. destruct (Hsaid chk Hchk) as (σa & σb & Hrun).
      specialize (Hfalse σa). rewrite Hrun in Hfalse. done.
    + assert (Hnever : ∀ chk, perTickCheck = Some chk →
                (∀ σ0, (chk σ0).1 = Ret false) → False).
      { intros chk Hchk Hfalse. destruct (Hsaid chk Hchk) as (σa & σb & [Hrun|Hrun]);
          specialize (Hfalse σa); rewrite Hrun in Hfalse; done. }
      assert (Hother : e ≠ OSError ECONNREFUSED →
                waitport_except port prog e σ1 = (Raise e, σ1)).
      { intros Hne. unfold waitport_except, raise.
        destruct e as [| errno | |]; try done.
        destruct (Z.eqb_spec errno ECONNREFUSED) as [->|]; done. }
      destruct (decide (e = OSError ECONNREFUSED)) as [->|Hne].
      * unfold waitport_except. simpl. unfold bind, print, ret. simpl.
        set (σ2 := mkSys (world σ1) (processes σ1) (challSrvProcess σ1)
                     (stdout σ1 ++ [LogWaiting port prog]) (trace σ1)).
        destruct (IH σ2) as (k & o & σ' & Heq' & Htr' & Hk & _).
        exists (S k), o, σ'. split_and!.
        -- exact Heq'.
        -- rewrite Htr'. unfold σ2. simpl. rewrite Htr.
           unfold refused_attempt. simpl. rewrite <- ?app_assoc.
           f_equal. simpl. f_equal. by rewrite <- !app_assoc.
        -- destruct o; intuition lia.
        -- intros _ chk Hchk Hfalse. destruct (Hnever chk Hchk Hfalse).
      * rewrite (Hother Hne). exists 0, (ConnectError e), σ1. simpl.
        split_and!; [done | done | lia | done |].
        intros _ chk Hchk Hfalse. destruct (Hnever chk Hchk Hfalse).
Qed.
End GateFacts.

(** C5. [waitport] with an abort predicate that returns and makes no
    gate call of its own (or with none): the wait is [k] attempts
    refused, then one deciding attempt, at most 1000 attempts in all,
    each opening with a sleep of 100 ms, then the predicate, then the
    connect.  A predicate answering [False] ends the wait on the spot
    with [False] and without a connect ([AbortedWait]); a connect that
    goes through is closed and the wait returns [True]; a connect
    failing otherwise than by refusal raises at once; 1000 refusals end
    in the timeout exception.  A predicate that always answers [False]
    ends the wait at the first tick. *)
Theorem waitport_bounded_gate `{os : OS World} (port : Z) (prog : string)
    (perTickCheck : option (@M World bool)) (σ : Sys World) :
  (∀ chk, perTickCheck = Some chk → ∀ σ0, ∃ b, (chk σ0).1 = Ret b) →
  (∀ chk, perTickCheck = Some chk →
     ∀ σ0, gate_trace (trace (chk σ0).2) = gate_trace (trace σ0)) →
  ∃ (k : nat) (o : gate_outcome) (σ' : Sys World),
    waitport port prog perTickCheck σ = (outcome_result port prog o, σ')
    ∧ gate_trace (trace σ') =
        gate_trace (trace σ)
          ++ concat (replicate k (refused_attempt port perTickCheck))
          ++ last_attempt port perTickCheck o
    ∧ match o with
      | ReadinessTimeout => k = 1000
      | AbortedWait => k < 1000 ∧ is_Some perTickCheck
      | Ready => k < 1000
      | ConnectError e => k < 1000 ∧ e ≠ OSError ECONNREFUSED
      end
    ∧ (∀ chk, perTickCheck = Some chk → (∀ σ0, (chk σ0).1 = Ret false) →
       k = 0 ∧ o = AbortedWait).
Proof.
  intros Hret Hquiet.
  destruct (waitport_loop_spec port prog perTickCheck Hret Hquiet 1000 σ)
    as (k & o & σ' & Heq & Htr & Hk & Hfalse).
  exists k, o, σ'. split_and!; [done | done | done |].
  intros chk Hchk. apply Hfalse; [lia | done].
Qed.

Lemma waitport_bounded_gate_witness :
  ∃ (k : nat) (o : gate_outcome) (σ' : Sys TestWorld),
    waitport (os := test_os slow_port) 8001 "./bin/a"
      (Some (check (os := test_os slow_port)))
      (mkSys boot [proc 100 ["./bin/a"]] None [] [])
      = (outcome_result 8001 "./bin/a" o, σ')
    ∧ gate_trace (trace σ') =
        concat (replicate k (refused_attempt 8001 (Some (check (os := test_os slow_port)))))
          ++ last_attempt 8001 (Some (check (os := test_os slow_port))) o
    ∧ match o with
      | ReadinessTimeout => k = 1000
      | AbortedWait => k < 1000 ∧ is_Some (Some (check (os := test_os slow_port)))
      | Ready => k < 1000
      | ConnectError e => k < 1000 ∧ e ≠ OSError ECONNREFUSED
      end
    ∧ (∀ chk, Some (check (os := test_os slow_port)) = Some chk →
       (∀ σ0, (chk σ0).1 = Ret false) → k = 0 ∧ o = AbortedWait).
Proof.
  apply (waitport_bounded_gate (os := test_os slow_port) 8001 "./bin/a"
           (Some (check (os := test_os slow_port)))
           (mkSys boot [proc 100 ["./bin/a"]] None [] [])).
  - intros chk [= <-] σ0. apply check_returns.
  - intros chk [= <-] σ0. apply check_gate_trace.
Defined.

(** The same wait, run: two refusals, then the port accepts. *)
Example waitport_slow_port :
  ∃ σ' : Sys TestWorld,
    waitport (os := test_os slow_port) 8001 "./bin/a"
      (Some (check (os := test_os slow_port)))
      (mkSys boot [proc 100 ["./bin/a"]] None [] []) = (Ret true, σ')
    ∧ gate_trace (trace σ') =
        [EvSleep 100; EvPerTickCheck true; EvConnect 8001 (Raise (OSError 111));
         EvSleep 100; EvPerTickCheck true; EvConnect 8001 (Raise (OSError 111));
         EvSleep 100; EvPerTickCheck true; EvConnect 8001 (Ret tt); EvClose 8001].
Proof. eexists. split; [vm_compute; reflexivity | reflexivity]. Qed.

(** A port that never opens: 1000 sleeps, then the timeout. *)
Example waitport_times_out :
  ∃ σ' : Sys TestWorld,
    waitport (os := test_os closed_port) 8002 "./bin/b" None (idle boot)
      = (Raise (Exception "timed out waiting for debug port 8002 (./bin/b)"), σ')
    ∧ tw_ticks (world σ') = 1000.
Proof. eexists. split; [vm_compute; reflexivity | reflexivity]. Qed.

(** A fleet with a dead member: [check] as the predicate aborts the
    wait at the first tick, before any connect. *)
Example waitport_aborts_first_tick :
  ∃ σ' : Sys TestWorld,
    waitport (os := test_os one_crashed) 8002 "./bin/b"
      (Some (check (os := test_os one_crashed)))
      (mkSys boot [proc 101 ["./bin/b"]] None [] []) = (Ret false, σ')
    ∧ gate_trace (trace σ') = [EvSleep 100; EvPerTickCheck false].
Proof. eexists. split; [vm_compute; reflexivity | reflexivity]. Qed.

(** C6. [stop] handles the entries of [processes] in the exact reverse
    of the list, that is of the order [start] appended them: each is
    polled, one found exited is left alone, one found alive is signalled
    with SIGTERM and waited for before the next is looked at.  The
    calls for the sidecar, if any, come after the calls for the whole
    list.  The calls are all there: either every entry of the list was
    handled without a failure, and then the sidecar, if there is one,
    and [stop] returns unless the signal or the wait of the sidecar
    raised; or the signal or the wait of some entry raised, the entries
    before it (in reverse order) were handled in full, and [stop]
    leaves with that very exception. *)
Theorem stop_reverse_order `{os : OS World} (σ : Sys World) :
  ∃ (hs : list handling) (side : list event) (r : result unit) (σ' : Sys World),
    stop σ = (r, σ')
    ∧ trace σ' = trace σ ++ fleet_events (rev (processes σ)) hs ++ side
    ∧ length hs ≤ length (processes σ)
    ∧ (r = Ret tt → length hs = length (processes σ))
    ∧ (side = [] ∨
       (length hs = length (processes σ)
        ∧ Forall (λ h, handling_exn h = None) hs
        ∧ ∃ c h, challSrvProcess σ = Some c ∧ side = events_of c h))
    ∧ ((length hs = length (processes σ)
        ∧ Forall (λ h, handling_exn h = None) hs
        ∧ ((challSrvProcess σ = None ∧ side = [] ∧ r = Ret tt)
           ∨ ∃ c h, challSrvProcess σ = Some c ∧ side = events_of c h
                    ∧ r = match handling_exn h with
                          | None => Ret tt
                          | Some e => Raise e
                          end))
       ∨ ∃ hs0 h e,
           hs = hs0 ++ [h] ∧ length hs0 < length (processes σ)
           ∧ Forall (λ h, handling_exn h = None) hs0
           ∧ handling_exn h = Some e ∧ r = Raise e ∧ side = []).
Proof.
  destruct (stop_spec σ) as (hs & w & Hcase). simpl in Hcase.
  destruct Hcase as [(Hlen & Hok & [(Hc & Heq)|[(c & h & Hc & Hh & Heq)|(c & h & e & Hc & Hh & Heq)]])
                    |(hs0 & h & e & -> & Hlen & Hok & Hh & Heq)].
  - exists hs, [], (Ret tt). eexists.
    split_and!; [exact Heq | | lia | done | by left | left; eauto 10].
    simpl. by rewrite app_nil_r.
  - exists hs, (events_of c h), (Ret tt). eexists.
    split_and!; [exact Heq | done | lia | done | right; eauto 10 |].
    left. split_and!; [done|done|]. right. exists c, h. by rewrite Hh.
  - exists hs, (events_of c h), (Raise e). eexists.
    split_and!; [exact Heq | done | lia | done | right; eauto 10 |].
    left. split_and!; [done|done|]. right. exists c, h. by rewrite Hh.
  - exists (hs0 ++ [h]), [], (Raise e). eexists.
    split_and!; [exact Heq | | | done | by left | right; eauto 10].
    + simpl. by rewrite app_nil_r.
    + rewrite length_app. simpl. lia.
Qed.

Lemma stop_reverse_order_witness :
  ∃ (hs : list handling) (side : list event) (r : result unit) (σ' : Sys TestWorld),
    stop (os := test_os calm) running_fleet = (r, σ')
    ∧ trace σ' = trace running_fleet ++ fleet_events (rev (processes running_fleet)) hs
                   ++ side
    ∧ length hs ≤ length (processes running_fleet)
    ∧ (r = Ret tt → length hs = length (processes running_fleet))
    ∧ (side = [] ∨
       (length hs = length (processes running_fleet)
        ∧ Forall (λ h, handling_exn h = None) hs
        ∧ ∃ c h, challSrvProcess running_fleet = Some c ∧ side = events_of c h))
    ∧ ((length hs = length (processes running_fleet)
        ∧ Forall (λ h, handling_exn h = None) hs
        ∧ ((challSrvProcess running_fleet = None ∧ side = [] ∧ r = Ret tt)
           ∨ ∃ c h, challSrvProcess running_fleet = Some c ∧ side = events_of c h
                    ∧ r = match handling_exn h with
                          | None => Ret tt
                          | Some e => Raise e
                          end))
       ∨ ∃ hs0 h e,
           hs = hs0 ++ [h] ∧ length hs0 < length (processes running_fleet)
           ∧ Forall (λ h, handling_exn h = None) hs0
           ∧ handling_exn h = Some e ∧ r = Raise e ∧ side = []).
Proof. exact (stop_reverse_order (os := test_os calm) running_fleet). Defined.

(** Two services and the sidecar, all alive: the second service
    first, then the first, then the sidecar. *)
Example stop_running_fleet :
  ∃ σ' : Sys TestWorld,
    stop (os := test_os calm) running_fleet = (Ret tt, σ')
    ∧ trace σ' = [EvPoll (proc 102 ["./bin/b"]) None;
                  EvSendSignal (proc 102 ["./bin/b"]) SIGTERM (Ret tt);
                  EvWait (proc 102 ["./bin/b"]) (Ret (-15)%Z);
                  EvPoll (proc 101 ["./bin/a"]) None;
                  EvSendSignal (proc 101 ["./bin/a"]) SIGTERM (Ret tt);
                  EvWait (proc 101 ["./bin/a"]) (Ret (-15)%Z);
                  EvPoll (proc 100 ["pebble-challtestsrv"]) None;
                  EvSendSignal (proc 100 ["pebble-challtestsrv"]) SIGTERM (Ret tt);
                  EvWait (proc 100 ["pebble-challtestsrv"]) (Ret (-15)%Z)]
    ∧ processes σ' = [] ∧ challSrvProcess σ' = None.
Proof. eexists. split_and!; [vm_compute; reflexivity | reflexivity..]. Qed.

(** One service has exited already: it is polled and left alone. *)
Example stop_skips_exited :
  ∃ σ' : Sys TestWorld,
    stop (os := test_os one_crashed) running_fleet = (Ret tt, σ')
    ∧ trace σ' = [EvPoll (proc 102 ["./bin/b"]) None;
                  EvSendSignal (proc 102 ["./bin/b"]) SIGTERM (Ret tt);
                  EvWait (proc 102 ["./bin/b"]) (Ret (-15)%Z);
                  EvPoll (proc 101 ["./bin/a"]) (Some 1%Z);
                  EvPoll (proc 100 ["pebble-challtestsrv"]) None;
                  EvSendSignal (proc 100 ["pebble-challtestsrv"]) SIGTERM (Ret tt);
                  EvWait (proc 100 ["pebble-challtestsrv"]) (Ret (-15)%Z)].
Proof. eexists. split; [vm_compute; reflexivity | reflexivity]. Qed.



(** C8, as the code has it. [stop] has no handler around the signal and
    the wait, and prints nothing.  When it returns, every handling went
    through, the list is empty and the sidecar cleared.  When a signal
    or a wait raises, the exception leaves [stop] at once, nothing being
    printed of it: raised for an entry of the list, it leaves the
    entries not yet reached unexamined, the list as it was and the
    sidecar untouched; raised for the sidecar, it leaves the sidecar
    tracked. *)
Theorem stop_propagates_errors `{os : OS World} (σ : Sys World) :
  match stop σ with
  | (Ret _, σ') =>
      processes σ' = [] ∧ challSrvProcess σ' = None
      ∧ stdout σ' = stdout σ
      ∧ ∃ hs side,
          trace σ' = trace σ ++ fleet_events (rev (processes σ)) hs ++ side
          ∧ length hs = length (processes σ)
          ∧ Forall (λ h, handling_exn h = None) hs
          ∧ ((challSrvProcess σ = None ∧ side = [])
             ∨ (∃ c h, challSrvProcess σ = Some c ∧ handling_exn h = None
                       ∧ side = events_of c h))
  | (Raise e, σ') =>
      challSrvProcess σ' = challSrvProcess σ
      ∧ stdout σ' = stdout σ
      ∧ ∃ hs0 h,
          handling_exn h = Some e
          ∧ Forall (λ h, handling_exn h = None) hs0
          ∧ ((length hs0 < length (processes σ)
              ∧ processes σ' = processes σ
              ∧ trace σ' = trace σ ++ fleet_events (rev (processes σ)) (hs0 ++ [h]))
             ∨ (∃ c, challSrvProcess σ = Some c
                     ∧ length hs0 = length (processes σ)
                     ∧ processes σ' = []
                     ∧ trace σ' = trace σ ++ fleet_events (rev (processes σ)) hs0
                                    ++ events_of c h))
  end.
Proof.
  destruct (stop_spec σ) as (hs & w & Hcase). simpl in Hcase.
  destruct Hcase as [(Hlen & Hok & [(Hc & Heq)|[(c & h & Hc & Hh & Heq)|(c & h & e & Hc & Hh & Heq)]])
                    |(hs0 & h & e & -> & Hlen & Hok & Hh & Heq)];
    rewrite Heq; simpl.
  - split_and!; [done | done | done |]. exists hs, []. rewrite app_nil_r. eauto 10.
  - split_and!; [done | done | done |]. exists hs, (events_of c h).
    split_and!; [done | done | done |]. right. eauto.
  - split_and!; [done | done |]. exists hs, h. split_and!; [done | done |]. right. eauto 10.
  - split_and!; [done | done |]. exists hs0, h. split_and!; [done | done |]. left. done.
Qed.

(** C8 as worded fails: the signal to pid 101 is refused, and [stop]
    ends there with the exception; pid 100, next in line, is never
    looked at, the list is not emptied, the sidecar not stopped. *)
Lemma stop_best_effort_counterexample :
  ∃ σ' : Sys TestWorld,
    stop (os := test_os stubborn)
      (mkSys boot [proc 100 ["./bin/a"]; proc 101 ["./bin/b"]; proc 102 ["./bin/c"]]
         (Some (proc 99 ["pebble-challtestsrv"])) [] [])
      = (Raise (OSError 1), σ')
    ∧ trace σ' = [EvPoll (proc 102 ["./bin/c"]) None;
                  EvSendSignal (proc 102 ["./bin/c"]) SIGTERM (Ret tt);
                  EvWait (proc 102 ["./bin/c"]) (Ret (-15)%Z);
                  EvPoll (proc 101 ["./bin/b"]) None;
                  EvSendSignal (proc 101 ["./bin/b"]) SIGTERM (Raise (OSError 1))]
    ∧ processes σ' = [proc 100 ["./bin/a"]; proc 101 ["./bin/b"]; proc 102 ["./bin/c"]]
    ∧ challSrvProcess σ' = Some (proc 99 ["pebble-challtestsrv"])
    ∧ stdout σ' = [].
Proof. eexists. split_and!; [vm_compute; reflexivity | reflexivity..]. Qed.

(** ** What a wait leaves of the fleet *)

Section FrameFacts.
Context `{os : OS World}.

Lemma same_fleet_refl (σ : Sys World) : same_fleet σ σ.
Proof. by split. Qed.

Lemma same_fleet_trans (σ1 σ2 σ3 : Sys World) :
  same_fleet σ1 σ2 → same_fleet σ2 σ3 → same_fleet σ1 σ3.
Proof. intros [? ?] [? ?]. split; congruence. Qed.

(** A wait without predicate touches neither global. *)
Lemma waitport_None_frame (n : nat) (port : Z) (prog : string) (σ : Sys World) :
  same_fleet σ (waitport_loop n port prog None σ).2.
Proof.
  revert σ. induction n as [|n IH]; intros σ; [apply same_fleet_refl|].
  cbn [waitport_loop].
  unfold bind, try_except, waitport_attempt, bind, sleep, connect, close, emit, ret,
    syscall, syscall_r. simpl.
  destruct (os_connect port (os_sleep (world σ))) as [[[]|e] w] eqn:Hc; simpl;
    [by split|].
  unfold waitport_except.
  destruct e as [| errno | |]; simpl; try (by split).
  destruct (Z.eqb errno ECONNREFUSED); simpl; [|by split].
  eapply same_fleet_trans; [|apply IH]. by split.
Qed.

(** A wait with [check] as predicate only adds to the trace; unless
    it ends on [False] the globals are as before; when it ends on
    [False], they are as the [check] that said so left them. *)
Lemma waitport_check_frame (n : nat) (port : Z) (prog : string) (σ : Sys World)
    (r : result bool) (σ' : Sys World) :
  waitport_loop n port prog (Some check) σ = (r, σ') →
  (r ≠ Ret false ∧ same_fleet σ σ' ∧ trace σ `prefix_of` trace σ')
  ∨ (r = Ret false
     ∧ ∃ σa σb, same_fleet σ σa ∧ trace σ `prefix_of` trace σa
                ∧ check σa = (Ret false, σb)
                ∧ same_fleet σb σ'
                ∧ trace σ' = trace σb ++ [EvPerTickCheck false]).
Proof.
  revert σ. induction n as [|n IH]; intros σ Hrun.
  - injection Hrun as <- <-. left. split_and!; [done | apply same_fleet_refl | done].
  - cbn [waitport_loop] in Hrun.
    unfold bind at 1, try_except, bind at 1, waitport_attempt, bind at 1,
      sleep, syscall in Hrun.
    simpl in Hrun.
    set (σ1 := mkSys (os_sleep (world σ)) (processes σ) (challSrvProcess σ)
                 (stdout σ) (trace σ ++ [EvSleep 100])) in *.
    unfold bind at 1, bind at 1 in Hrun.
    destruct (check_spec σ1) as (rs & σ2 & Hchk & Hlen & Htr & Hps & _ & Hc).
    simpl in Hchk. rewrite Hchk in Hrun.
    unfold bind, emit, ret, connect, close, syscall_r in Hrun. simpl in Hrun.
    change (processes σ1) with (processes σ) in *.
    assert (Hpre1 : trace σ `prefix_of` trace σ1) by (by apply prefix_app_r).
    assert (Hpre2 : trace σ `prefix_of` trace σ2).
    { rewrite Htr. by apply prefix_app_r. }
    destruct (dead_of (zip (processes σ) rs)) as [|d ds] eqn:Hdead; simpl in Hrun.
    + assert (Hsame : same_fleet σ σ2).
      { split; [|done]. rewrite Hps. by apply alive_of_all. }
      destruct Hsame as [Hsp Hsc].
      destruct (os_connect port (world σ2)) as [[[]|e] w] eqn:Hconn; simpl in Hrun.
      * injection Hrun as <- <-. left. split_and!; [done | by split |].
        simpl. by do 3 apply prefix_app_r.
      * unfold waitport_except in Hrun.
        assert (Hraise : ∀ out,
                  (Raise e, mkSys w (processes σ2) (challSrvProcess σ2) out
                              ((trace σ2 ++ [EvPerTickCheck true])
                                 ++ [EvConnect port (Raise e)])) = (r, σ') →
                  r ≠ Ret false ∧ same_fleet σ σ' ∧ trace σ `prefix_of` trace σ').
        { intros out [= <- <-]. split_and!; [done | by split |].
          simpl. by do 2 apply prefix_app_r. }
        destruct e as [| errno | |]; simpl in Hrun;
          try (left; eapply Hraise; exact Hrun).
        destruct (Z.eqb errno ECONNREFUSED); simpl in Hrun;
          [|left; eapply Hraise; exact Hrun].
        apply IH in Hrun. simpl in Hrun.
        assert (Hpre3 : ∀ l, ((trace σ2 ++ [EvPerTickCheck true])
                               ++ [EvConnect port (Raise (OSError errno))])
                             `prefix_of` l → trace σ `prefix_of` l).
        { intros l Hl. etrans; [|exact Hl]. by do 2 apply prefix_app_r. }
        destruct Hrun as [(? & [Hp' Hc'] & ?)|(-> & σa & σb & [Hp' Hc'] & ? & ? & ? & ?)];
          simpl in Hp', Hc'.
        -- left. split_and!; [done | split; congruence | by apply Hpre3].
        -- right. split; [done|]. exists σa, σb.
           split_and!; [split; congruence | by apply Hpre3 | done | done | done].
    + injection Hrun as <- <-. right. split; [done|].
      exists σ1, σ2. split_and!; [by split | done | | by split | done].
      rewrite Hchk. done.
Qed.
End FrameFacts.

(** ** The sidecar *)

Lemma startChallSrv_tracked `{os : OS World} (σ : Sys World) (r : option bool)
    (σ' : Sys World) :
  startChallSrv σ = (Ret r, σ') →
  challSrvProcess σ = None ∧ is_Some (challSrvProcess σ') ∧ processes σ' = processes σ.
Proof.
  unfold startChallSrv, bind at 1, get_challSrvProcess.
  destruct (challSrvProcess σ) as [c|] eqn:Hc; [done|].
  unfold bind at 1, environ.
  destruct (os_environ (world σ) !! "FAKE_DNS") as [dns|]; [|done].
  unfold bind at 1, run, bind at 1, environ, bind at 1, syscall_r.
  destruct (os_popen _ _ (world σ)) as [[child|e] w]; [|done].
  unfold ret at 1, bind at 1, set_challSrvProcess. cbn [fst snd].
  unfold bind at 1, waitport.
  match goal with |- context [waitport_loop ?n ?p ?g None ?s] =>
    pose proof (waitport_None_frame n p g s) as [Hps Hside];
    destruct (waitport_loop n p g None s) as [[b|e] σ1]
  end; [|done].
  simpl in Hps, Hside.
  destruct b; unfold ret; simpl; intros [= <- <-];
    rewrite Hside, Hps; eauto.
Qed.

(** C10. The sidecar is tracked in one optional slot.  [startChallSrv]
    called while the slot is taken raises and changes nothing; when it
    returns, the slot was empty before and is taken after.
    [stopChallSrv], when it returns, has emptied the slot; on a sidecar
    that has already exited it polls, sends no signal, and empties the
    slot. *)
Theorem sidecar_at_most_one `{os : OS World} :
  (∀ (σ : Sys World) c, challSrvProcess σ = Some c →
     startChallSrv σ = (Raise (Exception "startChallSrv called more than once"), σ))
  ∧ (∀ (σ : Sys World) r σ', startChallSrv σ = (Ret r, σ') →
       challSrvProcess σ = None ∧ is_Some (challSrvProcess σ'))
  ∧ (∀ (σ : Sys World) σ', stopChallSrv σ = (Ret tt, σ') → challSrvProcess σ' = None)
  ∧ (∀ (σ : Sys World) c code w,
       challSrvProcess σ = Some c → os_poll c (world σ) = (Some code, w) →
       stopChallSrv σ = (Ret tt, mkSys w (processes σ) None (stdout σ)
                                   (trace σ ++ [EvPoll c (Some code)]))).
Proof.
  split_and!.
  - intros σ c Hc. unfold startChallSrv, bind, get_challSrvProcess. by rewrite Hc.
  - intros σ r σ' Hrun. apply startChallSrv_tracked in Hrun. tauto.
  - intros σ σ' Hrun. pose proof (stopChallSrv_spec σ) as Hspec.
    destruct (challSrvProcess σ) as [c|] eqn:Hc.
    + destruct Hspec as (h & w & Heq). rewrite Heq in Hrun.
      destruct (handling_exn h); [done|]. by injection Hrun as <-.
    + rewrite Hspec in Hrun. by injection Hrun as <-.
  - intros σ c code w Hc Hpoll.
    unfold stopChallSrv, bind, get_challSrvProcess, terminate_if_alive, bind, poll, syscall.
    rewrite Hc, Hpoll. reflexivity.
Qed.

Lemma sidecar_at_most_one_witness :
  startChallSrv (os := test_os calm) running_fleet
    = (Raise (Exception "startChallSrv called more than once"), running_fleet)
  ∧ ∃ σ', stopChallSrv (os := test_os calm) running_fleet = (Ret tt, σ')
          ∧ challSrvProcess σ' = None.
Proof.
  split.
  - apply (proj1 (sidecar_at_most_one (os := test_os calm)) running_fleet
             (proc 100 ["pebble-challtestsrv"])).
    reflexivity.
  - eexists. split; [vm_compute; reflexivity|].
    apply (proj1 (proj2 (proj2 (sidecar_at_most_one (os := test_os calm))))
             running_fleet).
    vm_compute. reflexivity.
Defined.


(** ** The fleet controller: [start] *)

Section StartFacts.
Context `{os : OS World}.
Variable config_dir : string.
Variable fakeclock : option string.

Lemma gate_frame (s : Service) (p : Popen) (σ : Sys World)
    (r : result bool) (σ' : Sys World) :
  gate config_dir s p σ = (r, σ') →
  (r ≠ Ret false ∧ same_fleet σ σ' ∧ trace σ `prefix_of` trace σ')
  ∨ (r = Ret false
     ∧ ∃ σa σb, same_fleet σ σa ∧ trace σ `prefix_of` trace σa
                ∧ check σa = (Ret false, σb)
                ∧ same_fleet σb σ'
                ∧ trace σ' = trace σb ++ [EvPerTickCheck false]).
Proof.
  unfold gate. destruct (grpc_addr s) as [addr|].
  - unfold bind, waithealth, check_call, syscall_r, ret.
    destruct (os_check_call _ (world σ)) as [[[]|e] w];
      intros [= <- <-]; left;
      (split_and!; [done | by split | by apply prefix_app_r]).
  - apply waitport_check_frame.
Qed.

(** One service: either the spawn raised and the globals are as
    before; or a process [p] was spawned from the service's [cmd] and
    appended, and then the list is the old one with [p] unless the gate
    ended on [False], in which case it is what the last sweep of
    [check] found alive among the old ones and [p], something having
    been found dead. *)
Lemma spawn_and_gate_fleet (s : Service) (σ : Sys World)
    (r : result bool) (σ' : Sys World) :
  spawn_and_gate config_dir fakeclock s σ = (r, σ') →
  challSrvProcess σ' = challSrvProcess σ
  ∧ ((∃ e, r = Raise e ∧ processes σ' = processes σ
           ∧ trace σ' = trace σ ++
               [EvPopen (cmd s) (child_env (os_environ (world σ)) fakeclock) (Raise e)])
     ∨ (∃ child tr,
          let p := mkPopen child (cmd s) (cmd s) in
          trace σ' = trace σ ++
            EvPopen (cmd s) (child_env (os_environ (world σ)) fakeclock) (Ret child) :: tr
          ∧ ((r ≠ Ret false ∧ processes σ' = processes σ ++ [p])
             ∨ (r = Ret false
                ∧ ∃ rs, length rs = length (processes σ ++ [p])
                        ∧ dead_of (zip (processes σ ++ [p]) rs) ≠ []
                        ∧ processes σ' = alive_of (zip (processes σ ++ [p]) rs)
                        ∧ ∃ tr0, tr = tr0 ++ poll_events (zip (processes σ ++ [p]) rs)
                                          ++ [EvPerTickCheck false])))).
Proof.
  unfold spawn_and_gate, bind at 1, run, bind at 1, environ, bind at 1, syscall_r.
  destruct (os_popen _ _ (world σ)) as [[child|e] w] eqn:Hpopen.
  - unfold ret at 1, bind at 1, append_process, bind at 1, get_processes, set_processes.
    cbn [fst snd processes world challSrvProcess stdout trace].
    set (p := mkPopen child (cmd s) (cmd s)).
    set (σ1 := mkSys w (processes σ ++ [p]) (challSrvProcess σ) (stdout σ)
                 (trace σ ++ [EvPopen (cmd s)
                    (child_env (os_environ (world σ)) fakeclock) (Ret child)])).
    intros Hgate.
    apply gate_frame in Hgate
      as [(Hr & [Hps Hc] & [tr Htr])
         |(-> & σa & σb & [Hpa Hca] & [k Hk] & Hchk & [Hpb Hcb] & Htr)].
    + split; [by rewrite Hc|]. right. exists child, tr. split.
      * rewrite Htr. unfold σ1. simpl. by rewrite <- app_assoc.
      * left. split; [done|]. by rewrite Hps.
    + destruct (check_spec σa) as (rs & σb' & Hchk' & Hlen & Htrb & Hpsb & Hout & Hcb').
      simpl in Hchk'. rewrite Hchk in Hchk'.
      destruct (dead_of (zip (processes σa) rs)) as [|d ds] eqn:Hdead; [done|].
      injection Hchk' as <-.
      unfold σ1, p in *. simpl in Hpa, Hca, Hk.
      split; [congruence|]. right.
      exists child, (k ++ poll_events (zip (processes σa) rs) ++ [EvPerTickCheck false]).
      split.
      * rewrite Htr, Htrb, Hk. by rewrite <- !app_assoc.
      * right. split; [done|]. rewrite Hpa in *. exists rs.
        split_and!; [done | by rewrite Hdead | congruence | by exists k].
  - intros [= <- <-]. simpl. split; [done|]. left. eauto.
Qed.

(** The [try]/[except] around the body: an exception becomes a
    printed line and [return False]. *)
Lemma start_service_cases (s : Service) (σ : Sys World) :
  start_service config_dir fakeclock s σ =
    match spawn_and_gate config_dir fakeclock s (announced s σ) with
    | (Ret b, σ1) => (Ret b, σ1)
    | (Raise e, σ1) =>
        (Ret false, mkSys (world σ1) (processes σ1) (challSrvProcess σ1)
                      (stdout σ1 ++ [LogErrorStarting (name s) e]) (trace σ1))
    end.
Proof.
  unfold start_service, bind, print, try_except, ret, announced. simpl.
  by destruct (spawn_and_gate _ _ _ _) as [[b|e] σ1].
Qed.

Lemma start_loop_all_up (order : list Service) (σ σ1 : Sys World) :
  all_up config_dir fakeclock order σ σ1 →
  start_loop config_dir fakeclock order σ = (Ret true, σ1).
Proof.
  induction 1 as [|s rest σ σ1 σ2 Hstep _ IH]; [done|].
  simpl. unfold bind. by rewrite start_service_cases, Hstep.
Qed.

Lemma start_loop_true (order : list Service) (σ σ1 : Sys World) :
  start_loop config_dir fakeclock order σ = (Ret true, σ1) →
  all_up config_dir fakeclock order σ σ1.
Proof.
  revert σ. induction order as [|s rest IH]; intros σ; simpl.
  - intros [= <-]. constructor.
  - unfold bind. rewrite start_service_cases.
    destruct (spawn_and_gate _ _ _ _) as [[[]|e] σ2] eqn:Hstep; simpl; try done.
    intros Hrest. econstructor; eauto.
Qed.

(** The loop never raises. *)
Lemma start_loop_returns (order : list Service) (σ : Sys World) :
  ∃ b σ', start_loop config_dir fakeclock order σ = (Ret b, σ').
Proof.
  revert σ. induction order as [|s rest IH]; intros σ; simpl; [by eexists _, _|].
  unfold bind. rewrite start_service_cases.
  destruct (spawn_and_gate _ _ _ _) as [[[]|e] σ2]; simpl; eauto.
Qed.

(** At the first service whose spawn or gate fails the loop ends with
    [False]; nothing more is spawned, and the globals are as the
    failing step left them. *)
Lemma start_loop_first_failure (pre : list Service) (s : Service)
    (post : list Service) (σ σ1 : Sys World) (r : result bool) (σ2 : Sys World) :
  all_up config_dir fakeclock pre σ σ1 →
  spawn_and_gate config_dir fakeclock s (announced s σ1) = (r, σ2) →
  r ≠ Ret true →
  ∃ σ', start_loop config_dir fakeclock (pre ++ s :: post) σ = (Ret false, σ')
        ∧ same_fleet σ2 σ' ∧ trace σ' = trace σ2 ∧ world σ' = world σ2.
Proof.
  induction 1 as [σ|s0 rest σ σa σb Hstep _ IH]; intros Hfail Hr.
  - simpl. unfold bind. rewrite start_service_cases, Hfail.
    destruct r as [[]|e]; [done | |]; simpl; eexists; (split_and!; [done | by split | done | done]).
  - simpl. unfold bind. rewrite start_service_cases, Hstep. simpl. by apply IH.
Qed.

(** While everything comes up, each process spawned is appended, in
    order, and stays. *)
Lemma all_up_fleet (order : list Service) (σ σ1 : Sys World) :
  all_up config_dir fakeclock order σ σ1 →
  challSrvProcess σ1 = challSrvProcess σ
  ∧ ∃ ps, processes σ1 = processes σ ++ ps ∧ args <$> ps = cmd <$> order.
Proof.
  induction 1 as [σ|s rest σ σa σb Hstep _ [IHc (ps & IHps & IHargs)]].
  - split; [done|]. exists []. by rewrite app_nil_r.
  - apply spawn_and_gate_fleet in Hstep
      as [Hc [(e & ? & _)|(child & tr & _ & [[_ Hps]|[? _]])]]; try done.
    simpl in Hc, Hps. split; [congruence|].
    exists (mkPopen child (cmd s) (cmd s) :: ps). split.
    + rewrite IHps, Hps. by rewrite <- app_assoc.
    + rewrite !fmap_cons. simpl. by rewrite IHargs.
Qed.

(** The step that failed, read from its calls: nothing is dropped
    from the list but what a poll of this very step found exited. *)
Lemma failed_step_remains (s : Service) (σ1 : Sys World) (r : result bool)
    (σ2 : Sys World) :
  spawn_and_gate config_dir fakeclock s (announced s σ1) = (r, σ2) →
  r ≠ Ret true →
  ∃ evs, trace σ2 = trace σ1 ++ evs
         ∧ remains_after_failure (processes σ1) s
             (child_env (os_environ (world σ1)) fakeclock) r evs (processes σ2)
         ∧ (∀ q, q ∈ processes σ1 →
                 q ∈ processes σ2 ∨ ∃ c, EvPoll q (Some c) ∈ evs).
Proof.
  intros Hstep Hr.
  apply spawn_and_gate_fleet in Hstep
    as [_ [(e & -> & Hps & Htr)
          |(child & tr & Htr & [[Hnf Hps]|(-> & rs & Hlen & Hdead & Hps & tr0 & ->)])]];
    simpl in *.
  - eexists. split; [exact Htr|]. split; [by left|].
    intros q Hq. left. by rewrite Hps.
  - eexists. split; [exact Htr|]. split.
    + destruct r as [[]|e]; try done. right. eauto.
    + intros q Hq. left. rewrite Hps. apply elem_of_app. by left.
  - eexists. split; [exact Htr|]. split.
    + exists child, tr0, rs. done.
    + intros q Hq.
      destruct (sweep_cases _ rs q Hlen (proj2 (elem_of_app _ _ q) (or_introl Hq)))
        as [Halive|[c Hc]].
      * left. by rewrite Hps.
      * right. exists c. apply elem_of_cons. right.
        apply elem_of_app. right. apply elem_of_app. by left.
Qed.

(** The loop, case by case: every service came up, or there is a
    first one whose spawn or gate failed. *)
Lemma start_loop_cases (order : list Service) (σ : Sys World) :
  (∃ σ1, all_up config_dir fakeclock order σ σ1)
  ∨ (∃ pre s post σ1 r σ2,
       order = pre ++ s :: post
       ∧ all_up config_dir fakeclock pre σ σ1
       ∧ spawn_and_gate config_dir fakeclock s (announced s σ1) = (r, σ2)
       ∧ r ≠ Ret true).
Proof.
  revert σ. induction order as [|s rest IH]; intros σ.
  - left. eexists. constructor.
  - destruct (spawn_and_gate config_dir fakeclock s (announced s σ)) as [r σa] eqn:Hstep.
    destruct r as [[|]|e].
    + destruct (IH σa) as [[σ1 Hup]|(pre & s' & post & σ1 & r & σ2 & -> & Hup & Hs' & Hr)].
      * left. exists σ1. by econstructor.
      * right. exists (s :: pre), s', post, σ1, r, σ2.
        split_and!; [done| |done|done]. by econstructor.
    + right. exists [], s, rest, σ, (Ret false), σa.
      split_and!; [done|constructor|done|done].
    + right. exists [], s, rest, σ, (Raise e), σa.
      split_and!; [done|constructor|done|done].
Qed.
End StartFacts.

Section StartTheorem.
Context `{os : OS World}.
Variables (config_dir : string) (pop : gset Service → Service).
Variable walk : gset Service → list Service.
Hypothesis pop_elem : ∀ X : gset Service, X ≠ ∅ → pop X ∈ X.

(** C2, as the code has it. [start], on any table and whatever the
    operating system answers.  Should the sidecar fail to come up,
    its exception leaves [start].  Otherwise either every service, in
    scheduler order, is spawned and passes its gate, or there is a first
    one whose spawn or gate fails; [start] returns [True] exactly in the
    first case with the scheduler ending without raising.  At the first
    service whose spawn or gate fails [start] returns [False] and spawns
    nothing more; nothing is rolled back: the processes started before
    are in the running list in start order when the failing step
    begins, and every one of them is still there when [start] returns,
    unless a poll made by this very step (a sweep of the liveness check
    of its port wait) found it exited; the step's calls end with that
    sweep when its gate answered [False], and the list is then what the
    sweep found alive. *)
Theorem start_stops_at_first_failure (services : list Service)
    (fakeclock : option string) (σ : Sys World) :
  ∃ (order : list Service) (e : toposort_end) (res : result bool) (σ' : Sys World),
    _service_toposort pop services = Some (order, e)
    ∧ start_on config_dir pop walk services fakeclock σ = Some (res, σ')
    ∧ match startChallSrv (handlers_installed σ) with
      | (Raise ex, σ0) => res = Raise ex ∧ σ' = σ0
      | (Ret _, σ0) =>
          (res = Ret true ↔
             e = Exhausted ∧ ∃ σ1, all_up config_dir fakeclock order σ0 σ1)
          ∧ ((∃ σ1, all_up config_dir fakeclock order σ0 σ1)
             ∨ (∃ pre s post σ1 r σ2,
                  order = pre ++ s :: post
                  ∧ all_up config_dir fakeclock pre σ0 σ1
                  ∧ spawn_and_gate config_dir fakeclock s (announced s σ1) = (r, σ2)
                  ∧ r ≠ Ret true))
          ∧ (∀ pre s post σ1 r σ2,
               order = pre ++ s :: post →
               all_up config_dir fakeclock pre σ0 σ1 →
               spawn_and_gate config_dir fakeclock s (announced s σ1) = (r, σ2) →
               r ≠ Ret true →
               res = Ret false
               ∧ trace σ' = trace σ2
               ∧ processes σ' = processes σ2
               ∧ (∃ ps, processes σ1 = processes σ0 ++ ps
                        ∧ args <$> ps = cmd <$> pre)
               ∧ ∃ evs,
                   trace σ2 = trace σ1 ++ evs
                   ∧ remains_after_failure (processes σ1) s
                       (child_env (os_environ (world σ1)) fakeclock) r evs
                       (processes σ2)
                   ∧ (∀ q, q ∈ processes σ1 →
                           q ∈ processes σ' ∨ ∃ c, EvPoll q (Some c) ∈ evs))
      end.
Proof.
  destruct (toposort_run pop pop_elem services) as (order & Bf & Hrun & _).
  set (e := if decide (Bf = ∅) then Exhausted else Unsatisfied Bf) in *.
  exists order, e.
  unfold start_on. rewrite Hrun. simpl.
  destruct (start_gen config_dir walk (order, e) fakeclock σ) as [res σ'] eqn:Hgen.
  exists res, σ'. split_and!; [done | done |].
  unfold start_gen, bind at 1, bind at 1, emit in Hgen.
  cbn [fst snd world processes challSrvProcess stdout trace] in Hgen.
  change (mkSys (world σ) (processes σ) (challSrvProcess σ) (stdout σ)
            ((trace σ ++ [EvSignalHandler SIGTERM]) ++ [EvSignalHandler SIGINT]))
    with (handlers_installed σ) in Hgen.
  unfold bind at 1 in Hgen.
  destruct (startChallSrv (handlers_installed σ)) as [[rc|ex] σ0] eqn:Hside.
  2: { by injection Hgen as <- <-. }
  unfold bind at 1 in Hgen.
  destruct (start_loop_returns config_dir fakeclock order σ0) as (b & σL & HL).
  rewrite HL in Hgen.
  assert (Hfail : ∀ pre s post σ1 r σ2,
            order = pre ++ s :: post →
            all_up config_dir fakeclock pre σ0 σ1 →
            spawn_and_gate config_dir fakeclock s (announced s σ1) = (r, σ2) →
            r ≠ Ret true →
            b = false ∧ trace σL = trace σ2 ∧ processes σL = processes σ2
            ∧ (∃ ps, processes σ1 = processes σ0 ++ ps ∧ args <$> ps = cmd <$> pre)
            ∧ ∃ evs,
                trace σ2 = trace σ1 ++ evs
                ∧ remains_after_failure (processes σ1) s
                    (child_env (os_environ (world σ1)) fakeclock) r evs (processes σ2)
                ∧ (∀ q, q ∈ processes σ1 →
                        q ∈ processes σL ∨ ∃ c, EvPoll q (Some c) ∈ evs)).
  { intros pre s post σ1 r σ2 -> Hup Hstep Hr.
    destruct (start_loop_first_failure config_dir fakeclock pre s post σ0 σ1 r σ2
                Hup Hstep Hr) as (σF & HF & [Hps _] & Htr & _).
    rewrite HF in HL. injection HL as <- <-.
    split_and!; [done | done | done | |].
    - by destruct (all_up_fleet config_dir fakeclock pre σ0 σ1 Hup) as [_ ?].
    - destruct (failed_step_remains config_dir fakeclock s σ1 r σ2 Hstep Hr)
        as (evs & Hevs & Hrem & Hkept).
      exists evs. split_and!; [done | done |].
      intros q Hq. rewrite Hps. by apply Hkept. }
  pose proof (start_loop_cases config_dir fakeclock order σ0) as Hcases.
  destruct b; simpl in Hgen.
  - apply start_loop_true in HL as Hup.
    split_and!.
    + unfold e in *. destruct (decide (Bf = ∅)).
      * unfold bind, print, ret in Hgen. injection Hgen as <- <-.
        split; [eauto | done].
      * unfold bind, print, raise in Hgen. simpl in Hgen.
        rewrite print_all_spec in Hgen. injection Hgen as <- <-.
        split; [done | by intros [? _]].
    + done.
    + intros pre s post σ1 r σ2 Ho Hup' Hstep Hr.
      by destruct (Hfail pre s post σ1 r σ2 Ho Hup' Hstep Hr) as [? _].
  - injection Hgen as <- <-. split_and!.
    + split; [done|]. intros [_ [σ1 Hup]].
      apply start_loop_all_up in Hup. congruence.
    + done.
    + intros pre s post σ1 r σ2 Ho Hup' Hstep Hr.
      destruct (Hfail pre s post σ1 r σ2 Ho Hup' Hstep Hr) as (_ & ? & ? & ? & ?).
      done.
Qed.
End StartTheorem.

(** The run of [start] in which the process of [A], started and
    gated, exits while [B] waits for its port: the failure half of the
    theorem at work.  The step of [B] ends on the sweep that found the
    process of [A] dead, and that process alone is gone from the list. *)
Lemma start_stops_at_first_failure_witness :
  ∃ (σ0 σ1 σ2 σ' : Sys TestWorld) (evs : list event),
    startChallSrv (os := test_os dies_later) (handlers_installed (idle boot))
      = (Ret None, σ0)
    ∧ all_up (os := test_os dies_later) "test/config" None [svcA] σ0 σ1
    ∧ spawn_and_gate (os := test_os dies_later) "test/config" None svcB
        (announced svcB σ1) = (Ret false, σ2)
    ∧ start_on (os := test_os dies_later) "test/config" pop_first elements
        [svcA; svcB] None (idle boot) = Some (Ret false, σ')
    ∧ trace σ' = trace σ2
    ∧ processes σ' = processes σ2
    ∧ trace σ2 = trace σ1 ++ evs
    ∧ remains_after_failure (processes σ1) svcB
        (child_env (@os_environ TestWorld (test_os dies_later) (world σ1)) None)
        (Ret false) evs (processes σ2)
    ∧ (∀ q, q ∈ processes σ1 → q ∈ processes σ' ∨ ∃ c, EvPoll q (Some c) ∈ evs)
    ∧ processes σ1 = [proc 101 ["./bin/a"]]
    ∧ processes σ' = [proc 102 ["./bin/b"]].
Proof.
  destruct (start_stops_at_first_failure (os := test_os dies_later) "test/config"
              pop_first elements pop_first_elem [svcA; svcB] None (idle boot))
    as (order & e & res & σ' & Htopo & Hstart & Hcases).
  vm_compute in Htopo. injection Htopo as <- <-.
  set (σ0 := (startChallSrv (os := test_os dies_later)
                (handlers_installed (idle boot))).2).
  set (σ1 := (spawn_and_gate (os := test_os dies_later) "test/config" None svcA
                (announced svcA σ0)).2).
  set (σ2 := (spawn_and_gate (os := test_os dies_later) "test/config" None svcB
                (announced svcB σ1)).2).
  assert (Hside : startChallSrv (os := test_os dies_later)
                    (handlers_installed (idle boot)) = (Ret None, σ0))
    by (vm_compute; reflexivity).
  assert (HA : spawn_and_gate (os := test_os dies_later) "test/config" None svcA
                 (announced svcA σ0) = (Ret true, σ1))
    by (vm_compute; reflexivity).
  assert (HB : spawn_and_gate (os := test_os dies_later) "test/config" None svcB
                 (announced svcB σ1) = (Ret false, σ2))
    by (vm_compute; reflexivity).
  assert (Hup : all_up (os := test_os dies_later) "test/config" None [svcA] σ0 σ1)
    by (econstructor; [exact HA|constructor]).
  rewrite Hside in Hcases. destruct Hcases as (_ & _ & Hfail).
  destruct (Hfail [svcA] svcB [] σ1 (Ret false) σ2 eq_refl Hup HB)
    as (-> & Htr & Hps & _ & evs & Hevs & Hrem & Hkept); [done|].
  exists σ0, σ1, σ2, σ', evs.
  split_and!; [done|done|done|done|done|done|done|done|done| |].
  - vm_compute. reflexivity.
  - rewrite Hps. vm_compute. reflexivity.
Defined.

(** A calm start: the sidecar first, then the chain in dependency
    order, each process appended as it is spawned. *)
Example start_calm :
  ∃ σ' : Sys TestWorld,
    start_on (os := test_os calm) "test/config" pop_first elements chain_table None (idle boot)
      = Some (Ret true, σ')
    ∧ processes σ' = [proc 101 ["./bin/a"]; proc 102 ["./bin/b"]; proc 103 ["./bin/c"]]
    ∧ challSrvProcess σ' = Some (proc 100 (challSrv_argv "10.77.77.77")).
Proof.
  exists (final_state (start_on (os := test_os calm) "test/config" pop_first elements chain_table
                         None (idle boot))).
  split_and!; vm_compute; reflexivity.
Qed.

(** C2 as worded fails: the process of [A], started and gated, exits
    while [B] waits for its port; the liveness check of that wait drops
    it from the running list and [start] returns [False] with only the
    process of [B] listed. *)
Lemma start_no_rollback_counterexample :
  ∃ σ' : Sys TestWorld,
    start_on (os := test_os dies_later) "test/config" pop_first elements [svcA; svcB] None (idle boot)
      = Some (Ret false, σ')
    ∧ spawned (trace σ') = [proc 100 (challSrv_argv "10.77.77.77");
                            proc 101 ["./bin/a"]; proc 102 ["./bin/b"]]
    ∧ found_dead (trace σ') = [(proc 101 ["./bin/a"], 1%Z)]
    ∧ processes σ' = [proc 102 ["./bin/b"]].
Proof.
  exists (final_state (start_on (os := test_os dies_later) "test/config" pop_first elements
                         [svcA; svcB] None (idle boot))).
  split_and!; vm_compute; reflexivity.
Qed.

(** The third scenario of the design document: the second of three
    services never opens its port; [start] gives up after 1000 ticks of
    that wait, the first process still listed, and [stop] then ends it. *)
Example start_scenario_3 :
  ∃ σ1 σ2 : Sys TestWorld,
    start_on (os := test_os closed_port) "test/config" pop_first elements chain_table None (idle boot)
      = Some (Ret false, σ1)
    ∧ processes σ1 = [proc 101 ["./bin/a"]; proc 102 ["./bin/b"]]
    ∧ tw_ticks (world σ1) = 1002
    ∧ stop (os := test_os closed_port) σ1 = (Ret tt, σ2)
    ∧ processes σ2 = [] ∧ challSrvProcess σ2 = None
    ∧ signalled (trace σ2) = [proc 102 ["./bin/b"]; proc 101 ["./bin/a"];
                              proc 100 (challSrv_argv "10.77.77.77")].
Proof.
  exists (final_state (start_on (os := test_os closed_port) "test/config" pop_first elements
                         chain_table None (idle boot))).
  exists (stop (os := test_os closed_port)
            (final_state (start_on (os := test_os closed_port) "test/config" pop_first elements
                            chain_table None (idle boot)))).2.
  split_and!; vm_compute; reflexivity.
Qed.

(** ** The sidecar's start, and starting twice *)

(** One turn of the loop of [waitport]. *)
Lemma waitport_loop_step `{os : OS World} (n : nat) (port : Z) (prog : string)
    (chk : option (@M World bool)) (σ : Sys World) :
  waitport_loop (S n) port prog chk σ =
    match waitport_attempt port chk σ with
    | (Ret b, σ1) => (Ret b, σ1)
    | (Raise e, σ1) =>
        if decide (e = OSError ECONNREFUSED)
        then waitport_loop n port prog chk
               (mkSys (world σ1) (processes σ1) (challSrvProcess σ1)
                  (stdout σ1 ++ [LogWaiting port prog]) (trace σ1))
        else (Raise e, σ1)
    end.
Proof.
  cbn [waitport_loop]. unfold bind at 1, try_except, bind at 1.
  destruct (waitport_attempt port chk σ) as [[b|e] σ1]; [done|].
  unfold waitport_except.
  destruct (decide (e = OSError ECONNREFUSED)) as [->|Hne].
  - reflexivity.
  - destruct e as [| errno | |]; try done.
    destruct (Z.eqb_spec errno ECONNREFUSED) as [->|]; done.
Qed.

(** Without a predicate there is no [return False] to reach. *)
Lemma waitport_None_outcome `{os : OS World} (n : nat) (port : Z) (prog : string)
    (σ : Sys World) :
  ∃ σ', waitport_loop n port prog None σ = (Ret true, σ')
        ∨ ∃ e, waitport_loop n port prog None σ = (Raise e, σ').
Proof.
  destruct (waitport_loop_spec port prog None) with (n := n) (σ := σ)
    as (k & o & σ' & Heq & _ & Hk & _); [done | done |].
  exists σ'. rewrite Heq. destruct o; simpl; eauto.
  by destruct Hk as [_ [? ?]].
Qed.

(** X1. [waitport] called without a predicate never returns [False]:
    it returns [True] or raises.  So the [return False] that ends
    [startChallSrv] is never reached: [startChallSrv] returns [None] or
    raises, whatever the operating system answers. *)
Theorem startChallSrv_never_returns_false `{os : OS World} :
  (∀ (port : Z) (prog : string) (σ : Sys World),
     ∃ σ', waitport port prog None σ = (Ret true, σ')
           ∨ ∃ e, waitport port prog None σ = (Raise e, σ'))
  ∧ (∀ σ : Sys World,
       ∃ σ', startChallSrv σ = (Ret None, σ')
             ∨ ∃ e, startChallSrv σ = (Raise e, σ')).
Proof.
  split; [intros; apply waitport_None_outcome|].
  intros σ. destruct (startChallSrv σ) as [r σ'] eqn:H. exists σ'.
  enough (r = Ret None ∨ ∃ e, r = Raise e) as [->|[e ->]] by eauto.
  unfold startChallSrv, bind at 1, get_challSrvProcess in H.
  destruct (challSrvProcess σ) as [c|]; [injection H as <- _; eauto|].
  unfold bind at 1, environ in H.
  destruct (os_environ (world σ) !! "FAKE_DNS") as [dns|]; [|injection H as <- _; eauto].
  unfold bind at 1, run, bind at 1, environ, bind at 1, syscall_r in H.
  destruct (os_popen _ _ (world σ)) as [[child|e] w]; [|injection H as <- _; eauto].
  unfold ret at 1, bind at 1, set_challSrvProcess in H. cbn [fst snd] in H.
  unfold bind at 1, waitport in H.
  match type of H with context [waitport_loop ?n ?p ?g None ?s] =>
    destruct (waitport_None_outcome n p g s) as [σ1 [Heq|[e Heq]]]; rewrite Heq in H
  end; unfold ret in H; simpl in H; injection H as <- _; eauto.
Qed.

Section RestartFacts.
Context `{os : OS World}.
Variables (config_dir : string) (pop : gset Service → Service).
Variable walk : gset Service → list Service.

Lemma start_loop_challSrv (fakeclock : option string) (order : list Service)
    (σ : Sys World) :
  challSrvProcess (start_loop config_dir fakeclock order σ).2 = challSrvProcess σ.
Proof.
  revert σ. induction order as [|s rest IH]; intros σ; [done|].
  simpl. unfold bind. rewrite start_service_cases.
  destruct (spawn_and_gate config_dir fakeclock s (announced s σ)) as [[b|e] σ1] eqn:Hstep;
    apply spawn_and_gate_fleet in Hstep as [Hc _]; simpl in *; [|done].
  destruct b; simpl; [|done]. by rewrite IH.
Qed.

Lemma start_on_tracks_sidecar (services : list Service) (fakeclock : option string)
    (σ σ1 : Sys World) (b : bool) :
  start_on config_dir pop walk services fakeclock σ = Some (Ret b, σ1) →
  is_Some (challSrvProcess σ1).
Proof.
  unfold start_on. intros Hfirst.
  destruct (_service_toposort pop services) as [gen|]; [|done].
  simpl in Hfirst. injection Hfirst as Hfirst.
  unfold start_gen, bind at 1, bind at 1, emit in Hfirst.
  cbn [fst snd world processes challSrvProcess stdout trace] in Hfirst.
  unfold bind at 1 in Hfirst.
  match type of Hfirst with context [startChallSrv ?s] =>
    destruct (startChallSrv s) as [[rc|ex] σ0] eqn:Hside; [|done]
  end.
  apply startChallSrv_tracked in Hside as (_ & Hsome & _).
  unfold bind at 1 in Hfirst.
  pose proof (start_loop_challSrv fakeclock gen.1 σ0) as Hc.
  destruct (start_loop config_dir fakeclock gen.1 σ0) as [[ok|e] σL]; [|done].
  simpl in Hc. rewrite <- Hc in Hsome.
  destruct ok; simpl in Hfirst.
  - destruct gen.2.
    + unfold bind, print, ret in Hfirst. by injection Hfirst as _ <-.
    + unfold bind, print, raise in Hfirst. simpl in Hfirst.
      rewrite print_all_spec in Hfirst. done.
  - unfold ret in Hfirst. by injection Hfirst as _ <-.
Qed.

Lemma start_on_slot_taken (services : list Service) (fakeclock : option string)
    (σ : Sys World) :
  (∀ X : gset Service, X ≠ ∅ → pop X ∈ X) →
  is_Some (challSrvProcess σ) →
  start_on config_dir pop walk services fakeclock σ
    = Some (Raise (Exception "startChallSrv called more than once"),
            handlers_installed σ).
Proof.
  intros pop_elem [c Hc]. unfold start_on.
  destruct (toposort_run pop pop_elem services) as (out & Bf & -> & _).
  simpl. f_equal.
  unfold start_gen, bind at 1, bind at 1, emit.
  cbn [fst snd world processes challSrvProcess stdout trace].
  unfold bind at 1, startChallSrv, bind at 1, get_challSrvProcess.
  simpl. rewrite Hc. unfold raise, handlers_installed. by rewrite Hc.
Qed.

(** X2. [start] twice without a [stop] in between: when the first call
    returned, the guard of [startChallSrv] makes the second call raise
    as soon as the handlers are installed; nothing is spawned and the
    fleet is left as it was. *)
Theorem second_start_raises (services services' : list Service)
    (fakeclock fakeclock' : option string) (σ σ1 : Sys World) (b : bool) :
  (∀ X : gset Service, X ≠ ∅ → pop X ∈ X) →
  start_on config_dir pop walk services fakeclock σ = Some (Ret b, σ1) →
  start_on config_dir pop walk services' fakeclock' σ1
    = Some (Raise (Exception "startChallSrv called more than once"),
            handlers_installed σ1).
Proof.
  intros pop_elem Hfirst. apply start_on_slot_taken; [done|].
  by eapply start_on_tracks_sidecar.
Qed.
End RestartFacts.

Lemma second_start_raises_witness :
  start_on (os := test_os calm) "test/config" pop_first elements [svcA; svcB] (Some "then")
    (final_state (start_on (os := test_os calm) "test/config" pop_first elements chain_table
                    None (idle boot)))
  = Some (Raise (Exception "startChallSrv called more than once"),
          handlers_installed
            (final_state (start_on (os := test_os calm) "test/config" pop_first elements
                            chain_table None (idle boot)))).
Proof.
  apply (second_start_raises (os := test_os calm) "test/config" pop_first elements
           chain_table [svcA; svcB] None (Some "then") (idle boot) _ true
           pop_first_elem).
  vm_compute; reflexivity.
Defined.

(** ** No child is lost *)

Lemma spawned_app (l k : list event) : spawned (l ++ k) = spawned l ++ spawned k.
Proof. apply omap_app. Qed.

Lemma reaped_app_l (tr evs : list event) (p : Popen) :
  reaped tr p → reaped (tr ++ evs) p.
Proof.
  intros [[c H]|[H [c H']]]; [left|right]; [exists c|split; [|exists c]];
    apply elem_of_app; by left.
Qed.

Lemma reaped_app_r (tr evs : list event) (p : Popen) :
  reaped evs p → reaped (tr ++ evs) p.
Proof.
  intros [[c H]|[H [c H']]]; [left|right]; [exists c|split; [|exists c]];
    apply elem_of_app; by right.
Qed.

Lemma keeps_account_refl {World} (σ : Sys World) : keeps_account σ σ.
Proof.
  exists []. rewrite app_nil_r. split_and!; [done|by left|].
  intros p Hp. by apply elem_of_nil in Hp.
Qed.

Lemma keeps_account_trans {World} (σ1 σ2 σ3 : Sys World) :
  keeps_account σ1 σ2 → keeps_account σ2 σ3 → keeps_account σ1 σ3.
Proof.
  intros (e1 & Ht1 & Hk1 & Hs1) (e2 & Ht2 & Hk2 & Hs2).
  exists (e1 ++ e2). split_and!.
  - by rewrite Ht2, Ht1, app_assoc.
  - intros p Hp. destruct (Hk1 p Hp) as [H|H]; [|right; by apply reaped_app_l].
    destruct (Hk2 p H) as [H'|H']; [by left|right; by apply reaped_app_r].
  - intros p Hp. rewrite spawned_app in Hp. apply elem_of_app in Hp as [Hp|Hp].
    + destruct (Hs1 p Hp) as [H|H]; [|right; by apply reaped_app_l].
      destruct (Hk2 p H) as [H'|H']; [by left|right; by apply reaped_app_r].
    + destruct (Hs2 p Hp) as [H|H]; [by left|right; by apply reaped_app_r].
Qed.

(** A step that spawns nothing and leaves the globals alone. *)
Lemma keeps_account_quiet {World} (σ σ' : Sys World) (evs : list event) :
  trace σ' = trace σ ++ evs → spawned evs = [] →
  processes σ' = processes σ → challSrvProcess σ' = challSrvProcess σ →
  keeps_account σ σ'.
Proof.
  intros Ht Hs Hp Hc. exists evs. split_and!; [done| |].
  - intros p Hheld. left. unfold tracked in *. by rewrite Hp, Hc.
  - intros p Hin. rewrite Hs in Hin. by apply elem_of_nil in Hin.
Qed.

Lemma accounted_keeps {World} (σ σ' : Sys World) :
  accounted σ → keeps_account σ σ' → accounted σ'.
Proof.
  intros Hacc (evs & Ht & Hk & Hs) p Hp. rewrite Ht in *.
  rewrite spawned_app in Hp. apply elem_of_app in Hp as [Hp|Hp].
  - destruct (Hacc p Hp) as [H|H]; [|right; by apply reaped_app_l].
    destruct (Hk p H) as [H'|H']; [by left|right; by apply reaped_app_r].
  - destruct (Hs p Hp) as [H|H]; [by left|right; by apply reaped_app_r].
Qed.

Section Account.
Context `{os : OS World}.

Lemma keeps_ret {A} (a : A) : keeps (ret a).
Proof. intros σ. apply keeps_account_refl. Qed.

Lemma keeps_raise {A} (e : exn) : keeps (raise (A := A) e).
Proof. intros σ. apply keeps_account_refl. Qed.

Lemma keeps_bind {A B} (m : M A) (k : A → M B) :
  keeps m → (∀ a, keeps (k a)) → keeps (bind m k).
Proof.
  intros Hm Hk σ. unfold bind. specialize (Hm σ).
  destruct (m σ) as [[a|e] σ1]; simpl in *; [|done].
  eapply keeps_account_trans; [done|apply Hk].
Qed.

Lemma keeps_try_except {A} (m : M A) (h : exn → M A) :
  keeps m → (∀ e, keeps (h e)) → keeps (try_except m h).
Proof.
  intros Hm Hh σ. unfold try_except. specialize (Hm σ).
  destruct (m σ) as [[a|e] σ1]; simpl in *; [done|].
  eapply keeps_account_trans; [done|apply Hh].
Qed.

Lemma keeps_print (l : log_line) : keeps (print l).
Proof.
  intros σ. apply (keeps_account_quiet _ _ []); simpl; by rewrite ?app_nil_r.
Qed.

Lemma keeps_print_all (ls : list log_line) : keeps (print_all ls).
Proof. intros σ. rewrite print_all_spec. by apply (keeps_account_quiet _ _ []); simpl; rewrite ?app_nil_r. Qed.

Lemma keeps_emit (ev : event) : spawned [ev] = [] → keeps (emit ev).
Proof. intros Hs σ. by apply (keeps_account_quiet _ _ [ev]). Qed.

Lemma keeps_syscall {A} (f : World → A * World) (ev : A → event) :
  (∀ a, spawned [ev a] = []) → keeps (syscall f ev).
Proof.
  intros Hs σ. unfold syscall. destruct (f (world σ)) as [a w].
  by apply (keeps_account_quiet _ _ [ev a]).
Qed.

Lemma keeps_syscall_r {A} (f : World → result A * World) (ev : result A → event) :
  (∀ r, spawned [ev r] = []) → keeps (syscall_r f ev).
Proof.
  intros Hs σ. unfold syscall_r. destruct (f (world σ)) as [r w].
  by apply (keeps_account_quiet _ _ [ev r]).
Qed.

Lemma keeps_environ : keeps environ.
Proof. intros σ. apply keeps_account_refl. Qed.

Lemma keeps_get_processes : keeps get_processes.
Proof. intros σ. apply keeps_account_refl. Qed.

Lemma keeps_get_challSrvProcess : keeps get_challSrvProcess.
Proof. intros σ. apply keeps_account_refl. Qed.

Lemma keeps_poll (p : Popen) : keeps (poll p).
Proof. by apply keeps_syscall. Qed.

Lemma keeps_send_signal (p : Popen) (sig : Z) : keeps (send_signal p sig).
Proof. by apply keeps_syscall_r. Qed.

Lemma keeps_wait (p : Popen) : keeps (wait p).
Proof. by apply keeps_syscall_r. Qed.

Lemma keeps_sleep : keeps sleep.
Proof. by apply keeps_syscall. Qed.

Lemma keeps_connect (port : Z) : keeps (connect port).
Proof. by apply keeps_syscall_r. Qed.

Lemma keeps_close (port : Z) : keeps (close port).
Proof. by apply keeps_emit. Qed.

Lemma keeps_check_call (argv : list string) : keeps (check_call argv).
Proof. by apply keeps_syscall_r. Qed.

Lemma spawned_poll_events (prs : list (Popen * option Z)) :
  spawned (poll_events prs) = [].
Proof. induction prs as [|pr prs IH]; [done|]. simpl. apply IH. Qed.

Lemma keeps_check : keeps check.
Proof.
  intros σ. destruct (check_spec σ) as (rs & σ' & Heq & Hlen & Ht & Hp & _ & Hc).
  simpl in *. rewrite Heq. simpl.
  exists (poll_events (zip (processes σ) rs)). split_and!; [done| |].
  - intros p [Hin|Hside].
    + destruct (sweep_cases _ _ p Hlen Hin) as [H|[c H]].
      * left. left. by rewrite Hp.
      * right. left. by exists c.
    + left. right. by rewrite Hc.
  - intros p Hin. rewrite spawned_poll_events in Hin. by apply elem_of_nil in Hin.
Qed.

Lemma keeps_waitport_attempt (port : Z) (chk : option (@M World bool)) :
  (∀ c, chk = Some c → keeps c) → keeps (waitport_attempt port chk).
Proof.
  intros Hchk. unfold waitport_attempt.
  apply keeps_bind; [apply keeps_sleep|intros _].
  apply keeps_bind.
  - destruct chk as [c|]; [|apply keeps_ret].
    apply keeps_bind; [by apply Hchk|intros ok].
    apply keeps_bind; [by apply keeps_emit|intros _; apply keeps_ret].
  - intros ok. destruct (negb ok); [apply keeps_ret|].
    apply keeps_bind; [apply keeps_connect|intros _].
    apply keeps_bind; [apply keeps_close|intros _; apply keeps_ret].
Qed.

Lemma keeps_waitport_loop (n : nat) (port : Z) (prog : string)
    (chk : option (@M World bool)) :
  (∀ c, chk = Some c → keeps c) → keeps (waitport_loop n port prog chk).
Proof.
  intros Hchk. induction n as [|n IH]; [apply keeps_raise|].
  simpl. apply keeps_bind.
  - apply keeps_try_except.
    + apply keeps_bind; [by apply keeps_waitport_attempt|intros b; apply keeps_ret].
    + intros e. unfold waitport_except. destruct e; try apply keeps_raise.
      destruct (Z.eqb _ _); [|apply keeps_raise].
      apply keeps_bind; [apply keeps_print|intros _; apply keeps_ret].
  - intros [b|]; [apply keeps_ret|apply IH].
Qed.

Lemma keeps_gate (config_dir : string) (s : Service) (p : Popen) :
  keeps (gate config_dir s p).
Proof.
  unfold gate. destruct (grpc_addr s) as [addr|].
  - apply keeps_bind; [apply keeps_check_call|intros _; apply keeps_ret].
  - apply keeps_waitport_loop. intros c [= <-]. apply keeps_check.
Qed.

(** [run] and the assignment that follows it, taken together: the new
    process is held as soon as it exists. *)
Lemma keeps_spawn_and_gate (config_dir : string) (fakeclock : option string)
    (s : Service) : keeps (spawn_and_gate config_dir fakeclock s).
Proof.
  intros σ. unfold spawn_and_gate, bind at 1, run, bind at 1, environ, bind at 1, syscall_r.
  destruct (os_popen _ _ (world σ)) as [[child|e] w]; simpl.
  - unfold bind at 1, append_process, bind at 1, get_processes, set_processes. simpl.
    eapply keeps_account_trans; [|apply keeps_gate].
    eexists [_]. split_and!; [done| |]; simpl.
    + intros p [Hin|Hside]; left; [left|by right].
      simpl. apply elem_of_app. by left.
    + intros p Hin. apply list_elem_of_singleton in Hin as ->. left. left.
      simpl. apply elem_of_app. right. by apply list_elem_of_singleton.
  - by eapply (keeps_account_quiet _ _ [_]).
Qed.

Lemma keeps_start_service (config_dir : string) (fakeclock : option string)
    (s : Service) : keeps (start_service config_dir fakeclock s).
Proof.
  unfold start_service. apply keeps_bind; [apply keeps_print|intros _].
  apply keeps_try_except; [apply keeps_spawn_and_gate|intros e].
  apply keeps_bind; [apply keeps_print|intros _; apply keeps_ret].
Qed.

Lemma keeps_start_loop (config_dir : string) (fakeclock : option string)
    (order : list Service) : keeps (start_loop config_dir fakeclock order).
Proof.
  induction order as [|s rest IH]; [apply keeps_ret|].
  simpl. apply keeps_bind; [apply keeps_start_service|intros ok].
  destruct (negb ok); [apply keeps_ret|apply IH].
Qed.

Lemma keeps_startChallSrv : keeps startChallSrv.
Proof.
  intros σ. unfold startChallSrv, bind at 1, get_challSrvProcess.
  destruct (challSrvProcess σ) as [c|] eqn:Hslot; [apply keeps_account_refl|].
  unfold bind at 1, environ.
  destruct (os_environ (world σ) !! "FAKE_DNS") as [dns|]; [|apply keeps_account_refl].
  unfold bind at 1, run, bind at 1, environ, bind at 1, syscall_r.
  destruct (os_popen _ _ (world σ)) as [[child|e] w]; simpl.
  - unfold bind at 1, set_challSrvProcess. simpl.
    eapply keeps_account_trans.
    2:{ apply (keeps_bind (waitport _ _ None) _).
        - apply keeps_waitport_loop. by intros c [=].
        - intros ok. destruct (negb ok); apply keeps_ret. }
    eexists [_]. split_and!; [done| |]; simpl.
    + intros p [Hin|Hside]; [left; by left|]. congruence.
    + intros p Hin. apply list_elem_of_singleton in Hin as ->. left. by right.
  - by eapply (keeps_account_quiet _ _ [_]).
Qed.

Lemma keeps_start_gen (config_dir : string) (walk : gset Service → list Service)
    (gen : list Service * toposort_end)
    (fakeclock : option string) : keeps (start_gen config_dir walk gen fakeclock).
Proof.
  unfold start_gen.
  apply keeps_bind; [by apply keeps_emit|intros _].
  apply keeps_bind; [by apply keeps_emit|intros _].
  apply keeps_bind; [apply keeps_startChallSrv|intros _].
  apply keeps_bind; [apply keeps_start_loop|intros ok].
  destruct (negb ok); [apply keeps_ret|].
  destruct gen.2.
  - apply keeps_bind; [apply keeps_print|intros _; apply keeps_ret].
  - apply keeps_bind; [apply keeps_print|intros _].
    apply keeps_bind; [apply keeps_print_all|intros _; apply keeps_raise].
Qed.

Lemma keeps_terminate_if_alive (p : Popen) : keeps (terminate_if_alive p).
Proof.
  unfold terminate_if_alive. apply keeps_bind; [apply keeps_poll|intros [c|]].
  - apply keeps_ret.
  - apply keeps_bind; [apply keeps_send_signal|intros _].
    apply keeps_bind; [apply keeps_wait|intros _; apply keeps_ret].
Qed.

(** A [terminate_if_alive] that returns has reaped its process. *)
Lemma terminate_if_alive_reaps (p : Popen) (σ σ' : Sys World) :
  terminate_if_alive p σ = (Ret tt, σ') →
  ∃ evs, trace σ' = trace σ ++ evs ∧ spawned evs = [] ∧ reaped evs p
         ∧ processes σ' = processes σ ∧ challSrvProcess σ' = challSrvProcess σ.
Proof.
  intros Hrun. destruct (terminate_if_alive_spec p σ) as (h & w & Heq).
  rewrite Heq in Hrun. destruct (handling_exn h) as [e|] eqn:Hh; [done|].
  injection Hrun as <-. exists (events_of p h). simpl. split_and!; try done.
  - unfold events_of. destruct (h_poll h); [done|]. by destruct (h_signal h).
  - unfold events_of, handling_exn in *. destruct (h_poll h) as [c|].
    + left. exists c. apply elem_of_cons. by left.
    + destruct (h_signal h) as [[]|]; [|done]. destruct (h_wait h) as [c|]; [|done].
      right. split; [|exists c]; set_solver.
Qed.

Lemma stop_loop_reaps (ps : list Popen) (σ σ' : Sys World) :
  stop_loop ps σ = (Ret tt, σ') →
  ∃ evs, trace σ' = trace σ ++ evs ∧ spawned evs = []
         ∧ (∀ p, p ∈ ps → reaped evs p)
         ∧ processes σ' = processes σ ∧ challSrvProcess σ' = challSrvProcess σ.
Proof.
  revert σ. induction ps as [|q ps IH]; intros σ Hrun.
  - injection Hrun as <-. exists []. rewrite app_nil_r. split_and!; try done.
    intros p Hp. by apply elem_of_nil in Hp.
  - simpl in Hrun. unfold bind in Hrun.
    destruct (terminate_if_alive q σ) as [[[]|e] σ1] eqn:Hq; [|done].
    apply terminate_if_alive_reaps in Hq as (e1 & Ht1 & Hs1 & Hr1 & Hp1 & Hc1).
    apply IH in Hrun as (e2 & Ht2 & Hs2 & Hr2 & Hp2 & Hc2).
    exists (e1 ++ e2). split_and!.
    + by rewrite Ht2, Ht1, app_assoc.
    + by rewrite spawned_app, Hs1, Hs2.
    + intros p Hp. apply elem_of_cons in Hp as [->|Hp].
      * by apply reaped_app_l.
      * apply reaped_app_r. by apply Hr2.
    + congruence.
    + congruence.
Qed.

Lemma keeps_stop_loop (ps : list Popen) : keeps (stop_loop ps).
Proof.
  induction ps as [|p ps IH]; [apply keeps_ret|].
  simpl. apply keeps_bind; [apply keeps_terminate_if_alive|intros _; apply IH].
Qed.

Lemma keeps_stopChallSrv : keeps stopChallSrv.
Proof.
  intros σ. unfold stopChallSrv, bind at 1, get_challSrvProcess.
  destruct (challSrvProcess σ) as [c|] eqn:Hslot; [|apply keeps_account_refl].
  unfold bind. destruct (terminate_if_alive c σ) as [[[]|e] σ1] eqn:Hc.
  - apply terminate_if_alive_reaps in Hc as (evs & Ht & Hs & Hr & Hp & Hc).
    unfold set_challSrvProcess. simpl. exists evs. split_and!; [done| |].
    + intros p [Hin|Hside]; [left; left; simpl; by rewrite Hp|].
      right. congruence.
    + intros p Hin. rewrite Hs in Hin. by apply elem_of_nil in Hin.
  - pose proof (keeps_terminate_if_alive c σ) as H. by rewrite Hc in H.
Qed.

Lemma keeps_stop : keeps stop.
Proof.
  intros σ. unfold stop, bind at 1, get_processes, bind at 1.
  destruct (stop_loop (rev (processes σ)) σ) as [[[]|e] σ1] eqn:Hloop.
  - apply stop_loop_reaps in Hloop as (evs & Ht & Hs & Hr & Hp & Hc).
    unfold bind at 1, set_processes. simpl.
    eapply keeps_account_trans; [|apply keeps_stopChallSrv].
    exists evs. split_and!; [done| |]; simpl.
    + intros p [Hin|Hside]; [right; apply Hr; apply list_elem_of_In, in_rev; rewrite rev_involutive; by apply list_elem_of_In|].
      left. right. simpl. congruence.
    + intros p Hin. rewrite Hs in Hin. by apply elem_of_nil in Hin.
  - pose proof (keeps_stop_loop (rev (processes σ)) σ) as H. by rewrite Hloop in H.
Qed.

(** After a [stop] that returns, nothing is held. *)
Lemma stop_returns_empty (σ σ' : Sys World) :
  stop σ = (Ret tt, σ') → processes σ' = [] ∧ challSrvProcess σ' = None.
Proof.
  intros Hrun. destruct (stop_spec σ) as (hs & w & H). simpl in H.
  destruct H as [(_ & _ & [[_ Heq]|[(c & h & _ & _ & Heq)|(c & h & e & _ & _ & Heq)]])
                |(hs0 & h & e & _ & _ & _ & _ & Heq)];
    rewrite Heq in Hrun; by simplify_eq.
Qed.
End Account.


(** X3. Every operation of the supervisor keeps the account of its
    children: from a state in which every process spawned so far is
    still held (running list or sidecar slot) or was reaped, [check],
    [startChallSrv], [stopChallSrv], [stop] and [start] lead, whatever
    they return or raise, to a state with the same property. *)
Theorem supervisor_keeps_account `{os : OS World} (config_dir : string)
    (pop : gset Service → Service) (walk : gset Service → list Service)
    (σ : Sys World) :
  accounted σ →
  accounted (check σ).2
  ∧ accounted (startChallSrv σ).2
  ∧ accounted (stopChallSrv σ).2
  ∧ accounted (stop σ).2
  ∧ ∀ services fakeclock r σ',
      start_on config_dir pop walk services fakeclock σ = Some (r, σ') → accounted σ'.
Proof.
  intros Hacc. split_and!.
  - eapply accounted_keeps; [done|apply keeps_check].
  - eapply accounted_keeps; [done|apply keeps_startChallSrv].
  - eapply accounted_keeps; [done|apply keeps_stopChallSrv].
  - eapply accounted_keeps; [done|apply keeps_stop].
  - intros services fakeclock r σ' Hrun. unfold start_on in Hrun.
    destruct (_service_toposort pop services) as [gen|]; [|done].
    simpl in Hrun. injection Hrun as Hrun.
    eapply accounted_keeps; [done|].
    pose proof (keeps_start_gen config_dir walk gen fakeclock σ) as H.
    by rewrite Hrun in H.
Qed.

Lemma accounted_fresh {World} (w : World) (ps : list Popen) (c : option Popen)
    (out : list log_line) : accounted (mkSys w ps c out []).
Proof. intros p Hp. by apply elem_of_nil in Hp. Qed.

(** The invariant at work.  A fresh supervisor runs [start]: the
    sidecar and two services are spawned, the process of [A] exits
    while [B] waits for its port, and [start] returns [False]; the
    account is kept (the process of [A] was found dead by a poll, the
    other two are held).  From the state that [start] left, each
    operation keeps it again. *)
Lemma supervisor_keeps_account_witness :
  accounted
    (final_state (start_on (os := test_os dies_later) "test/config" pop_first elements
                    [svcA; svcB] None (idle boot)))
  ∧ spawned (trace (final_state (start_on (os := test_os dies_later) "test/config"
                                   pop_first elements [svcA; svcB] None (idle boot))))
    = [proc 100 (challSrv_argv "10.77.77.77"); proc 101 ["./bin/a"]; proc 102 ["./bin/b"]]
  ∧ accounted
      (check (os := test_os dies_later)
         (final_state (start_on (os := test_os dies_later) "test/config" pop_first
                         elements [svcA; svcB] None (idle boot)))).2
  ∧ accounted
      (startChallSrv (os := test_os dies_later)
         (final_state (start_on (os := test_os dies_later) "test/config" pop_first
                         elements [svcA; svcB] None (idle boot)))).2
  ∧ accounted
      (stopChallSrv (os := test_os dies_later)
         (final_state (start_on (os := test_os dies_later) "test/config" pop_first
                         elements [svcA; svcB] None (idle boot)))).2
  ∧ accounted
      (stop (os := test_os dies_later)
         (final_state (start_on (os := test_os dies_later) "test/config" pop_first
                         elements [svcA; svcB] None (idle boot)))).2
  ∧ ∀ services fakeclock r σ',
      start_on (os := test_os dies_later) "test/config" pop_first elements services
        fakeclock
        (final_state (start_on (os := test_os dies_later) "test/config" pop_first
                        elements [svcA; svcB] None (idle boot))) = Some (r, σ') →
      accounted σ'.
Proof.
  assert (Hfresh : accounted (idle boot)).
  { intros p Hp. vm_compute in Hp. by apply elem_of_nil in Hp. }
  pose proof (supervisor_keeps_account (os := test_os dies_later) "test/config"
                pop_first elements (idle boot) Hfresh) as (_ & _ & _ & _ & Hstart).
  assert (Hacc : accounted
            (final_state (start_on (os := test_os dies_later) "test/config" pop_first
                            elements [svcA; svcB] None (idle boot)))).
  { apply (Hstart [svcA; svcB] None (Ret false)). vm_compute. reflexivity. }
  split; [exact Hacc|]. split; [vm_compute; reflexivity|].
  exact (supervisor_keeps_account (os := test_os dies_later) "test/config"
           pop_first elements _ Hacc).
Defined.

(** X4. No child is left behind: whatever [start] did, and however it
    ended, once a following [stop] returns every process spawned so far
    was either found exited by a poll or sent [SIGTERM] and waited
    for. *)
Theorem start_then_stop_reaps_all `{os : OS World} (config_dir : string)
    (pop : gset Service → Service) (walk : gset Service → list Service)
    (services : list Service)
    (fakeclock : option string) (σ σ1 σ2 : Sys World) (r : result bool) :
  accounted σ →
  start_on config_dir pop walk services fakeclock σ = Some (r, σ1) →
  stop σ1 = (Ret tt, σ2) →
  ∀ p, p ∈ spawned (trace σ2) → reaped (trace σ2) p.
Proof.
  intros Hacc Hstart Hstop p Hp.
  assert (Hacc1 : accounted σ1).
  { unfold start_on in Hstart.
    destruct (_service_toposort pop services) as [gen|]; [|done].
    simpl in Hstart. injection Hstart as Hstart.
    eapply accounted_keeps; [done|].
    pose proof (keeps_start_gen config_dir walk gen fakeclock σ) as H.
    by rewrite Hstart in H. }
  assert (Hacc2 : accounted σ2).
  { eapply accounted_keeps; [done|].
    pose proof (keeps_stop σ1) as H. by rewrite Hstop in H. }
  apply stop_returns_empty in Hstop as [Hnil Hnone].
  destruct (Hacc2 p Hp) as [[Hin|Hside]|H]; [| |done].
  - rewrite Hnil in Hin. by apply elem_of_nil in Hin.
  - congruence.
Qed.

Lemma start_then_stop_reaps_all_witness :
  reaped
    (trace (stop (os := test_os dies_later)
              (final_state (start_on (os := test_os dies_later) "test/config"
                              pop_first elements [svcA; svcB] None (idle boot)))).2)
    (proc 102 ["./bin/b"]).
Proof.
  apply (start_then_stop_reaps_all (os := test_os dies_later) "test/config"
           pop_first elements [svcA; svcB] None (idle boot)
           (final_state (start_on (os := test_os dies_later) "test/config"
                           pop_first elements [svcA; svcB] None (idle boot)))
           (stop (os := test_os dies_later)
              (final_state (start_on (os := test_os dies_later) "test/config"
                              pop_first elements [svcA; svcB] None (idle boot)))).2
           (Ret false)).
  - apply accounted_fresh.
  - vm_compute; reflexivity.
  - vm_compute; reflexivity.
  - apply (bool_decide_unpack _); vm_compute; exact I.
Defined.

(** ** What [start] never does *)

Section Appends.
Context `{os : OS World}.
Variable P : event → Prop.

Lemma appends_same {A} (m : M A) :
  (∀ σ, trace (m σ).2 = trace σ) → appends P m.
Proof. intros H σ. exists []. by rewrite H, app_nil_r. Qed.

Lemma appends_ret {A} (a : A) : appends P (ret a).
Proof. by apply appends_same. Qed.

Lemma appends_raise {A} (e : exn) : appends P (raise (A := A) e).
Proof. by apply appends_same. Qed.

Lemma appends_bind {A B} (m : M A) (k : A → M B) :
  appends P m → (∀ a, appends P (k a)) → appends P (bind m k).
Proof.
  intros Hm Hk σ. unfold bind. destruct (Hm σ) as (e1 & Ht1 & HP1).
  destruct (m σ) as [[a|e] σ1]; simpl in *; [|by exists e1].
  destruct (Hk a σ1) as (e2 & Ht2 & HP2). exists (e1 ++ e2).
  split; [by rewrite Ht2, Ht1, app_assoc|by apply Forall_app].
Qed.

Lemma appends_try_except {A} (m : M A) (h : exn → M A) :
  appends P m → (∀ e, appends P (h e)) → appends P (try_except m h).
Proof.
  intros Hm Hh σ. unfold try_except. destruct (Hm σ) as (e1 & Ht1 & HP1).
  destruct (m σ) as [[a|e] σ1]; simpl in *; [by exists e1|].
  destruct (Hh e σ1) as (e2 & Ht2 & HP2). exists (e1 ++ e2).
  split; [by rewrite Ht2, Ht1, app_assoc|by apply Forall_app].
Qed.

Lemma appends_emit (ev : event) : P ev → appends P (emit ev).
Proof. intros HP σ. exists [ev]. split; [done|by constructor]. Qed.

Lemma appends_syscall {A} (f : World → A * World) (ev : A → event) :
  (∀ a, P (ev a)) → appends P (syscall f ev).
Proof.
  intros HP σ. unfold syscall. destruct (f (world σ)) as [a w].
  exists [ev a]. split; [done|by constructor].
Qed.

Lemma appends_syscall_r {A} (f : World → result A * World) (ev : result A → event) :
  (∀ r, P (ev r)) → appends P (syscall_r f ev).
Proof.
  intros HP σ. unfold syscall_r. destruct (f (world σ)) as [r w].
  exists [ev r]. split; [done|by constructor].
Qed.

Lemma appends_print_all (ls : list log_line) : appends P (print_all ls).
Proof. apply appends_same. intros σ. by rewrite print_all_spec. Qed.
End Appends.

(** One step of a proof that a piece of the orchestrator only makes
    calls of a given kind. *)
Ltac appends_step :=
  first
    [ apply appends_ret | apply appends_raise | apply appends_print_all
    | apply appends_emit; solve [exact I | reflexivity]
    | apply appends_syscall; intros ?; solve [exact I | reflexivity]
    | apply appends_syscall_r; intros ?; solve [exact I | reflexivity]
    | apply appends_same; intros ?; reflexivity
    | apply appends_bind; [|intros ?]
    | apply appends_try_except; [|intros ?]
    | match goal with
      | |- appends _ (match ?x with _ => _ end) => destruct x
      end ].

Section StartCalls.
Context `{os : OS World}.

Lemma check_loop_no_signal (ps : list Popen) (busted : list (Popen * Z))
    (stillok : list Popen) : appends no_signal (check_loop ps busted stillok).
Proof.
  revert busted stillok. induction ps as [|p ps IH]; intros busted stillok; simpl.
  - appends_step.
  - apply appends_bind; [unfold poll; appends_step|intros [c|]; apply IH].
Qed.

Lemma check_no_signal : appends no_signal check.
Proof.
  unfold check, get_processes, set_processes, print.
  apply appends_bind; [appends_step|intros ps].
  apply appends_bind; [apply check_loop_no_signal|intros bs].
  repeat appends_step.
Qed.

Lemma waitport_loop_no_signal (n : nat) (port : Z) (prog : string)
    (chk : option (@M World bool)) :
  (∀ c, chk = Some c → appends no_signal c) →
  appends no_signal (waitport_loop n port prog chk).
Proof.
  intros Hchk. induction n as [|n IH]; [appends_step|].
  simpl. apply appends_bind; [|intros [b|]; [appends_step|apply IH]].
  apply appends_try_except.
  - unfold waitport_attempt, sleep, connect, close.
    apply appends_bind; [|intros b; appends_step].
    apply appends_bind; [appends_step|intros _].
    apply appends_bind.
    + destruct chk as [c|]; [|appends_step].
      apply appends_bind; [by apply Hchk|intros ok]. repeat appends_step.
    + intros ok. repeat appends_step.
  - intros e. unfold waitport_except, print. repeat appends_step.
Qed.

Lemma run_no_signal (cmd : list string) (fakeclock : option string) :
  appends no_signal (run cmd fakeclock).
Proof. unfold run, environ. repeat appends_step. Qed.

Lemma startChallSrv_no_signal : appends no_signal startChallSrv.
Proof.
  unfold startChallSrv, get_challSrvProcess, environ, set_challSrvProcess.
  apply appends_bind; [appends_step|intros [c|]; [appends_step|]].
  apply appends_bind; [appends_step|intros env].
  destruct (env !! "FAKE_DNS") as [dns|]; [|appends_step].
  apply appends_bind; [apply run_no_signal|intros p].
  apply appends_bind; [appends_step|intros _].
  apply appends_bind; [|intros ok; repeat appends_step].
  apply waitport_loop_no_signal. by intros c [=].
Qed.

Lemma start_loop_no_signal (config_dir : string) (fakeclock : option string)
    (order : list Service) :
  appends no_signal (start_loop config_dir fakeclock order).
Proof.
  induction order as [|s rest IH]; [appends_step|].
  simpl. apply appends_bind; [|intros ok; destruct (negb ok); [appends_step|apply IH]].
  unfold start_service, print.
  apply appends_bind; [appends_step|intros _].
  apply appends_try_except; [|intros e; repeat appends_step].
  unfold spawn_and_gate, append_process, get_processes, set_processes.
  apply appends_bind; [apply run_no_signal|intros p].
  apply appends_bind; [repeat appends_step|intros _].
  unfold gate, waithealth, check_call. destruct (grpc_addr s) as [addr|].
  - repeat appends_step.
  - apply waitport_loop_no_signal. intros c [= <-]. apply check_no_signal.
Qed.

Lemma start_gen_no_signal (config_dir : string) (walk : gset Service → list Service)
    (gen : list Service * toposort_end)
    (fakeclock : option string) :
  appends no_signal (start_gen config_dir walk gen fakeclock).
Proof.
  unfold start_gen, print.
  apply appends_bind; [appends_step|intros _].
  apply appends_bind; [appends_step|intros _].
  apply appends_bind; [apply startChallSrv_no_signal|intros _].
  apply appends_bind; [apply start_loop_no_signal|intros ok].
  repeat appends_step.
Qed.

Lemma signalled_no_signal (evs : list event) :
  Forall no_signal evs → signalled evs = [].
Proof.
  induction 1 as [|ev evs Hev _ IH]; [done|].
  unfold signalled in *. simpl. by destruct ev.
Qed.
End StartCalls.

(** X5. Bringing up never tears down: whatever happens during [start],
    and whether it returns [True], [False] or raises, every call it
    makes is something other than a signal or a wait; no process is
    told to stop, not even after a failure. *)
Theorem start_never_signals `{os : OS World} (config_dir : string)
    (pop : gset Service → Service) (walk : gset Service → list Service)
    (services : list Service)
    (fakeclock : option string) (σ : Sys World) :
  (∀ X : gset Service, X ≠ ∅ → pop X ∈ X) →
  ∃ (r : result bool) (σ' : Sys World) (evs : list event),
    start_on config_dir pop walk services fakeclock σ = Some (r, σ')
    ∧ trace σ' = trace σ ++ evs
    ∧ Forall no_signal evs
    ∧ signalled evs = [].
Proof.
  intros pop_elem. unfold start_on.
  destruct (toposort_run pop pop_elem services) as (out & Bf & -> & _). simpl.
  destruct (start_gen_no_signal config_dir walk
              (out, if decide (Bf = ∅) then Exhausted else Unsatisfied Bf)
              fakeclock σ) as (evs & Ht & Hevs).
  destruct (start_gen _ _ _ _ σ) as [r σ']. exists r, σ', evs.
  split_and!; [done|done|done|by apply signalled_no_signal].
Qed.

Lemma start_never_signals_witness :
  ∃ (r : result bool) (σ' : Sys TestWorld) (evs : list event),
    start_on (os := test_os dies_later) "test/config" pop_first elements [svcA; svcB] None
      (idle boot) = Some (r, σ')
    ∧ trace σ' = trace (idle boot) ++ evs
    ∧ Forall no_signal evs
    ∧ signalled evs = [].
Proof.
  exact (start_never_signals (os := test_os dies_later) "test/config" pop_first elements
           [svcA; svcB] None (idle boot) pop_first_elem).
Defined.

(** ** The scheduler on any table, and [start] on an unsatisfiable one *)

(** X6. The scheduler asks nothing of its table: on any sequence of
    descriptors it yields exactly the resolvable ones, each once, none
    before all the names in its [deps] were carried by earlier yields,
    and it ends without raising exactly when every descriptor is
    resolvable. *)
Theorem toposort_yields_resolvable (pop : gset Service → Service)
    (services : list Service) :
  (∀ X : gset Service, X ≠ ∅ → pop X ∈ X) →
  ∃ (out : list Service) (e : toposort_end),
    _service_toposort pop services = Some (out, e)
    ∧ NoDup out
    ∧ (∀ s, s ∈ out ↔ s ∈ services ∧ resolvable services s)
    ∧ (∀ pre s post, out = pre ++ s :: post →
         ∀ d, d ∈ deps_list s → d ∈ names_of pre)
    ∧ (e = Exhausted ↔ ∀ s, s ∈ services → resolvable services s).
Proof.
  intros pop_elem.
  destruct (toposort_run pop pop_elem services)
    as (out & Bf & Hrun & Hnd & Hmem & HBfin & Hstuck & Hord).
  pose proof (stuck_iff_unresolvable pop pop_elem services out Bf Hmem HBfin Hstuck Hord)
    as Hiff.
  assert (Hout : ∀ s, s ∈ out ↔ s ∈ services ∧ resolvable services s).
  { intros s. rewrite Hmem. split.
    - intros [Hs Hn]. split; [done|].
      assert (Hs' : s ∈ out) by (by apply Hmem).
      apply list_elem_of_split in Hs' as (pre & post & Hsplit).
      split; [done|]. intros d Hd.
      apply (yielded_prefix_resolved pop pop_elem services out Bf Hmem Hord pre
               (s :: post) Hsplit).
      by apply (Hord _ _ _ Hsplit).
    - intros [Hs Hres]. split; [done|]. intros HB. apply Hiff in HB. tauto. }
  eexists out, _. split_and!; [done|done|done|done|].
  destruct (decide (Bf = ∅)) as [->|Hne].
  - split; [|done]. intros _ s Hs. apply Hout, Hmem. split; [done|set_solver].
  - split; [done|]. intros Hall. exfalso. apply Hne.
    apply leibniz_equiv. intros s. split; [|set_solver].
    intros HB. apply Hiff in HB as [Hs Hn]. destruct Hn. by apply Hall.
Qed.

Lemma toposort_yields_resolvable_witness :
  ∃ (out : list Service) (e : toposort_end),
    _service_toposort pop_first ghost_table = Some (out, e)
    ∧ NoDup out
    ∧ (∀ s, s ∈ out ↔ s ∈ ghost_table ∧ resolvable ghost_table s)
    ∧ (∀ pre s post, out = pre ++ s :: post →
         ∀ d, d ∈ deps_list s → d ∈ names_of pre)
    ∧ (e = Exhausted ↔ ∀ s, s ∈ ghost_table → resolvable ghost_table s).
Proof.
  exact (toposort_yields_resolvable pop_first ghost_table pop_first_elem).
Defined.

Section LateFailure.
Context `{os : OS World}.
Variables (config_dir : string) (pop : gset Service → Service).
Variable walk : gset Service → list Service.

(** [start] over one run of the generator, case by case. *)
Lemma start_gen_cases (gen : list Service * toposort_end) (fakeclock : option string)
    (σ : Sys World) :
  start_gen config_dir walk gen fakeclock σ =
    match startChallSrv (handlers_installed σ) with
    | (Raise ex, σ0) => (Raise ex, σ0)
    | (Ret _, σ0) =>
        match start_loop config_dir fakeclock gen.1 σ0 with
        | (Raise e, σ1) => (Raise e, σ1)
        | (Ret false, σ1) => (Ret false, σ1)
        | (Ret true, σ1) =>
            match gen.2 with
            | Exhausted =>
                (Ret true, mkSys (world σ1) (processes σ1) (challSrvProcess σ1)
                             (stdout σ1 ++ [LogAllRunning]) (trace σ1))
            | Unsatisfied blocked =>
                (Raise (Exception "Unable to satisfy service dependencies"),
                 mkSys (world σ1) (processes σ1) (challSrvProcess σ1)
                   ((stdout σ1 ++ [LogUnsatisfiedHeader])
                      ++ unsatisfied_lines (walk blocked))
                   (trace σ1))
            end
        end
    end.
Proof.
  unfold start_gen, bind at 1, bind at 1, emit.
  cbn [fst snd world processes challSrvProcess stdout trace].
  unfold bind at 1. fold (handlers_installed σ).
  destruct (startChallSrv (handlers_installed σ)) as [[rc|ex] σ0]; [|done].
  unfold bind at 1.
  destruct (start_loop config_dir fakeclock gen.1 σ0) as [[[|]|e] σ1]; [|done|done].
  simpl. destruct gen.2; [done|].
  unfold bind, print, raise. simpl. by rewrite print_all_spec.
Qed.

End LateFailure.


(** Two stuck services.  [A] is started, then [start] prints the
    report and raises; the process of [A] is still listed.  The lines
    of the report come in the order of the walk: [D] before [E] with one
    interpreter, [E] before [D] with another. *)
Example start_two_stuck :
  ∃ σ' σ'' : Sys TestWorld,
    start_on (os := test_os calm) "test/config" pop_first walk_backwards
      cycle_pair_table None (idle boot)
      = Some (Raise (Exception "Unable to satisfy service dependencies"), σ')
    ∧ processes σ' = [proc 101 ["./bin/a"]]
    ∧ stdout σ' = [LogStarting "A"; LogUnsatisfiedHeader;
                   LogUnsatisfied "D" (Some ["E"; "ghost"]);
                   LogUnsatisfied "E" (Some ["D"])]
    ∧ start_on (os := test_os calm) "test/config" pop_first elements
        cycle_pair_table None (idle boot)
      = Some (Raise (Exception "Unable to satisfy service dependencies"), σ'')
    ∧ stdout σ'' = [LogStarting "A"; LogUnsatisfiedHeader;
                    LogUnsatisfied "E" (Some ["D"]);
                    LogUnsatisfied "D" (Some ["E"; "ghost"])].
Proof.
  exists (final_state (start_on (os := test_os calm) "test/config" pop_first
                         walk_backwards cycle_pair_table None (idle boot))).
  exists (final_state (start_on (os := test_os calm) "test/config" pop_first
                         elements cycle_pair_table None (idle boot))).
  split_and!; vm_compute; reflexivity.
Qed.

(** ** [random_domain] *)

Lemma string_length_app (s t : string) :
  String.length (s +:+ t) = String.length s + String.length t.
Proof.
  induction s as [|c s IH]; [done|].
  change (String.length (String c (s +:+ t)) = S (String.length s) + String.length t).
  simpl. by rewrite IH.
Qed.

Lemma string_app_inv_tail (s1 s2 t : string) : s1 +:+ t = s2 +:+ t → s1 = s2.
Proof.
  revert s2. induction s1 as [|a s1 IH]; intros [|b s2] Heq; [done| | |].
  - apply (f_equal String.length) in Heq. rewrite !string_length_app in Heq.
    simpl in Heq. lia.
  - apply (f_equal String.length) in Heq. rewrite !string_length_app in Heq.
    simpl in Heq. lia.
  - change (String a (s1 +:+ t) = String b (s2 +:+ t)) in Heq.
    injection Heq as -> Heq. f_equal. by apply IH.
Qed.

(** The digits of a positive number below [16 ^ k]: at least one, at
    most [k], all of them lower-case hexadecimal. *)
Lemma of_pos_digits (k : nat) (p : positive) (rest : string) :
  (N.pos p < 16 ^ N.of_nat k)%N →
  S (String.length rest) ≤ String.length (HexString.Raw.of_pos p rest)
                         ≤ k + String.length rest
  ∧ forallb lower_hex (String.list_ascii_of_string (HexString.Raw.of_pos p rest))
      = forallb lower_hex (String.list_ascii_of_string rest).
Proof.
  revert p rest. induction k as [|k IH]; intros p rest Hlt.
  - simpl in Hlt. lia.
  - rewrite Nat2N.inj_succ, N.pow_succ_r' in Hlt.
    set (x := (16 ^ N.of_nat k)%N) in *.
    do 4 (try destruct p as [p|p|]); cbn [HexString.Raw.of_pos];
      try (split; [simpl; lia|reflexivity]);
      match goal with
      | |- context [HexString.Raw.of_pos ?q ?s] =>
          destruct (IH q s) as [Hlen Hhex]; [lia|];
          simpl in Hlen; split; [simpl; lia|by rewrite Hhex]
      end.
Qed.

(** X8. [random_domain]: the name is [rand.], a label, [.xyz]; for a draw
    below [2 ^ 32] the label has one to eight characters, all
    lower-case hexadecimal digits, and reads back as the draw; so the
    name has at most 17 characters and two draws give the same name
    only when they are equal. *)
Theorem random_domain_spec (r : N) :
  (r < 2 ^ 32)%N →
  ∃ label : string,
    random_domain r = "rand." +:+ label +:+ ".xyz"
    ∧ 1 ≤ String.length label ≤ 8
    ∧ String.length (random_domain r) = 9 + String.length label
    ∧ forallb lower_hex (String.list_ascii_of_string label) = true
    ∧ HexString.Raw.to_N label 0 = r
    ∧ ∀ r', random_domain r' = random_domain r → r' = r.
Proof.
  intros Hr. exists (format_x r).
  assert (Hback : ∀ n, HexString.Raw.to_N (format_x n) 0 = n).
  { intros [|p]; [done|]. simpl. by rewrite HexString.Raw.to_N_of_pos. }
  split; [done|]. split; [|split_and!].
  - destruct r as [|p]; [simpl; lia|].
    destruct (of_pos_digits 8 p EmptyString) as [Hlen _]; [done|]. simpl in *. lia.
  - unfold random_domain. rewrite !string_length_app. simpl. lia.
  - destruct r as [|p]; [done|].
    destruct (of_pos_digits 8 p EmptyString) as [_ Hhex]; [done|]. exact Hhex.
  - apply Hback.
  - intros r' Heq. unfold random_domain in Heq.
    apply (inj (String.append "rand.")) in Heq.
    apply string_app_inv_tail in Heq.
    by rewrite <- (Hback r'), Heq, Hback.
Qed.

Lemma random_domain_spec_witness :
  ∃ label : string,
    random_domain 3735928559 = "rand." +:+ label +:+ ".xyz"
    ∧ 1 ≤ String.length label ≤ 8
    ∧ String.length (random_domain 3735928559) = 9 + String.length label
    ∧ forallb lower_hex (String.list_ascii_of_string label) = true
    ∧ HexString.Raw.to_N label 0 = 3735928559%N
    ∧ ∀ r', random_domain r' = random_domain 3735928559 → r' = 3735928559%N.
Proof.
  apply (random_domain_spec 3735928559). vm_compute. reflexivity.
Defined.

Example random_domain_deadbeef : random_domain 3735928559 = "rand.deadbeef.xyz".
Proof. vm_compute. reflexivity. Qed.

(** ** What a wait prints *)

Section WaitLog.
Context `{os : OS World}.

Lemma refusals_app (l k : list event) : refusals (l ++ k) = refusals l + refusals k.
Proof. unfold refusals. by rewrite List.filter_app, length_app. Qed.

Lemma found_dead_app (l k : list event) :
  found_dead (l ++ k) = found_dead l ++ found_dead k.
Proof. apply omap_app. Qed.

Lemma refusals_poll_events (prs : list (Popen * option Z)) :
  refusals (poll_events prs) = 0.
Proof. induction prs as [|pr prs IH]; [done|]. apply IH. Qed.

Lemma found_dead_poll_events (prs : list (Popen * option Z)) :
  found_dead (poll_events prs) = dead_of prs.
Proof.
  induction prs as [|[p [c|]] prs IH]; [done| |].
  - change (found_dead (poll_events ((p, Some c) :: prs)))
      with ((p, c) :: found_dead (poll_events prs)).
    by rewrite IH.
  - apply IH.
Qed.

Lemma refused_iff (port : Z) (e : exn) :
  refusals [EvConnect port (Raise e)]
    = if decide (e = OSError ECONNREFUSED) then 1 else 0.
Proof.
  destruct (decide (e = OSError ECONNREFUSED)) as [->|Hne]; [done|].
  destruct e as [| errno | |]; try done.
  unfold refusals. simpl. destruct (Z.eqb_spec errno ECONNREFUSED) as [->|]; done.
Qed.

(** What one attempt adds to the trace and to the output. *)
Lemma waitport_attempt_log (port : Z) (chk : option (@M World bool)) (σ : Sys World) :
  chk = None ∨ chk = Some check →
  ∃ evs,
    trace (waitport_attempt port chk σ).2 = trace σ ++ evs
    ∧ stdout (waitport_attempt port chk σ).2 = stdout σ ++ exit_report (found_dead evs)
    ∧ match (waitport_attempt port chk σ).1 with
      | Ret false => refusals evs = 0 ∧ found_dead evs ≠ []
      | Ret true => refusals evs = 0 ∧ found_dead evs = []
      | Raise e =>
          found_dead evs = []
          ∧ refusals evs = if decide (e = OSError ECONNREFUSED) then 1 else 0
      end.
Proof.
  intros Hchk. destruct (waitport_attempt port chk σ) as [r σ1] eqn:Hatt. simpl.
  unfold waitport_attempt, bind, sleep, syscall, connect, syscall_r, close, emit, ret
    in Hatt.
  destruct Hchk as [->| ->]; simpl in Hatt.
  - destruct (os_connect port (os_sleep (world σ))) as [[[]|e] w];
      injection Hatt as <- <-; simpl.
    + exists [EvSleep 100; EvConnect port (Ret tt); EvClose port].
      split_and!; [by rewrite <- !app_assoc|by rewrite app_nil_r|done|done].
    + exists [EvSleep 100; EvConnect port (Raise e)].
      split_and!; [by rewrite <- !app_assoc|by rewrite app_nil_r|done|].
      apply (refused_iff port e).
  - match type of Hatt with context [check ?s] =>
      destruct (check_spec s) as (rs & σ2 & Hchk & Hlen & Ht & Hp & Hout & Hc)
    end.
    simpl in *. rewrite Hchk in Hatt.
    set (prs := zip (processes σ) rs) in *.
    destruct (dead_of prs) as [|d ds] eqn:Hdead; simpl in Hatt.
    + destruct (os_connect port (world σ2)) as [[[]|e] w];
        injection Hatt as <- <-; simpl.
      * exists ([EvSleep 100] ++ poll_events prs
                  ++ [EvPerTickCheck true; EvConnect port (Ret tt); EvClose port]).
        rewrite Ht, Hout, !found_dead_app, !refusals_app, found_dead_poll_events,
          refusals_poll_events, Hdead.
        split_and!; [|done|done|done].
        by rewrite <- !app_assoc.
      * exists ([EvSleep 100] ++ poll_events prs
                  ++ [EvPerTickCheck true; EvConnect port (Raise e)]).
        rewrite Ht, Hout, !found_dead_app, !refusals_app, found_dead_poll_events,
          refusals_poll_events, Hdead.
        split_and!; [|done|done|].
        -- by rewrite <- !app_assoc.
        -- apply (refused_iff port e).
    + injection Hatt as <- <-. simpl.
      exists ([EvSleep 100] ++ poll_events prs ++ [EvPerTickCheck false]).
      rewrite Ht, Hout, !found_dead_app, !refusals_app, found_dead_poll_events,
        refusals_poll_events, Hdead.
      split_and!; [|simpl; by rewrite app_nil_r|done|done].
      by rewrite <- !app_assoc.
Qed.

Lemma waitport_loop_log (n : nat) (port : Z) (prog : string)
    (chk : option (@M World bool)) (σ : Sys World) :
  chk = None ∨ chk = Some check →
  ∃ evs,
    trace (waitport_loop n port prog chk σ).2 = trace σ ++ evs
    ∧ refusals evs ≤ n
    ∧ stdout (waitport_loop n port prog chk σ).2
        = stdout σ ++ replicate (refusals evs) (LogWaiting port prog)
            ++ exit_report (found_dead evs)
    ∧ ((waitport_loop n port prog chk σ).1 = Ret false ↔ found_dead evs ≠ []).
Proof.
  intros Hchk. revert σ. induction n as [|n IH]; intros σ.
  - exists []. simpl. rewrite !app_nil_r. split_and!; [done|done|done|]. by split.
  - rewrite waitport_loop_step.
    destruct (waitport_attempt_log port chk σ Hchk) as (e1 & Ht1 & Ho1 & Hr1).
    destruct (waitport_attempt port chk σ) as [[[|]|e] σ1]; simpl in *.
    + destruct Hr1 as [Hk Hfd]. exists e1. rewrite Hk, Hfd in *. simpl.
      split_and!; [done|lia|by rewrite Ho1|]. by split.
    + destruct Hr1 as [Hk Hfd]. exists e1. rewrite Hk. simpl.
      split_and!; [done|lia|by rewrite Ho1|]. by split.
    + destruct Hr1 as [Hfd Hk].
      destruct (decide (e = OSError ECONNREFUSED)) as [->|Hne].
      * match goal with |- context [waitport_loop n port prog chk ?s] =>
          destruct (IH s) as (e2 & Ht2 & Hk2 & Ho2 & Hr2)
        end.
        simpl in *. exists (e1 ++ e2).
        rewrite refusals_app, found_dead_app, Hk, Hfd. simpl.
        split_and!; [by rewrite Ht2, Ht1, app_assoc|lia| |done].
        rewrite Ho2, Ho1, Hfd. simpl. by rewrite app_nil_r, <- !app_assoc.
      * exists e1. rewrite Hk, Hfd. simpl.
        split_and!; [done|lia|by rewrite Ho1, Hfd|]. by split.
Qed.
End WaitLog.

(** X9. What a wait prints, read off its calls.  For the two uses
    [waitport] has in the supervisor (no predicate, and [check]): it
    prints one ["Waiting for debug port"] line for each refused connect,
    at most 1000 of them, and after these lines the report of [check] on
    the processes found dead, if any was; it returns [False] exactly
    when some process was found dead. *)
Theorem waitport_log `{os : OS World} (port : Z) (prog : string)
    (chk : option (@M World bool)) (σ : Sys World) :
  chk = None ∨ chk = Some check →
  ∃ (r : result bool) (σ' : Sys World) (evs : list event),
    waitport port prog chk σ = (r, σ')
    ∧ trace σ' = trace σ ++ evs
    ∧ refusals evs ≤ 1000
    ∧ stdout σ' = stdout σ ++ replicate (refusals evs) (LogWaiting port prog)
                    ++ exit_report (found_dead evs)
    ∧ (r = Ret false ↔ found_dead evs ≠ []).
Proof.
  intros Hchk. unfold waitport.
  destruct (waitport_loop_log 1000 port prog chk σ Hchk) as (evs & Ht & Hk & Ho & Hr).
  destruct (waitport_loop 1000 port prog chk σ) as [r σ']. by exists r, σ', evs.
Qed.

Lemma waitport_log_witness :
  ∃ (r : result bool) (σ' : Sys TestWorld) (evs : list event),
    waitport (os := test_os slow_port) 8001 "./bin/a"
      (Some (check (os := test_os slow_port)))
      (mkSys boot [proc 100 ["./bin/a"]] None [] []) = (r, σ')
    ∧ trace σ' = [] ++ evs
    ∧ refusals evs ≤ 1000
    ∧ stdout σ' = [] ++ replicate (refusals evs) (LogWaiting 8001 "./bin/a")
                    ++ exit_report (found_dead evs)
    ∧ (r = Ret false ↔ found_dead evs ≠ []).
Proof.
  apply (waitport_log (os := test_os slow_port) 8001 "./bin/a"
           (Some (check (os := test_os slow_port)))
           (mkSys boot [proc 100 ["./bin/a"]] None [] [])).
  by right.
Defined.

(** Two refusals, two lines. *)
Example waitport_slow_port_output :
  (waitport (os := test_os slow_port) 8001 "./bin/a"
     (Some (check (os := test_os slow_port)))
     (mkSys boot [proc 100 ["./bin/a"]] None [] [])).1 = Ret true
  ∧ stdout (waitport (os := test_os slow_port) 8001 "./bin/a"
              (Some (check (os := test_os slow_port)))
              (mkSys boot [proc 100 ["./bin/a"]] None [] [])).2
    = [LogWaiting 8001 "./bin/a"; LogWaiting 8001 "./bin/a"].
Proof. split; vm_compute; reflexivity. Qed.

(** ** [check_balance] *)

Lemma check_balance_loop_spec `{web : Web World} (addresses : list string)
    (st : Browsing World) :
  ∃ rs : list (result string),
    length rs ≤ length addresses
    ∧ (check_balance_loop addresses st).2.2
        = st.2 ++ zip (metrics_url <$> take (length rs) addresses) rs
    ∧ match (check_balance_loop addresses st).1 with
      | Ret _ => length rs = length addresses ∧ Forall balanced rs
      | Raise e =>
          ∃ rs0 r, rs = rs0 ++ [r] ∧ Forall balanced rs0
                   ∧ match r with
                     | Raise e' => e = e'
                     | Ret text =>
                         contains "grpc_server_handled_total" text = false
                         ∧ e = TypeError
                     end
      end.
Proof.
  revert st. induction addresses as [|a rest IH]; intros [w log].
  - exists []. simpl. by rewrite app_nil_r.
  - simpl. unfold get. simpl.
    destruct (requests_get (metrics_url a) w) as [[text|e] w1] eqn:Hget.
    + destruct (contains "grpc_server_handled_total" text) eqn:Hmark; simpl.
      * destruct (IH (w1, log ++ [(metrics_url a, Ret text)])) as (rs & Hlen & Hlog & Hres).
        exists (Ret text :: rs). simpl in *. split_and!; [lia| |].
        -- by rewrite Hlog, <- app_assoc.
        -- destruct (check_balance_loop rest _).1 as [[]|e].
           ++ destruct Hres as [-> Hall]. split; [done|].
              constructor; [by exists text|done].
           ++ destruct Hres as (rs0 & r & -> & Hall & Hr).
              exists (Ret text :: rs0), r. split_and!; [done| |done].
              constructor; [by exists text|done].
      * exists [Ret text]. simpl. split_and!; [lia|done|].
        exists [], (Ret text). by split_and!.
    + exists [Raise e]. simpl. split_and!; [lia|done|].
      exists [], (Raise e). by split_and!.
Qed.

(** X10. [check_balance] asks the ten backends for their metrics, in
    the order of its list, and stops at the first request that raises
    or whose page does not show gRPC traffic.  It returns exactly when
    all ten pages show traffic.  A page without traffic does not give
    the exception the code spells out: the [raise] applies [%] to the
    exception object, so what leaves the function is [TypeError]. *)
Theorem check_balance_spec `{web : Web World} (st : Browsing World) :
  ∃ rs : list (result string),
    length rs ≤ 10
    ∧ (check_balance st).2.2
        = st.2 ++ zip (metrics_url <$> take (length rs) balance_addresses) rs
    ∧ match (check_balance st).1 with
      | Ret _ => length rs = 10 ∧ Forall balanced rs
      | Raise e =>
          ∃ rs0 r, rs = rs0 ++ [r] ∧ Forall balanced rs0
                   ∧ match r with
                     | Raise e' => e = e'
                     | Ret text =>
                         contains "grpc_server_handled_total" text = false
                         ∧ e = TypeError
                     end
      end.
Proof. apply (check_balance_loop_spec balance_addresses st). Qed.

(** One backend without traffic: [TypeError] at its page, the
    backends after it are not asked. *)
Example check_balance_one_silent :
  check_balance (web := one_silent "va1.service.consul:8004") (tt, [])
  = (Raise TypeError,
     (tt, [("http://sa1.service.consul:8003/metrics",
            Ret "grpc_server_handled_total{grpc_code=OK} 7");
           ("http://sa2.service.consul:8103/metrics",
            Ret "grpc_server_handled_total{grpc_code=OK} 7");
           ("http://publisher1.service.consul:8009/metrics",
            Ret "grpc_server_handled_total{grpc_code=OK} 7");
           ("http://publisher2.service.consul:8109/metrics",
            Ret "grpc_server_handled_total{grpc_code=OK} 7");
           ("http://va1.service.consul:8004/metrics", Ret "go_goroutines 12")])).
Proof. vm_compute. reflexivity. Qed.

(** ** What [start] prints *)

Section Prints.
Context `{os : OS World}.
Variable P : log_line → Prop.

Lemma prints_same {A} (m : M A) :
  (∀ σ, stdout (m σ).2 = stdout σ) → prints P m.
Proof. intros H σ. exists []. by rewrite H, app_nil_r. Qed.

Lemma prints_bind {A B} (m : M A) (k : A → M B) :
  prints P m → (∀ a, prints P (k a)) → prints P (bind m k).
Proof.
  intros Hm Hk σ. unfold bind. destruct (Hm σ) as (l1 & Ho1 & HP1).
  destruct (m σ) as [[a|e] σ1]; simpl in *; [|by exists l1].
  destruct (Hk a σ1) as (l2 & Ho2 & HP2). exists (l1 ++ l2).
  split; [by rewrite Ho2, Ho1, app_assoc|by apply Forall_app].
Qed.

Lemma prints_try_except {A} (m : M A) (h : exn → M A) :
  prints P m → (∀ e, prints P (h e)) → prints P (try_except m h).
Proof.
  intros Hm Hh σ. unfold try_except. destruct (Hm σ) as (l1 & Ho1 & HP1).
  destruct (m σ) as [[a|e] σ1]; simpl in *; [by exists l1|].
  destruct (Hh e σ1) as (l2 & Ho2 & HP2). exists (l1 ++ l2).
  split; [by rewrite Ho2, Ho1, app_assoc|by apply Forall_app].
Qed.

Lemma prints_print (l : log_line) : P l → prints P (print l).
Proof. intros HP σ. exists [l]. split; [done|by constructor]. Qed.

Lemma prints_syscall {A} (f : World → A * World) (ev : A → event) :
  prints P (syscall f ev).
Proof.
  apply prints_same. intros σ. unfold syscall. by destruct (f (world σ)).
Qed.

Lemma prints_syscall_r {A} (f : World → result A * World) (ev : result A → event) :
  prints P (syscall_r f ev).
Proof.
  apply prints_same. intros σ. unfold syscall_r. by destruct (f (world σ)).
Qed.
End Prints.

Ltac prints_step :=
  first
    [ apply prints_syscall | apply prints_syscall_r
    | apply prints_print; reflexivity
    | apply prints_same; intros ?; reflexivity
    | apply prints_bind; [|intros ?]
    | apply prints_try_except; [|intros ?]
    | match goal with
      | |- prints _ (match ?x with _ => _ end) => destruct x
      end ].

Section StartOutput.
Context `{os : OS World}.
Variable config_dir : string.

Lemma start_lines_app (l k : list log_line) :
  start_lines (l ++ k) = start_lines l ++ start_lines k.
Proof. apply List.filter_app. Qed.

Lemma start_lines_other (ls : list log_line) :
  Forall other_line ls → start_lines ls = [].
Proof.
  induction 1 as [|l ls Hl _ IH]; [done|].
  unfold start_lines in *. simpl. unfold other_line in Hl. by rewrite Hl.
Qed.

Lemma check_prints_other : prints other_line check.
Proof.
  intros σ. destruct (check_spec σ) as (rs & σ' & Heq & _ & _ & _ & Hout & _).
  simpl in *. rewrite Heq. simpl. eexists. split; [done|].
  destruct (dead_of _); [done|]. constructor; [done|].
  apply Forall_fmap, Forall_forall. by intros.
Qed.

Lemma waitport_loop_prints_other (n : nat) (port : Z) (prog : string)
    (chk : option (@M World bool)) :
  (∀ c, chk = Some c → prints other_line c) →
  prints other_line (waitport_loop n port prog chk).
Proof.
  intros Hchk. induction n as [|n IH]; [prints_step|].
  simpl. apply prints_bind; [|intros [b|]; [prints_step|apply IH]].
  apply prints_try_except.
  - unfold waitport_attempt, sleep, connect, close, emit.
    apply prints_bind; [|intros b; prints_step].
    apply prints_bind; [prints_step|intros _].
    apply prints_bind.
    + destruct chk as [c|]; [|prints_step].
      apply prints_bind; [by apply Hchk|intros ok]. repeat prints_step.
    + intros ok. repeat prints_step.
  - intros e. unfold waitport_except. repeat prints_step.
Qed.

Lemma spawn_and_gate_prints_other (fakeclock : option string) (s : Service) :
  prints other_line (spawn_and_gate config_dir fakeclock s).
Proof.
  unfold spawn_and_gate, run, environ, append_process, get_processes, set_processes.
  apply prints_bind; [repeat prints_step|intros p].
  apply prints_bind; [repeat prints_step|intros _].
  unfold gate, waithealth, check_call. destruct (grpc_addr s) as [addr|].
  - repeat prints_step.
  - apply waitport_loop_prints_other. intros c [= <-]. apply check_prints_other.
Qed.

Lemma startChallSrv_prints_other : prints other_line startChallSrv.
Proof.
  unfold startChallSrv, get_challSrvProcess, environ, set_challSrvProcess, run.
  apply prints_bind; [prints_step|intros [c|]; [prints_step|]].
  apply prints_bind; [prints_step|intros env].
  destruct (env !! "FAKE_DNS") as [dns|]; [|prints_step].
  apply prints_bind; [repeat prints_step|intros p].
  apply prints_bind; [prints_step|intros _].
  apply prints_bind; [|intros ok; repeat prints_step].
  apply waitport_loop_prints_other. by intros c [=].
Qed.

(** While everything comes up, [start] prints one ["Starting
    service"] line for each service, in order. *)
Lemma all_up_output (fakeclock : option string) (order : list Service)
    (σ0 σ1 : Sys World) :
  all_up config_dir fakeclock order σ0 σ1 →
  ∃ ls, stdout σ1 = stdout σ0 ++ ls
        ∧ start_lines ls = LogStarting <$> (name <$> order).
Proof.
  induction 1 as [σ|s rest σ σa σb Hstep _ (l2 & Ho2 & Hl2)].
  - exists []. by rewrite app_nil_r.
  - destruct (spawn_and_gate_prints_other fakeclock s (announced s σ))
      as (l1 & Ho1 & Hl1).
    rewrite Hstep in Ho1. simpl in Ho1. apply start_lines_other in Hl1.
    exists ([LogStarting (name s)] ++ l1 ++ l2). split.
    + rewrite Ho2, Ho1. by rewrite <- !app_assoc.
    + by rewrite !start_lines_app, Hl1, Hl2.
Qed.

(** At the first service whose spawn or gate fails, the loop has
    printed the ["Starting service"] lines up to that service, and after
    them the ["Error starting service"] line with the exception, if
    the step raised one, and nothing if its gate answered [False]. *)
Lemma start_loop_failure_output (fakeclock : option string) (pre : list Service)
    (s : Service) (post : list Service) (σ0 σ1 : Sys World) (r : result bool)
    (σ2 : Sys World) :
  all_up config_dir fakeclock pre σ0 σ1 →
  spawn_and_gate config_dir fakeclock s (announced s σ1) = (r, σ2) →
  r ≠ Ret true →
  ∃ σF ls,
    start_loop config_dir fakeclock (pre ++ s :: post) σ0 = (Ret false, σF)
    ∧ stdout σF = stdout σ0 ++ ls
    ∧ start_lines ls = (LogStarting <$> (name <$> pre ++ [s]))
                         ++ match r with
                            | Raise ex => [LogErrorStarting (name s) ex]
                            | Ret _ => []
                            end.
Proof.
  induction 1 as [σ|s0 rest σ σa σb Hstep _ IH]; intros Hfail Hr.
  - simpl. unfold bind. rewrite start_service_cases.
    destruct (spawn_and_gate_prints_other fakeclock s (announced s σ))
      as (l1 & Ho1 & Hl1).
    rewrite Hfail in *. simpl in Ho1. apply start_lines_other in Hl1.
    destruct r as [[]|e]; [done| |]; simpl; eexists _, _; (split; [done|]).
    + split; [rewrite Ho1, <- app_assoc; done|].
      by rewrite start_lines_app, Hl1.
    + simpl. split; [rewrite Ho1, <- !app_assoc; done|].
      by rewrite !start_lines_app, Hl1.
  - simpl. unfold bind. rewrite start_service_cases, Hstep. simpl.
    destruct (IH Hfail Hr) as (σF & l2 & HF & Ho2 & Hl2).
    destruct (spawn_and_gate_prints_other fakeclock s0 (announced s0 σ))
      as (l1 & Ho1 & Hl1).
    rewrite Hstep in Ho1. simpl in Ho1. apply start_lines_other in Hl1.
    exists σF, ([LogStarting (name s0)] ++ l1 ++ l2). split; [done|]. split.
    + rewrite Ho2, Ho1. by rewrite <- !app_assoc.
    + by rewrite !start_lines_app, Hl1, Hl2.
Qed.

Lemma all_running_not_starting (names : list string) :
  LogAllRunning ∉ LogStarting <$> names.
Proof. intros (n & Hn & _)%list_elem_of_fmap. done. Qed.

Lemma elem_of_start_lines (l : log_line) (ls : list log_line) :
  l ∈ start_lines ls ↔ l ∈ ls ∧ start_line l = true.
Proof.
  unfold start_lines. rewrite !list_elem_of_In. apply List.filter_In.
Qed.
End StartOutput.

(** X11. The output of [start] tells how it went.  Among the lines
    it adds, those of [start] itself are as follows.  If the sidecar
    does not come up: none.  If every service comes up: one ["Starting
    service"] line for each, in scheduler order, followed by ["All
    servers running"] when the scheduler ends without raising, and by
    nothing when it raises.  If there is a first service whose spawn or
    gate fails: the ["Starting service"] lines up to that service,
    followed by an ["Error starting service"] line with that service's
    name and the exception exactly when its spawn or gate raised, and by
    nothing when its gate answered [False].  ["All servers running"]
    is printed exactly when [start] returns [True]. *)
Theorem start_output `{os : OS World} (config_dir : string)
    (pop : gset Service → Service) (walk : gset Service → list Service)
    (services : list Service) (fakeclock : option string) (σ : Sys World) :
  (∀ X : gset Service, X ≠ ∅ → pop X ∈ X) →
  ∃ (order : list Service) (e : toposort_end) (res : result bool) (σ' : Sys World)
    (ls : list log_line),
    _service_toposort pop services = Some (order, e)
    ∧ start_on config_dir pop walk services fakeclock σ = Some (res, σ')
    ∧ stdout σ' = stdout σ ++ ls
    ∧ (res = Ret true ↔ LogAllRunning ∈ ls)
    ∧ match startChallSrv (handlers_installed σ) with
      | (Raise ex, _) => res = Raise ex ∧ start_lines ls = []
      | (Ret _, σ0) =>
          ((∃ σ1, all_up config_dir fakeclock order σ0 σ1)
           ∨ (∃ pre s post σ1 r σ2,
                order = pre ++ s :: post
                ∧ all_up config_dir fakeclock pre σ0 σ1
                ∧ spawn_and_gate config_dir fakeclock s (announced s σ1) = (r, σ2)
                ∧ r ≠ Ret true))
          ∧ (∀ σ1, all_up config_dir fakeclock order σ0 σ1 →
               res = match e with
                     | Exhausted => Ret true
                     | Unsatisfied _ =>
                         Raise (Exception "Unable to satisfy service dependencies")
                     end
               ∧ start_lines ls = (LogStarting <$> (name <$> order))
                                    ++ match e with
                                       | Exhausted => [LogAllRunning]
                                       | Unsatisfied _ => []
                                       end)
          ∧ (∀ pre s post σ1 r σ2,
               order = pre ++ s :: post →
               all_up config_dir fakeclock pre σ0 σ1 →
               spawn_and_gate config_dir fakeclock s (announced s σ1) = (r, σ2) →
               r ≠ Ret true →
               res = Ret false
               ∧ start_lines ls = (LogStarting <$> (name <$> pre ++ [s]))
                                    ++ match r with
                                       | Raise ex => [LogErrorStarting (name s) ex]
                                       | Ret _ => []
                                       end)
      end.
Proof.
  intros pop_elem. unfold start_on.
  destruct (toposort_run pop pop_elem services) as (order & Bf & Hrun & _).
  rewrite Hrun. simpl.
  set (e := if decide (Bf = ∅) then Exhausted else Unsatisfied Bf).
  destruct (start_gen config_dir walk (order, e) fakeclock σ) as [res σ'] eqn:Hgen.
  exists order, e, res, σ'. rewrite start_gen_cases in Hgen. simpl in Hgen.
  destruct (startChallSrv_prints_other (handlers_installed σ)) as (l0 & Ho0 & Hl0).
  apply start_lines_other in Hl0.
  destruct (startChallSrv (handlers_installed σ)) as [[rc|ex] σ0]; simpl in *.
  2:{ injection Hgen as <- <-. exists l0.
      split_and!; [done|done|done| |done|done].
      split; [done|]. intros Hin.
      assert (LogAllRunning ∈ start_lines l0) by (by apply elem_of_start_lines).
      rewrite Hl0 in *. by apply elem_of_nil in H. }
  pose proof (start_loop_cases config_dir fakeclock order σ0) as Hcases.
  assert (Hall : ∀ σ1, all_up config_dir fakeclock order σ0 σ1 →
            ∃ l1, stdout σ' = stdout σ ++ l0 ++ l1
                  ∧ res = match e with
                          | Exhausted => Ret true
                          | Unsatisfied _ =>
                              Raise (Exception "Unable to satisfy service dependencies")
                          end
                  ∧ start_lines (l0 ++ l1)
                    = (LogStarting <$> (name <$> order))
                        ++ match e with
                           | Exhausted => [LogAllRunning]
                           | Unsatisfied _ => []
                           end).
  { intros σ1 Hup.
    destruct (all_up_output config_dir fakeclock order σ0 σ1 Hup) as (l1 & Ho1 & Hl1).
    apply start_loop_all_up in Hup. rewrite Hup in Hgen. destruct e as [|blocked].
    - injection Hgen as <- <-. simpl. exists (l1 ++ [LogAllRunning]).
      split_and!; [rewrite Ho1, Ho0, <- !app_assoc; done|done|].
      by rewrite !start_lines_app, Hl0, Hl1.
    - injection Hgen as <- <-. simpl.
      exists (l1 ++ LogUnsatisfiedHeader :: unsatisfied_lines (walk blocked)).
      split_and!; [rewrite Ho1, Ho0, <- !app_assoc; done|done|].
      rewrite !start_lines_app, Hl0, Hl1. simpl.
      rewrite (start_lines_other (unsatisfied_lines _)); [done|].
      apply Forall_fmap, Forall_forall. by intros. }
  assert (Hfail : ∀ pre s post σ1 r σ2,
            order = pre ++ s :: post →
            all_up config_dir fakeclock pre σ0 σ1 →
            spawn_and_gate config_dir fakeclock s (announced s σ1) = (r, σ2) →
            r ≠ Ret true →
            ∃ l1, stdout σ' = stdout σ ++ l0 ++ l1
                  ∧ res = Ret false
                  ∧ start_lines (l0 ++ l1)
                    = (LogStarting <$> (name <$> pre ++ [s]))
                        ++ match r with
                           | Raise ex => [LogErrorStarting (name s) ex]
                           | Ret _ => []
                           end).
  { intros pre s post σ1 r σ2 -> Hup Hstep Hr.
    destruct (start_loop_failure_output config_dir fakeclock pre s post σ0 σ1 r σ2
                Hup Hstep Hr) as (σF & l1 & HF & Ho1 & Hl1).
    rewrite HF in Hgen. injection Hgen as <- <-. exists l1.
    split_and!; [rewrite Ho1, Ho0, <- !app_assoc; done|done|].
    by rewrite start_lines_app, Hl0, Hl1. }
  destruct Hcases as [[σ1 Hup]|(pre & s & post & σ1 & r & σ2 & Ho & Hup & Hstep & Hr)].
  - destruct (Hall σ1 Hup) as (l1 & Hout & Hres & Hlines).
    exists (l0 ++ l1). split_and!; [done|done|done| |eauto| |].
    + rewrite Hres. split.
      * destruct e; [|done]. intros _.
        apply (elem_of_start_lines LogAllRunning). rewrite Hlines. set_solver.
      * intros Hin. assert (Hin' : LogAllRunning ∈ start_lines (l0 ++ l1))
          by (by apply elem_of_start_lines).
        rewrite Hlines in Hin'. destruct e; [done|].
        rewrite app_nil_r in Hin'. by apply all_running_not_starting in Hin'.
    + intros σ1' Hup'. destruct (Hall σ1' Hup') as (l1' & Hout' & Hres' & Hlines').
      rewrite Hout in Hout'. apply app_inv_head in Hout'. by rewrite Hout'.
    + intros pre s post σ1' r σ2 Ho Hup' Hstep Hr.
      destruct (Hfail pre s post σ1' r σ2 Ho Hup' Hstep Hr) as (l1' & Hout' & Hres' & Hlines').
      rewrite Hout in Hout'. apply app_inv_head in Hout'. by rewrite Hout'.
  - destruct (Hfail pre s post σ1 r σ2 Ho Hup Hstep Hr) as (l1 & Hout & Hres & Hlines).
    exists (l0 ++ l1).
    split_and!; [done|done|done| |right; by exists pre, s, post, σ1, r, σ2| |].
    + rewrite Hres. split; [done|]. intros Hin.
      assert (Hin' : LogAllRunning ∈ start_lines (l0 ++ l1))
        by (by apply elem_of_start_lines).
      rewrite Hlines in Hin'. apply elem_of_app in Hin' as [Hin'|Hin'].
      * by apply all_running_not_starting in Hin'.
      * destruct r as [[]|ex]; set_solver.
    + intros σ1' Hup'. destruct (Hall σ1' Hup') as (l1' & Hout' & Hres' & Hlines').
      rewrite Hout in Hout'. apply app_inv_head in Hout'. by rewrite Hout'.
    + intros pre' s' post' σ1' r' σ2' Ho' Hup' Hstep' Hr'.
      destruct (Hfail pre' s' post' σ1' r' σ2' Ho' Hup' Hstep' Hr')
        as (l1' & Hout' & Hres' & Hlines').
      rewrite Hout in Hout'. apply app_inv_head in Hout'. by rewrite Hout'.
Qed.

(** The port of [B] never opens: its wait times out, and the
    exception is printed as the error of [B]. *)
Lemma start_output_witness :
  ∃ (σ0 σ1 σ2 σ' : Sys TestWorld) (ls : list log_line),
    startChallSrv (os := test_os closed_port) (handlers_installed (idle boot))
      = (Ret None, σ0)
    ∧ all_up (os := test_os closed_port) "test/config" None [svcA] σ0 σ1
    ∧ spawn_and_gate (os := test_os closed_port) "test/config" None svcB
        (announced svcB σ1)
      = (Raise (Exception "timed out waiting for debug port 8002 (./bin/b)"), σ2)
    ∧ start_on (os := test_os closed_port) "test/config" pop_first elements
        chain_table None (idle boot) = Some (Ret false, σ')
    ∧ stdout σ' = stdout (idle boot) ++ ls
    ∧ start_lines ls
      = (LogStarting <$> (name <$> [svcA] ++ [svcB]))
          ++ [LogErrorStarting (name svcB)
                (Exception "timed out waiting for debug port 8002 (./bin/b)")].
Proof.
  destruct (start_output (os := test_os closed_port) "test/config" pop_first elements
              chain_table None (idle boot) pop_first_elem)
    as (order & e & res & σ' & ls & Htopo & Hstart & Hout & _ & Hcases).
  vm_compute in Htopo. injection Htopo as <- <-.
  set (σ0 := (startChallSrv (os := test_os closed_port)
                (handlers_installed (idle boot))).2).
  set (σ1 := (spawn_and_gate (os := test_os closed_port) "test/config" None svcA
                (announced svcA σ0)).2).
  set (σ2 := (spawn_and_gate (os := test_os closed_port) "test/config" None svcB
                (announced svcB σ1)).2).
  assert (Hside : startChallSrv (os := test_os closed_port)
                    (handlers_installed (idle boot)) = (Ret None, σ0))
    by (vm_compute; reflexivity).
  assert (HA : spawn_and_gate (os := test_os closed_port) "test/config" None svcA
                 (announced svcA σ0) = (Ret true, σ1))
    by (vm_compute; reflexivity).
  assert (HB : spawn_and_gate (os := test_os closed_port) "test/config" None svcB
                 (announced svcB σ1)
               = (Raise (Exception "timed out waiting for debug port 8002 (./bin/b)"),
                  σ2))
    by (vm_compute; reflexivity).
  assert (Hup : all_up (os := test_os closed_port) "test/config" None [svcA] σ0 σ1)
    by (econstructor; [exact HA|constructor]).
  rewrite Hside in Hcases. destruct Hcases as (_ & _ & Hfail).
  destruct (Hfail [svcA] svcB [svcC] σ1 _ σ2 eq_refl Hup HB) as (-> & Hlines); [done|].
  exists σ0, σ1, σ2, σ', ls. by split_and!.
Defined.

Example start_closed_port_output :
  start_lines (stdout (final_state
     (start_on (os := test_os closed_port) "test/config" pop_first elements chain_table
        None (idle boot))))
  = [LogStarting "A"; LogStarting "B";
     LogErrorStarting "B"
       (Exception "timed out waiting for debug port 8002 (./bin/b)")].
Proof. vm_compute. reflexivity. Qed.
